(** * aider/models.py: model settings resolution and image token cost

    A shallow embedding of [aider/models.py].  Python integers are [Z],
    Python floats are IEEE-754 binary64 values ([spec_float] with
    precision 53 and exponent bound 1024), Python strings are [string],
    and a raised exception is an explicit error result.

    Part I holds the definitions: the program first, then the notions the
    statements are phrased with.  Part II holds the lemmas and theorems. *)

From Stdlib Require Import ZArith List String Ascii Bool Lia.
From Stdlib Require Import QArith Sorted.
From Stdlib Require Import Reals Lra.
From Stdlib Require Import Floats.SpecFloat.
Import ListNotations.

Local Open Scope Z_scope.

(** * Part I: definitions *)

(** ** The program *)

(** *** Exceptions and results *)

Inductive exn : Type :=
| ZeroDivisionError
| OverflowError
| ValueError
| TypeError
| ModelEnvironmentError (message : string)
| NoModelInfo (message : string)
| RecursionError.

Inductive result (A : Type) : Type :=
| OK (a : A)
| Raise (e : exn).

Arguments OK {A} a.
Arguments Raise {A} e.

Definition bind {A B : Type} (r : result A) (k : A -> result B) : result B :=
  match r with
  | OK a => k a
  | Raise e => Raise e
  end.

Notation "x <- c ;; k" := (bind c (fun x => k))
  (at level 61, c at next level, right associativity).

(** *** Python numbers: binary64 floats over [SpecFloat] *)

Definition prec : Z := 53.
Definition emax : Z := 1024.

Definition float : Type := spec_float.

(** [a / b] on two Python ints: the correctly rounded quotient
    (round half to even), [ZeroDivisionError] on a zero divisor and
    [OverflowError] when the quotient does not fit a float. *)
Definition int_truediv (a b : Z) : result float :=
  if b =? 0 then Raise ZeroDivisionError
  else
    let '(mz, ez, lz) := SFdiv_core_binary prec emax (Z.abs a) 0 (Z.abs b) 0 in
    match binary_round_aux prec emax (xorb (a <? 0) (b <? 0)) mz ez lz with
    | S754_infinity _ => Raise OverflowError
    | f => OK f
    end.

(** The implicit conversion of an int operand to float (round half to
    even, [OverflowError] beyond the float range). *)
Definition float_of_int (z : Z) : result float :=
  match binary_normalize prec emax z 0 false with
  | S754_infinity _ => Raise OverflowError
  | f => OK f
  end.

(** [i * x] with an int [i] and a float [x]. *)
Definition int_mul_float (i : Z) (x : float) : result float :=
  fi <- float_of_int i ;;
  OK (SFmul prec emax fi x).

(** [int(x)]: truncation towards zero. *)
Definition int_of_float (x : float) : result Z :=
  match x with
  | S754_zero _ => OK 0
  | S754_finite s m e => OK (cond_Zopp s (Z.shiftl (Zpos m) e))
  | S754_infinity _ => Raise OverflowError
  | S754_nan => Raise ValueError
  end.

(** [math.ceil(x)]. *)
Definition math_ceil (x : float) : result Z :=
  match x with
  | S754_zero _ => OK 0
  | S754_finite false m e => OK (- Z.shiftl (Zneg m) e)
  | S754_finite true m e => OK (- Z.shiftl (Zpos m) e)
  | S754_infinity _ => Raise OverflowError
  | S754_nan => Raise ValueError
  end.

(** *** [Model.token_count_for_image]

    The image decoder ([get_image_size]) is external; the function is
    modelled on the decoded [(width, height)]. *)

Definition token_count_for_image (width height : Z) : result Z :=
  (* If the image is larger than 2048 in any dimension, scale it down *)
  let max_dimension := Z.max width height in
  wh <- (if 2048 <? max_dimension then
           scale_factor <- int_truediv 2048 max_dimension ;;
           width' <- (p <- int_mul_float width scale_factor ;; int_of_float p) ;;
           height' <- (p <- int_mul_float height scale_factor ;; int_of_float p) ;;
           OK (width', height')
         else OK (width, height)) ;;
  let '(width, height) := wh in
  (* Scale the image such that the shortest side is 768 pixels long *)
  let min_dimension := Z.min width height in
  scale_factor <- int_truediv 768 min_dimension ;;
  width <- (p <- int_mul_float width scale_factor ;; int_of_float p) ;;
  height <- (p <- int_mul_float height scale_factor ;; int_of_float p) ;;
  (* Calculate the number of 512x512 tiles needed to cover the image *)
  tiles_width <- (q <- int_truediv width 512 ;; math_ceil q) ;;
  tiles_height <- (q <- int_truediv height 512 ;; math_ceil q) ;;
  let num_tiles := tiles_width * tiles_height in
  (* Each tile costs 170 tokens, plus a fixed cost of 85 tokens *)
  let token_cost := num_tiles * 170 + 85 in
  OK token_cost.

(** The four-step formula of the specification, in exact integer
    arithmetic: [None] where the formula divides by zero. *)

Definition ceil_div (n d : Z) : Z := - ((- n) / d).

Definition image_token_cost (width height : Z) : option Z :=
  let m := Z.max width height in
  let '(w1, h1) :=
    if 2048 <? m then (width * 2048 / m, height * 2048 / m)
    else (width, height) in
  let a := Z.min w1 h1 in
  if a =? 0 then None
  else
    let w2 := w1 * 768 / a in
    let h2 := h1 * 768 / a in
    Some (ceil_div w2 512 * ceil_div h2 512 * 170 + 85).

Local Open Scope string_scope.

(** *** Strings *)

(** [needle in hay] on Python strings. *)
Fixpoint contains (needle hay : string) : bool :=
  prefix needle hay ||
  match hay with
  | EmptyString => false
  | String _ rest => contains needle rest
  end.

Definition newline : string := String (ascii_of_nat 10) EmptyString.

(** *** [ModelSettings] and the registry *)

Record ModelSettings : Type := mkModelSettings {
  ms_name : string;
  ms_edit_format : string;
  ms_weak_model_name : option string;
  ms_use_repo_map : bool;
  ms_send_undo_reply : bool;
  ms_accepts_images : bool
}.

Definition MODEL_SETTINGS : list ModelSettings := [
  (* gpt-3.5 *)
  mkModelSettings "gpt-3.5-turbo-0125" "whole" (Some "gpt-3.5-turbo") false false false;
  mkModelSettings "gpt-3.5-turbo-1106" "whole" (Some "gpt-3.5-turbo") false false false;
  mkModelSettings "gpt-3.5-turbo-0613" "whole" (Some "gpt-3.5-turbo") false false false;
  mkModelSettings "gpt-3.5-turbo-16k-0613" "whole" (Some "gpt-3.5-turbo") false false false;
  (* gpt-4 *)
  mkModelSettings "gpt-4-turbo-2024-04-09" "udiff" (Some "gpt-3.5-turbo") true true true;
  mkModelSettings "gpt-4-turbo" "udiff" (Some "gpt-3.5-turbo") true true true;
  mkModelSettings "gpt-4-0125-preview" "udiff" (Some "gpt-3.5-turbo") true true false;
  mkModelSettings "gpt-4-1106-preview" "udiff" (Some "gpt-3.5-turbo") true true false;
  mkModelSettings "gpt-4-vision-preview" "diff" (Some "gpt-3.5-turbo") true true true;
  mkModelSettings "gpt-4-0613" "diff" (Some "gpt-3.5-turbo") true true false;
  mkModelSettings "gpt-4-32k-0613" "diff" (Some "gpt-3.5-turbo") true true false;
  (* Claude *)
  mkModelSettings "claude-3-opus-20240229" "diff" (Some "claude-3-haiku-20240307") true true false;
  mkModelSettings "claude-3-sonnet-20240229" "whole" (Some "claude-3-haiku-20240307") false false false;
  (* Cohere *)
  mkModelSettings "command-r-plus" "whole" (Some "command-r-plus") true true false;
  (* Groq llama3 *)
  mkModelSettings "groq/llama3-70b-8192" "diff" (Some "groq/llama3-8b-8192") true true false
].

(** *** [Model] instances *)

(** The [weak_model] attribute: [None], the instance itself, or an
    instance of its own. *)
Inductive weak_ref (M : Type) : Type :=
| WeakNone
| WeakSelf
| WeakModel (m : M).

Arguments WeakNone {M}.
Arguments WeakSelf {M}.
Arguments WeakModel {M} m.

(** The values a metadata entry can hold: the catalog is read from JSON, so
    an entry is [None], a bool, an int, a float, a string, or a list or
    dict ([VOther]). *)
Inductive value : Type :=
| VNone
| VBool (b : bool)
| VInt (z : Z)
| VFloat (x : float)
| VStr (s : string)
| VOther.

(** The dict [litellm.get_model_info] returns. *)
Definition model_info : Type := list (string * value).

#[warnings="-register-all"]
Inductive Model : Type := mkModel {
  name : string;
  edit_format : string;
  use_repo_map : bool;
  send_undo_reply : bool;
  accepts_images : bool;
  weak_model_name : option string;
  max_chat_history_tokens : Z;
  info : model_info;
  weak_model : weak_ref Model
}.

(** The class attributes, with [name] and [info] as [__init__] sets them first. *)
Definition new_instance (model : string) : Model :=
  {| name := model;
     edit_format := "whole";
     use_repo_map := false;
     send_undo_reply := false;
     accepts_images := false;
     weak_model_name := None;
     max_chat_history_tokens := 1024;
     info := [];
     weak_model := WeakNone |}.

Definition set_info (self : Model) (i : model_info) (tokens : Z) : Model :=
  {| name := name self; edit_format := edit_format self;
     use_repo_map := use_repo_map self; send_undo_reply := send_undo_reply self;
     accepts_images := accepts_images self; weak_model_name := weak_model_name self;
     max_chat_history_tokens := tokens; info := i; weak_model := weak_model self |}.

Definition set_weak_model_name (self : Model) (n : option string) : Model :=
  {| name := name self; edit_format := edit_format self;
     use_repo_map := use_repo_map self; send_undo_reply := send_undo_reply self;
     accepts_images := accepts_images self; weak_model_name := n;
     max_chat_history_tokens := max_chat_history_tokens self; info := info self;
     weak_model := weak_model self |}.

Definition set_weak_model (self : Model) (w : weak_ref Model) : Model :=
  {| name := name self; edit_format := edit_format self;
     use_repo_map := use_repo_map self; send_undo_reply := send_undo_reply self;
     accepts_images := accepts_images self; weak_model_name := weak_model_name self;
     max_chat_history_tokens := max_chat_history_tokens self; info := info self;
     weak_model := w |}.

(** [setattr] of the six [ModelSettings] fields. *)
Definition copy_settings (self : Model) (ms : ModelSettings) : Model :=
  {| name := ms_name ms; edit_format := ms_edit_format ms;
     use_repo_map := ms_use_repo_map ms; send_undo_reply := ms_send_undo_reply ms;
     accepts_images := ms_accepts_images ms; weak_model_name := ms_weak_model_name ms;
     max_chat_history_tokens := max_chat_history_tokens self; info := info self;
     weak_model := weak_model self |}.

(** [edit_format], [use_repo_map = True] and [send_undo_reply = True] of rules 2 to 4. *)
Definition set_rule (self : Model) (fmt : string) : Model :=
  {| name := name self; edit_format := fmt;
     use_repo_map := true; send_undo_reply := true;
     accepts_images := accepts_images self; weak_model_name := weak_model_name self;
     max_chat_history_tokens := max_chat_history_tokens self; info := info self;
     weak_model := weak_model self |}.

Definition set_use_repo_map (self : Model) : Model :=
  {| name := name self; edit_format := edit_format self;
     use_repo_map := true; send_undo_reply := send_undo_reply self;
     accepts_images := accepts_images self; weak_model_name := weak_model_name self;
     max_chat_history_tokens := max_chat_history_tokens self; info := info self;
     weak_model := weak_model self |}.

(** *** [Model.configure_model_settings] *)

Definition configure_model_settings (self : Model) (model : string) : Model :=
  match find (fun ms => model =? ms_name ms) MODEL_SETTINGS with
  | Some ms => copy_settings self ms
  | None =>
      if contains "llama3" model && contains "70b" model then
        set_rule self "diff"
      else if contains "gpt-4-turbo" model
              || (contains "gpt-4-" model && contains "-preview" model) then
        set_rule self "udiff"
      else if contains "gpt-4" model || contains "claude-2" model
              || contains "claude-3-opus" model then
        set_rule self "diff"
      else
        (* use the defaults *)
        if edit_format self =? "diff" then set_use_repo_map self else self
  end.


(** *** Construction with output: what was printed, then the outcome *)

Definition io (A : Type) : Type := (list string * result A)%type.

Definition io_ret {A : Type} (a : A) : io A := ([], OK a).
Definition io_raise {A : Type} (e : exn) : io A := ([], Raise e).
Definition print (line : string) : io unit := ([line], OK tt).

Definition io_bind {A B : Type} (c : io A) (k : A -> io B) : io B :=
  match c with
  | (out, OK a) => let '(out', r) := k a in ((out ++ out')%list, r)
  | (out, Raise e) => (out, Raise e)
  end.

Notation "x <-- c ;; k" := (io_bind c (fun x => k))
  (at level 61, c at next level, right associativity).

(** The [weak_model] argument of [Model(...)]: [None], [False] or a name. *)
Inductive weak_arg : Type :=
| ArgNone
| ArgFalse
| ArgName (provided : string).

(** Truthiness of the [provided_weak_model_name] argument. *)
Definition provided_name (a : weak_arg) : option string :=
  match a with
  | ArgName s => if s =? "" then None else Some s
  | _ => None
  end.

(** What [litellm.validate_environment] answers. *)
Record env_report : Type := mkEnvReport {
  missing_keys : list string;
  keys_in_environment : bool
}.

(** [info.get(key, default)] *)
Fixpoint assoc_get (key : string) (i : model_info) (default : value) : value :=
  match i with
  | [] => default
  | (k, v) :: rest => if k =? key then v else assoc_get key rest default
  end.

(** [x < n] on a float [x] and an int [n]: Python compares the two exactly;
    NaN is below nothing. *)
Definition float_lt_int (x : float) (n : Z) : bool :=
  match x with
  | S754_nan => false
  | S754_infinity s => s
  | S754_zero _ => (0 <? n)%Z
  | S754_finite s m e =>
      if (0 <=? e)%Z then (cond_Zopp s (Zpos m) * 2 ^ e <? n)%Z
      else (cond_Zopp s (Zpos m) <? n * 2 ^ (- e))%Z
  end.

(** [v < n] on a value [v] and an int [n]: numbers compare by value (a
    bool as 0 or 1); for anything else [<] raises [TypeError]. *)
Definition value_lt_int (v : value) (n : Z) : result bool :=
  match v with
  | VBool b => OK ((if b then 1 else 0) <? n)%Z
  | VInt z => OK (z <? n)%Z
  | VFloat x => OK (float_lt_int x n)
  | VNone | VStr _ | VOther => Raise TypeError
  end.

(** A computation that prints nothing. *)
Definition io_lift {A : Type} (r : result A) : io A := ([], r).

Section Resolver.

(** The external providers.  [litellm.validate_environment]: *)
Variable litellm_validate_environment : string -> env_report.
(** [None] when [litellm.get_model_info] raises. *)
Variable get_model_info : string -> option model_info.
(** The keys of [litellm.model_cost], in iteration order. *)
Variable model_cost : list string.
(** [difflib.get_close_matches(word, possibilities, n, cutoff)] *)
Variable get_close_matches : string -> list string -> nat -> Q -> list string.

(** *** [fuzzy_match_models] *)
Definition fuzzy_match_models (name : string) : list string :=
  let models := model_cost in
  (* Check for exact match first *)
  if existsb (String.eqb name) models then [name]
  else
    (* Check for models containing the name *)
    let matching_models := filter (fun model => contains name model) models in
    (* If no matches found, check for slight misspellings *)
    match matching_models with
    | [] => get_close_matches name models 3%nat (8 # 10)%Q
    | _ :: _ => matching_models
    end.

(** *** [check_model_name] *)
Definition check_model_name (model : string) : string :=
  let res := "Unknown model " ++ model in
  let possible_matches := fuzzy_match_models model in
  match possible_matches with
  | [] => res
  | _ :: _ =>
      fold_left (fun res match_ => res ++ newline ++ "- " ++ match_)
                possible_matches (res ++ ", did you mean one of these?")
  end.

(** The environment check at the head of [__init__]. *)
Definition check_environment (model : string) (validate_environment : bool) : io unit :=
  let res := litellm_validate_environment model in
  match missing_keys res with
  | _ :: _ =>
      if validate_environment then
        io_raise (ModelEnvironmentError
                    (fold_left (fun res key => res ++ "- " ++ key) (missing_keys res)
                       ("To use model " ++ model
                        ++ ", please set these environment variables:")))
      else io_ret tt
  | [] =>
      if negb (keys_in_environment res) then
        print ("Unable to check environment variables for model " ++ model)
      else io_ret tt
  end.

(** "Do we have the model_info?" *)
Definition fetch_info (model : string) (require_model_info : bool) : io model_info :=
  match get_model_info model with
  | Some i => io_ret i
  | None =>
      if require_model_info then io_raise (NoModelInfo (check_model_name model))
      else io_ret []
  end.

(** *** [Model.get_weak_model]; [new_Model] is the constructor it calls. *)
Definition get_weak_model
    (new_Model : string -> weak_arg -> bool -> bool -> io Model)
    (self : Model) (provided_weak_model_name : weak_arg)
    (require_model_info : bool) : io Model :=
  (* If weak_model_name is provided, override the model settings *)
  let self :=
    match provided_name provided_weak_model_name with
    | Some n => set_weak_model_name self (Some n)
    | None => self
    end in
  match weak_model_name self with
  | None => io_ret (set_weak_model self WeakSelf)
  | Some wname =>
      if wname =? "" then io_ret (set_weak_model self WeakSelf)
      else if wname =? name self then io_ret (set_weak_model self WeakSelf)
      else
        (* validate_environment is not passed on: it takes its default, True *)
        weak <-- new_Model wname ArgFalse require_model_info true ;;
        io_ret (set_weak_model self (WeakModel weak))
  end.

(** *** [Model.__init__]

    The constructor calls itself through [get_weak_model]; [depth] bounds
    the nesting of calls, and running out of it is [RecursionError]. *)
Fixpoint Model_init (depth : nat) (model : string) (weak_model : weak_arg)
    (require_model_info validate_environment : bool) : io Model :=
  match depth with
  | O => io_raise RecursionError
  | S depth' =>
      let self := new_instance model in
      (* Are all needed keys/params available? *)
      _ <-- check_environment model validate_environment ;;
      (* Do we have the model_info? *)
      i <-- fetch_info model require_model_info ;;
      below <-- io_lift (value_lt_int (assoc_get "max_input_tokens" i (VInt 0))
                           (32 * 1024)) ;;
      let self := set_info self i (if below then 1024 else 2 * 1024) in
      let self := configure_model_settings self model in
      match weak_model with
      | ArgFalse => io_ret (set_weak_model_name self None)
      | _ => get_weak_model (Model_init depth') self weak_model require_model_info
      end
  end.

End Resolver.

(** *** [Model.__str__] *)
Definition Model_str (self : Model) : string := name self.

(** *** [Model.commit_message_models]: the list holding the [weak_model]
    attribute. *)
Definition commit_message_models (self : Model) : list (weak_ref Model) :=
  [weak_model self].

(** *** [main]

    What was printed, and how the call ended: [sys.exit(1)] is
    [SystemExit 1]. *)
Inductive exit_status : Type :=
| Returned
| SystemExit (code : Z).

Section CommandLine.

Variable model_cost : list string.
Variable get_close_matches : string -> list string -> nat -> Q -> list string.

Definition main (argv : list string) : list string * exit_status :=
  if negb (List.length argv =? 2)%nat then
    (["Usage: python models.py <model_name>"], SystemExit 1)
  else
    let model_name := nth 1 argv "" in
    let matching_models := fuzzy_match_models model_cost get_close_matches model_name in
    match matching_models with
    | _ :: _ =>
        (("Matching models for '" ++ model_name ++ "':") :: matching_models, Returned)
    | [] => (["No matching models found for '" ++ model_name ++ "'."], Returned)
    end.

End CommandLine.

(** ** Notions the statements below are phrased with *)

Local Close Scope string_scope.

(** *** The real value of a float, rounding errors, scaled sides *)

(** [2 ^ e] *)
Definition bpow (e : Z) : R := powerRZ 2 e.

(** The real number a float stands for (0 for infinities and NaN). *)
Definition B2R (x : float) : R :=
  match x with
  | S754_finite s m e => (IZR (cond_Zopp s (Zpos m)) * bpow e)%R
  | _ => 0%R
  end.

(** The relative error allowed to one rounding: [2 ^ -52]. *)
Definition eps : R := (/ 4503599627370496)%R.

(** Finite and positive. *)
Definition finite_pos (x : float) : Prop :=
  match x with
  | S754_finite false _ _ => True
  | _ => False
  end.

(** Of positive sign: [+0.0], positive finite or [+inf]. *)
Definition nonneg (x : float) : Prop :=
  match x with
  | S754_zero false | S754_finite false _ _ | S754_infinity false => True
  | _ => False
  end.

(** The left shift [int_truediv] gives the dividend. *)
Definition div_shift (p q : Z) : Z :=
  - Z.min (fexp prec emax (Zdigits2 p - Zdigits2 q)) 0.

(** The exponent a product is rounded at. *)
Definition mul_exp (x y : float) : Z :=
  match x, y with
  | S754_finite _ mx ex, S754_finite _ my ey =>
      Z.max (ex + ey) (Zdigits2 (Zpos (mx * my)) + (ex + ey) - 53)
  | _, _ => 0
  end.

Fixpoint Zupto (lo : Z) (n : nat) : list Z :=
  match n with
  | O => []
  | S k => lo :: Zupto (lo + 1) k
  end.

(** The integers [lo, lo + 1, ..., hi]. *)
Definition Zrange (lo hi : Z) : list Z := Zupto lo (Z.to_nat (hi - lo + 1)).

(** One side scaled by [p / q] and truncated: [int(d * (p / q))]. *)
Definition scale_side (p q d : Z) : result Z :=
  scale_factor <- int_truediv p q ;;
  x <- int_mul_float d scale_factor ;;
  int_of_float x.

(** The side step 2 produces: [int(d * (768 / a))]. *)
Definition rescale (a d : Z) : result Z := scale_side 768 a d.

(** What the code keeps of an exact quotient [n / m]: the integer quotient,
    or one less when [m] divides [n]. *)
Definition near_quotient (z n m : Z) : Prop :=
  z = n / m \/ (n mod m = 0 /\ z = n / m - 1).

(** The four-step formula as a result: [ZeroDivisionError] where it divides
    by zero. *)
Definition formula_result (width height : Z) : result Z :=
  match image_token_cost width height with
  | Some cost => OK cost
  | None => Raise ZeroDivisionError
  end.

(** Sides whose exact scaled length is one above a tile boundary: there
    a one-pixel loss would change the tile count. *)
Definition critical (a d : Z) : bool :=
  ((768 * d) mod a =? 0) && ((768 * d / a) mod 512 =? 1).

(** On a critical side the code keeps the exact length. *)
Definition critical_exact (a d : Z) : bool :=
  if critical a d
  then match rescale a d with OK z => z =? 768 * d / a | Raise _ => false end
  else true.

(** Zero or finite: neither an infinity nor NaN. *)
Definition regular (x : float) : Prop :=
  match x with
  | S754_zero _ | S754_finite _ _ _ => True
  | _ => False
  end.

(** Steps 2 to 4 of [token_count_for_image], on the sides step 1 leaves. *)
Definition tile_cost (width height : Z) : result Z :=
  let min_dimension := Z.min width height in
  scale_factor <- int_truediv 768 min_dimension ;;
  width <- (p <- int_mul_float width scale_factor ;; int_of_float p) ;;
  height <- (p <- int_mul_float height scale_factor ;; int_of_float p) ;;
  tiles_width <- (q <- int_truediv width 512 ;; math_ceil q) ;;
  tiles_height <- (q <- int_truediv height 512 ;; math_ceil q) ;;
  OK (tiles_width * tiles_height * 170 + 85).

Local Open Scope string_scope.

(** *** Settings resolution and construction *)


(** The names on which the cascade falls through to the defaults. *)
Definition reaches_defaults (model : string) : bool :=
  negb (existsb (fun ms => model =? ms_name ms) MODEL_SETTINGS)
  && negb (contains "llama3" model && contains "70b" model)
  && negb (contains "gpt-4-turbo" model
           || (contains "gpt-4-" model && contains "-preview" model))
  && negb (contains "gpt-4" model || contains "claude-2" model
           || contains "claude-3-opus" model).

(** The weak-model name the settings give a model. *)
Definition configured_weak_name (model : string) : option string :=
  weak_model_name (configure_model_settings (new_instance model) model).

(** The weak-model name a construction works with: a supplied name that is
    not empty, and the configured one otherwise. *)
Definition effective_weak_name (model : string) (weak_model : weak_arg) : option string :=
  match weak_model with
  | ArgName supplied =>
      if supplied =? "" then configured_weak_name model else Some supplied
  | _ => configured_weak_name model
  end.

(** What [get_weak_model] makes of a weak-model name [wmn]: no name, an
    empty name or the model's own name make the profile [m] its own weak
    model; any other name makes the weak model a profile that [new_Model]
    constructs for it with [weak_model=False] and the same
    [require_model_info]. *)
Definition weak_model_resolved
    (new_Model : string -> weak_arg -> bool -> bool -> io Model)
    (model : string) (require_model_info : bool) (m : Model)
    (wmn : option string) : Prop :=
  weak_model_name m = wmn /\
  match wmn with
  | None => weak_model m = WeakSelf
  | Some wname =>
      if (wname =? "") || (wname =? model) then weak_model m = WeakSelf
      else exists outB B,
          new_Model wname ArgFalse require_model_info true = (outB, OK B) /\
          weak_model m = WeakModel B
  end.

(** The message of the environment error: every missing key, in order. *)
Definition environment_message (model : string) (keys : list string) : string :=
  "To use model " ++ model ++ ", please set these environment variables:"
  ++ concat "" (map (fun key => "- " ++ key) keys).

(** Whether [<] accepts a value beside an int. *)
Definition number (v : value) : bool :=
  match v with
  | VBool _ | VInt _ | VFloat _ => true
  | VNone | VStr _ | VOther => false
  end.

(** The [max_input_tokens] entry [__init__] compares with [32 * 1024]. *)
Definition max_input_tokens (i : model_info) : value :=
  assoc_get "max_input_tokens" i (VInt 0).

(** The chat-history budget [__init__] sets for a metadata bag whose
    [max_input_tokens] is a number. *)
Definition history_tokens (i : model_info) : Z :=
  match value_lt_int (max_input_tokens i) (32 * 1024) with
  | OK false => 2 * 1024
  | _ => 1024
  end.

(** The comparison of [__init__] alone: [TypeError] or nothing. *)
Definition check_budget (i : model_info) : io unit :=
  io_lift (below <- value_lt_int (max_input_tokens i) (32 * 1024) ;; OK tt).

(** The instance as [__init__] hands it to [configure_model_settings]. *)
Definition before_configure (model : string) (i : model_info) : Model :=
  set_info (new_instance model) i (history_tokens i).

Definition after_configure (model : string) (i : model_info) : Model :=
  configure_model_settings (before_configure model i) model.

(** An environment with no API key set, a metadata provider that knows
    every model, and an empty catalog. *)
Definition no_keys_environment (model : string) : env_report :=
  mkEnvReport ["OPENAI_API_KEY"] false.

Definition any_model_info (model : string) : option model_info :=
  Some [("max_input_tokens", VInt 8192)].

Definition no_close_matches (word : string) (possibilities : list string)
    (n : nat) (cutoff : Q) : list string := [].

(** A similarity that cannot tell names apart, and the matcher it gives:
    the first [n] possibilities when the cutoff is at most 1. *)
Definition flat_ratio (x word : string) : Q := 1%Q.

Definition flat_close_matches (word : string) (possibilities : list string)
    (n : nat) (cutoff : Q) : list string :=
  if Qle_bool cutoff 1 then firstn n possibilities else [].


(** An environment in which every key is set, a metadata provider that
    knows no model, and two small catalogs. *)
Definition keys_present (model : string) : env_report := mkEnvReport [] true.

Definition no_model_info (model : string) : option model_info := None.

Definition small_catalog : list string := ["gpt-4"; "gpt-3.5-turbo"].

Definition gpt4_catalog : list string :=
  ["gpt-4"; "gpt4-a"; "gpt4-b"; "gpt4-c"; "gpt4-d"].

(** The profiles constructed for "gpt-4-0613" and "mistral-7b" with every key
    set, and the weak model of the first. *)
Definition gpt4_0613_profile : Model :=
  Eval vm_compute in
    match snd (Model_init keys_present any_model_info [] no_close_matches
                 2 "gpt-4-0613" ArgNone true true) with
    | OK m => m
    | Raise _ => new_instance ""
    end.

(** "gpt-4-0613" constructed with the weak model "gpt-4-turbo" supplied. *)
Definition gpt4_0613_turbo_profile : Model :=
  Eval vm_compute in
    match snd (Model_init keys_present any_model_info [] no_close_matches
                 2 "gpt-4-0613" (ArgName "gpt-4-turbo") true true) with
    | OK m => m
    | Raise _ => new_instance ""
    end.

Definition gpt35_profile : Model :=
  Eval vm_compute in
    match weak_model gpt4_0613_profile with
    | WeakModel weak => weak
    | _ => new_instance ""
    end.

Definition mistral_profile : Model :=
  Eval vm_compute in
    match snd (Model_init keys_present any_model_info [] no_close_matches
                 2 "mistral-7b" ArgNone true true) with
    | OK m => m
    | Raise _ => new_instance ""
    end.

(** The object a [weak_model] attribute of [self] refers to. *)
Definition referent (self : Model) (w : weak_ref Model) : option Model :=
  match w with
  | WeakNone => None
  | WeakSelf => Some self
  | WeakModel m => Some m
  end.

(** The notice [__init__] prints for a model whose keys cannot be checked. *)
Definition environment_warning (report : env_report) (model : string) : list string :=
  match missing_keys report with
  | [] => if keys_in_environment report then []
          else ["Unable to check environment variables for model " ++ model]
  | _ :: _ => []
  end.

(** The name the commit-message model of a construction goes by. *)
Definition commit_model_name (model : string) (weak_model : weak_arg) : string :=
  match effective_weak_name model weak_model with
  | Some n => if n =? "" then model else n
  | None => model
  end.

(** The text [check_model_name] appends for a list of suggestions. *)
Definition suggestion_text (matches : list string) : string :=
  match matches with
  | [] => ""
  | _ :: _ => ", did you mean one of these?"
              ++ concat "" (map (fun match_ => newline ++ "- " ++ match_) matches)
  end.

(** An environment that reports neither missing nor present keys, and a
    metadata provider that has a [max_input_tokens] for "gpt-4-0613" and
    [None] in its place for every other model. *)
Definition unchecked_environment (model : string) : env_report := mkEnvReport [] false.

Definition gpt4_0613_tokens_only (model : string) : option model_info :=
  if model =? "gpt-4-0613" then Some [("max_input_tokens", VInt 8192)]
  else Some [("max_input_tokens", VNone)].


Local Close Scope string_scope.

(** * Part II: lemmas and theorems *)

(** ** Binary64 arithmetic *)

Lemma fexp_eq (x : Z) : fexp prec emax x = Z.max (x - 53) (-1074).
Proof. reflexivity. Qed.

Lemma digits2_pos_size (p : positive) : digits2_pos p = Pos.size p.
Proof. induction p; simpl; congruence. Qed.

Lemma Zdigits2_pos_log2 (p : positive) : Zdigits2 (Zpos p) = Z.log2 (Zpos p) + 1.
Proof.
  unfold Zdigits2. rewrite digits2_pos_size.
  destruct p; simpl; try reflexivity; rewrite Pos.add_1_r; reflexivity.
Qed.

Lemma Zdigits2_nonneg (m : Z) : 0 <= Zdigits2 m.
Proof. destruct m; simpl; lia. Qed.

Lemma Zdigits2_bounds (m : Z) :
  0 < m -> 2 ^ (Zdigits2 m - 1) <= m < 2 ^ Zdigits2 m.
Proof.
  intros Hm. destruct m as [|p|p]; try lia.
  rewrite Zdigits2_pos_log2.
  replace (Z.log2 (Z.pos p) + 1 - 1) with (Z.log2 (Z.pos p)) by lia.
  apply Z.log2_spec. lia.
Qed.

Lemma Zdigits2_unique (m k : Z) :
  2 ^ (k - 1) <= m < 2 ^ k -> 1 <= k -> Zdigits2 m = k.
Proof.
  intros H Hk.
  assert (0 < m) by (assert (0 < 2 ^ (k - 1)) by (apply Z.pow_pos_nonneg; lia); lia).
  destruct m as [|p|p]; try lia.
  rewrite Zdigits2_pos_log2.
  rewrite (Z.log2_unique (Z.pos p) (k - 1)); try lia.
  replace (Z.succ (k - 1)) with k by lia. exact H.
Qed.

Lemma Zdigits2_div_pow2 (m n : Z) :
  0 <= m -> 0 <= n -> Zdigits2 (m / 2 ^ n) = Z.max 0 (Zdigits2 m - n).
Proof.
  intros Hm Hn.
  assert (Hp : 0 < 2 ^ n) by (apply Z.pow_pos_nonneg; lia).
  destruct (Z.eq_dec m 0) as [->|Hm0].
  { rewrite Z.div_0_l by lia. simpl. lia. }
  pose proof (Zdigits2_bounds m ltac:(lia)) as [Hlo Hhi].
  set (d := Zdigits2 m) in *.
  destruct (Z_lt_le_dec n d) as [Hlt|Hge].
  - rewrite Z.max_r by lia. apply Zdigits2_unique; [|lia].
    split.
    + apply Z.div_le_lower_bound; [lia|].
      rewrite <- Z.pow_add_r by lia. replace (n + (d - n - 1)) with (d - 1) by lia. exact Hlo.
    + apply Z.div_lt_upper_bound; [lia|].
      rewrite <- Z.pow_add_r by lia. replace (n + (d - n)) with d by lia. exact Hhi.
  - rewrite Z.max_l by lia.
    rewrite Z.div_small; [reflexivity|].
    split; [lia|]. apply Z.lt_le_trans with (2 ^ d); [exact Hhi|].
    apply Z.pow_le_mono_r; lia.
Qed.

Lemma Zdigits2_succ (q : Z) :
  0 <= q ->
  Zdigits2 (q + 1) = Zdigits2 q \/
  (q + 1 = 2 ^ Zdigits2 q /\ Zdigits2 (q + 1) = Zdigits2 q + 1).
Proof.
  intros Hq.
  destruct (Z.eq_dec q 0) as [->|Hq0].
  { right. simpl. split; reflexivity. }
  pose proof (Zdigits2_bounds q ltac:(lia)) as [Hlo Hhi].
  pose proof (Zdigits2_nonneg q) as Hd.
  set (d := Zdigits2 q) in *.
  assert (1 <= d).
  { destruct (Z_lt_le_dec d 1); [|lia]. replace d with 0 in Hhi by lia. simpl in Hhi. lia. }
  destruct (Z.eq_dec (q + 1) (2 ^ d)) as [He|Hne].
  - right. split; [exact He|].
    apply Zdigits2_unique; [|lia].
    replace (d + 1 - 1) with d by lia. rewrite He.
    split; [lia|]. apply Z.pow_lt_mono_r; lia.
  - left. apply Zdigits2_unique; [|lia]. lia.
Qed.

(** Right shifts *)

Lemma shr_1_m (m : Z) (r s : bool) :
  0 <= m -> shr_m (shr_1 (Build_shr_record m r s)) = m / 2.
Proof.
  intros Hm. destruct m as [|p|p]; try lia; [reflexivity|].
  destruct p as [p|p|]; simpl.
  - apply Z.div_unique with 1; lia.
  - apply Z.div_unique with 0; lia.
  - reflexivity.
Qed.

Lemma shr_1_exact (m : Z) :
  0 <= m -> m mod 2 = 0 ->
  shr_1 (Build_shr_record m false false) = Build_shr_record (m / 2) false false.
Proof.
  intros Hm He. destruct m as [|p|p]; try lia; [reflexivity|].
  destruct p as [p|p|]; simpl.
  - exfalso. rewrite Pos2Z.inj_xI in He.
    replace (2 * Z.pos p + 1) with (1 + Z.pos p * 2) in He by lia.
    rewrite Z.mod_add in He by lia. discriminate.
  - f_equal. apply Z.div_unique with 0; lia.
  - discriminate.
Qed.

Lemma iter_shr_1_m (p : positive) :
  forall mrs, 0 <= shr_m mrs ->
    shr_m (iter_pos shr_1 p mrs) = shr_m mrs / 2 ^ Zpos p.
Proof.
  assert (Hone : forall mrs, 0 <= shr_m mrs -> shr_m (shr_1 mrs) = shr_m mrs / 2).
  { intros [m r s] H. apply shr_1_m. exact H. }
  induction p as [p IH|p IH|]; intros mrs Hm; cbn [iter_pos].
  - assert (H1 : 0 <= shr_m (shr_1 mrs)) by (rewrite Hone by lia; apply Z.div_pos; lia).
    assert (H2 : 0 <= shr_m (iter_pos shr_1 p (shr_1 mrs)))
      by (rewrite IH by lia; apply Z.div_pos; [lia|apply Z.pow_pos_nonneg; lia]).
    rewrite IH, IH, Hone by lia.
    rewrite !Zdiv.Zdiv_Zdiv by (try apply Z.pow_nonneg; lia).
    f_equal.
    rewrite <- Z.pow_add_r, <- Z.pow_succ_r by lia. f_equal. lia.
  - assert (H2 : 0 <= shr_m (iter_pos shr_1 p mrs))
      by (rewrite IH by lia; apply Z.div_pos; [lia|apply Z.pow_pos_nonneg; lia]).
    rewrite IH, IH by lia.
    rewrite !Zdiv.Zdiv_Zdiv by (try apply Z.pow_nonneg; lia).
    f_equal.
    rewrite <- Z.pow_add_r by lia. f_equal. lia.
  - rewrite Hone by lia. reflexivity.
Qed.

Lemma iter_shr_1_exact (p : positive) :
  forall m, 0 <= m -> m mod 2 ^ Zpos p = 0 ->
    iter_pos shr_1 p (Build_shr_record m false false)
    = Build_shr_record (m / 2 ^ Zpos p) false false.
Proof.
  assert (Hdiv : forall m a b, 0 <= m -> 0 < a -> 0 < b -> m mod (a * b) = 0 ->
                   m mod a = 0 /\ (m / a) mod b = 0 /\ m / (a * b) = m / a / b).
  { intros m a b Hm Ha Hb H.
    apply Z.mod_divide in H; [|lia]. destruct H as [k Hk]. subst m.
    replace (k * (a * b)) with (k * b * a) by ring.
    rewrite Z.mod_mul, Z.div_mul by lia. rewrite Z.mod_mul by lia.
    repeat split; try reflexivity.
    rewrite Z.div_mul by lia.
    replace (k * b * a) with (k * (a * b)) by ring. apply Z.div_mul. lia. }
  induction p as [p IH|p IH|]; intros m Hm He; cbn [iter_pos].
  - assert (Hp : 0 < 2 ^ Z.pos p) by (apply Z.pow_pos_nonneg; lia).
    assert (E : 2 ^ Z.pos p~1 = 2 * (2 ^ Z.pos p * 2 ^ Z.pos p)).
    { rewrite <- Z.pow_add_r, <- Z.pow_succ_r by lia. f_equal. lia. }
    rewrite E in He |- *.
    destruct (Hdiv m 2 (2 ^ Z.pos p * 2 ^ Z.pos p) Hm ltac:(lia) ltac:(nia) He) as (E1 & E2 & E3).
    assert (Hm2 : 0 <= m / 2) by (apply Z.div_pos; lia).
    destruct (Hdiv (m / 2) (2 ^ Z.pos p) (2 ^ Z.pos p) Hm2 Hp Hp E2) as (E4 & E5 & E6).
    rewrite shr_1_exact by assumption.
    rewrite IH by assumption.
    rewrite IH by (try apply Z.div_pos; lia || assumption).
    rewrite E3, E6. reflexivity.
  - assert (Hp : 0 < 2 ^ Z.pos p) by (apply Z.pow_pos_nonneg; lia).
    assert (E : 2 ^ Z.pos p~0 = 2 ^ Z.pos p * 2 ^ Z.pos p).
    { rewrite <- Z.pow_add_r by lia. f_equal. lia. }
    rewrite E in He |- *.
    destruct (Hdiv m (2 ^ Z.pos p) (2 ^ Z.pos p) Hm Hp Hp He) as (E4 & E5 & E6).
    rewrite IH by assumption.
    rewrite IH by (try apply Z.div_pos; lia || assumption).
    rewrite E6. reflexivity.
  - apply shr_1_exact; assumption.
Qed.

Lemma shr_record_of_loc_m (m : Z) (l : location) : shr_m (shr_record_of_loc m l) = m.
Proof. destruct l as [|[]]; reflexivity. Qed.

Lemma loc_of_shr_record_of_loc (m : Z) (l : location) :
  loc_of_shr_record (shr_record_of_loc m l) = l.
Proof. destruct l as [|[]]; reflexivity. Qed.

Lemma shr_fexp_spec (m e : Z) (l : location) :
  0 <= m ->
  let n := Z.max 0 (fexp prec emax (Zdigits2 m + e) - e) in
  snd (shr_fexp prec emax m e l) = e + n /\
  shr_m (fst (shr_fexp prec emax m e l)) = m / 2 ^ n /\
  (l = loc_Exact -> m mod 2 ^ n = 0 ->
   loc_of_shr_record (fst (shr_fexp prec emax m e l)) = loc_Exact).
Proof.
  intros Hm n. unfold shr_fexp, shr.
  fold (fexp prec emax (Zdigits2 m + e)).
  destruct (fexp prec emax (Zdigits2 m + e) - e) as [|p|p] eqn:E; subst n.
  - rewrite Z.max_l by lia. cbn [fst snd]. rewrite shr_record_of_loc_m.
    change (2 ^ 0) with 1. rewrite Z.div_1_r.
    repeat split; try lia. intros -> _. apply loc_of_shr_record_of_loc.
  - rewrite Z.max_r by lia. cbn [fst snd].
    rewrite iter_shr_1_m by (rewrite shr_record_of_loc_m; lia).
    rewrite shr_record_of_loc_m.
    repeat split; try lia.
    intros -> Hd. cbn [shr_record_of_loc]. rewrite iter_shr_1_exact by assumption.
    reflexivity.
  - rewrite Z.max_l by lia. cbn [fst snd]. rewrite shr_record_of_loc_m.
    change (2 ^ 0) with 1. rewrite Z.div_1_r.
    repeat split; try lia. intros -> _. apply loc_of_shr_record_of_loc.
Qed.

Lemma round_nearest_even_cases (q : Z) (l : location) :
  round_nearest_even q l = q \/ round_nearest_even q l = q + 1.
Proof.
  destruct l as [|[]]; simpl; auto. destruct (Z.even q); auto.
Qed.

(** What [binary_round_aux] returns on a non-negative mantissa: the
    mantissa is cut to [q] at the target exponent, rounded to [q] or
    [q + 1], and renormalised without further loss. *)
Lemma binary_round_aux_spec (sx : bool) (m e : Z) (l : location) :
  0 <= m ->
  let n := Z.max 0 (fexp prec emax (Zdigits2 m + e) - e) in
  let q := m / 2 ^ n in
  exists m1 : Z,
    (m1 = q \/ m1 = q + 1) /\
    (l = loc_Exact -> m mod 2 ^ n = 0 -> m1 = q) /\
    ((m1 = 0 /\ binary_round_aux prec emax sx m e l = S754_zero sx) \/
     (exists (m2 : positive) (e2 : Z),
         e + n <= e2 <= e + n + 1 /\
         m1 = Zpos m2 * 2 ^ (e2 - (e + n)) /\
         binary_round_aux prec emax sx m e l =
           if e2 <=? emax - prec then S754_finite sx m2 e2 else S754_infinity sx)).
Proof.
  intros Hm n q.
  destruct (shr_fexp_spec m e l Hm) as (He1 & Hq & Hex).
  fold n in He1, Hq, Hex. fold q in Hq.
  unfold binary_round_aux.
  destruct (shr_fexp prec emax m e l) as [mrs' e'] eqn:E1. cbn [fst snd] in *.
  set (m1 := round_nearest_even (shr_m mrs') (loc_of_shr_record mrs')).
  assert (Hpn : 0 < 2 ^ n) by (apply Z.pow_pos_nonneg; lia).
  assert (Hq0 : 0 <= q) by (apply Z.div_pos; lia).
  assert (Hm1 : m1 = q \/ m1 = q + 1).
  { unfold m1. rewrite Hq. apply round_nearest_even_cases. }
  assert (Hexact : l = loc_Exact -> m mod 2 ^ n = 0 -> m1 = q).
  { intros Hl Hd. unfold m1. rewrite (Hex Hl Hd), Hq. reflexivity. }
  clearbody m1.
  assert (Hm10 : 0 <= m1) by lia.
  destruct (shr_fexp_spec m1 e' loc_Exact Hm10) as (He2 & Hq2 & _).
  destruct (shr_fexp prec emax m1 e' loc_Exact) as [mrs'' e''] eqn:E2. cbn [fst snd] in *.
  set (n2 := Z.max 0 (fexp prec emax (Zdigits2 m1 + e') - e')) in *.
  exists m1. split; [exact Hm1|]. split; [exact Hexact|]. clear Hexact.
  (* the second shift loses nothing *)
  assert (HC : fexp prec emax (Zdigits2 q + e') <= e').
  { unfold q. rewrite Zdigits2_div_pow2 by lia.
    subst e'. unfold n. rewrite !fexp_eq. pose proof (Zdigits2_nonneg m). lia. }
  assert (Hn2 : (n2 = 0) \/ (n2 = 1 /\ m1 mod 2 = 0)).
  { destruct Hm1 as [->|Hm1].
    - left. unfold n2. lia.
    - subst m1. destruct (Zdigits2_succ q Hq0) as [Hd|[Hp Hd]].
      + left. unfold n2. rewrite Hd. lia.
      + unfold n2. rewrite Hd. rewrite fexp_eq in *.
        pose proof (Zdigits2_nonneg q).
        destruct (Z.eq_dec (Zdigits2 q) 0) as [Hz|Hnz].
        * left. rewrite Hz in *. lia.
        * assert (Hmod : (q + 1) mod 2 = 0).
          { rewrite Hp. replace (Zdigits2 q) with (1 + (Zdigits2 q - 1)) by lia.
            rewrite Z.pow_add_r by lia. change (2 ^ 1) with 2.
            rewrite Z.mul_comm. apply Z.mod_mul. lia. }
          lia. }
  assert (Hval : m1 = shr_m mrs'' * 2 ^ n2).
  { rewrite Hq2. destruct Hn2 as [->|[-> Hmod]].
    - change (2 ^ 0) with 1. rewrite Z.div_1_r. lia.
    - change (2 ^ 1) with 2. pose proof (Z.div_mod m1 2 ltac:(lia)). lia. }
  assert (Hs0 : 0 <= shr_m mrs'').
  { rewrite Hq2. apply Z.div_pos; [lia|]. apply Z.pow_pos_nonneg; lia. }
  destruct (shr_m mrs'') as [|m2|m2] eqn:Es; try lia.
  - left. split; [lia|reflexivity].
  - right. exists m2, e''. subst e' e''.
    replace (e + n + n2 - (e + n)) with n2 by lia.
    repeat split; try lia.
Qed.

Lemma bpow_pos (e : Z) : (0 < bpow e)%R.
Proof. apply powerRZ_lt. lra. Qed.

Lemma bpow_add (a b : Z) : bpow (a + b) = (bpow a * bpow b)%R.
Proof. apply powerRZ_add. lra. Qed.

Lemma bpow_IZR (e : Z) : 0 <= e -> bpow e = IZR (2 ^ e).
Proof.
  intros He. unfold bpow. destruct e as [|p|p]; try lia.
  - reflexivity.
  - simpl powerRZ. rewrite pow_IZR. f_equal. rewrite positive_nat_Z. reflexivity.
Qed.

Lemma bpow_ge_1 (e : Z) : 0 <= e -> (1 <= bpow e)%R.
Proof.
  intros He. rewrite bpow_IZR by lia. apply IZR_le.
  assert (0 < 2 ^ e) by (apply Z.pow_pos_nonneg; lia). lia.
Qed.

Lemma bpow_le (a b : Z) : a <= b -> (bpow a <= bpow b)%R.
Proof.
  intros H. replace b with (a + (b - a)) by lia. rewrite bpow_add.
  pose proof (bpow_pos a). pose proof (bpow_ge_1 (b - a) ltac:(lia)). nra.
Qed.

Lemma bpow_lt (a b : Z) : a < b -> (bpow a < bpow b)%R.
Proof.
  intros H. replace b with (a + 1 + (b - a - 1)) by lia. rewrite !bpow_add.
  pose proof (bpow_pos a). pose proof (bpow_ge_1 (b - a - 1) ltac:(lia)).
  change (bpow 1) with (2 * 1)%R. nra.
Qed.

Lemma bpow_lt_inv (a b : Z) : (bpow a < bpow b)%R -> a < b.
Proof.
  intros H. destruct (Z_lt_le_dec a b) as [|Hle]; [assumption|].
  apply bpow_le in Hle. lra.
Qed.

Lemma B2R_shift (m2 : positive) (e1 e2 : Z) :
  e1 <= e2 ->
  B2R (S754_finite false m2 e2) = (IZR (Zpos m2 * 2 ^ (e2 - e1)) * bpow e1)%R.
Proof.
  intros H. cbn [B2R cond_Zopp]. rewrite mult_IZR, <- bpow_IZR by lia.
  rewrite Rmult_assoc, <- bpow_add. do 2 f_equal. lia.
Qed.

(** Rounding error of [binary_round_aux] in the normal range. *)
Lemma binary_round_aux_error (m e : Z) (l : location) (x : R) :
  0 < m ->
  (IZR m * bpow e <= x < IZR (m + 1) * bpow e)%R ->
  (l = loc_Exact -> x = IZR m * bpow e)%R ->
  53 <= Zdigits2 m \/ l = loc_Exact ->
  -1074 <= Zdigits2 m + e - 53 ->
  let r := binary_round_aux prec emax false m e l in
  (r = S754_infinity false /\ 970 < Z.max e (Zdigits2 m + e - 53)) \/
  (finite_pos r /\ (x * (1 - eps) <= B2R r <= x * (1 + eps))%R /\
   (l = loc_Exact -> m mod 2 ^ Z.max 0 (Zdigits2 m - 53) = 0 -> B2R r = x)).
Proof.
  intros Hm Hx Hxe Hd Hn r.
  destruct (binary_round_aux_spec false m e l ltac:(lia)) as (m1 & Hm1 & Hex & Hr).
  fold r in Hr. rewrite fexp_eq in *.
  set (d := Zdigits2 m) in *.
  set (n := Z.max 0 (Z.max (d + e - 53) (-1074) - e)) in *.
  set (q := m / 2 ^ n) in *.
  assert (Hn0 : 0 <= n) by lia.
  assert (Hpn : 0 < 2 ^ n) by (apply Z.pow_pos_nonneg; lia).
  pose proof (Zdigits2_bounds m Hm) as [Hlo Hhi]. fold d in Hlo, Hhi.
  assert (Hqm : q * 2 ^ n <= m < (q + 1) * 2 ^ n).
  { unfold q. pose proof (Z.mul_div_le m (2 ^ n) Hpn).
    pose proof (Z.mul_succ_div_gt m (2 ^ n) Hpn). lia. }
  pose proof (bpow_pos e) as Hbe.
  pose proof (bpow_pos (e + n)) as Hu.
  assert (Hen : bpow (e + n) = (bpow e * IZR (2 ^ n))%R)
    by (rewrite bpow_add, (bpow_IZR n) by lia; reflexivity).
  assert (Hlow : (IZR q * bpow (e + n) <= x)%R).
  { rewrite Hen. destruct Hqm as [H1 _]. apply IZR_le in H1. rewrite mult_IZR in H1. nra. }
  assert (Hupp : (x <= IZR (q + 1) * bpow (e + n))%R).
  { rewrite Hen. destruct Hqm as [_ H1].
    assert (H2 : m + 1 <= (q + 1) * 2 ^ n) by lia.
    apply IZR_le in H2. rewrite mult_IZR in H2. nra. }
  assert (Hq : (0 < q) /\ ((4503599627370496 <= IZR q)%R \/ (l = loc_Exact /\ n = 0))).
  { destruct (Z_lt_le_dec d 53) as [Hlt|Hge].
    - destruct Hd as [Hd|Hd]; [lia|]. assert (n = 0) by lia.
      split; [|right; auto]. unfold q. replace n with 0 by lia.
      change (2 ^ 0) with 1. rewrite Z.div_1_r. lia.
    - assert (Hnd : n = d - 53) by lia.
      assert (2 ^ 52 <= q).
      { unfold q. apply Z.div_le_lower_bound; [lia|].
        rewrite <- Z.pow_add_r by lia. replace (n + 52) with (d - 1) by lia. exact Hlo. }
      split; [lia|]. left. apply IZR_le in H. exact H. }
  destruct Hq as [Hq0 Hq].
  destruct Hr as [[Hz _]|(m2 & e2 & He2 & Hv & Hr)]; [lia|].
  destruct (e2 <=? emax - prec) eqn:Ele.
  - right. rewrite Hr. split; [exact I|].
    rewrite (B2R_shift m2 (e + n) e2) by lia. rewrite <- Hv.
    assert (Hexact : l = loc_Exact -> m mod 2 ^ Z.max 0 (d - 53) = 0 ->
                     (IZR m1 * bpow (e + n))%R = x).
    { intros Hl Hmod. replace (Z.max 0 (d - 53)) with n in Hmod by lia.
      rewrite (Hex Hl Hmod), (Hxe Hl), Hen.
      assert (Hmq : m = q * 2 ^ n).
      { unfold q. pose proof (Z.div_mod m (2 ^ n) ltac:(lia)). lia. }
      apply (f_equal IZR) in Hmq. rewrite mult_IZR in Hmq. rewrite Hmq. ring. }
    split; [|exact Hexact]. clear Hexact.
    destruct Hq as [Hq|[Hl Hn']].
    + assert (HP : (4503599627370496 * bpow (e + n) <= IZR q * bpow (e + n))%R) by nra.
      rewrite plus_IZR in Hupp.
      unfold eps. destruct Hm1 as [->| ->]; [|rewrite plus_IZR]; lra.
    + assert (Hmq : m1 = q).
      { apply Hex; [exact Hl|]. rewrite Hn'. apply Z.mod_1_r. }
      assert (Hqe : q = m).
      { unfold q. rewrite Hn'. change (2 ^ 0) with 1. apply Z.div_1_r. }
      rewrite Hmq, Hqe, Hn', Z.add_0_r. rewrite (Hxe Hl).
      unfold eps. assert (0 < IZR m * bpow e)%R.
      { apply Rmult_lt_0_compat; [apply IZR_lt; lia|exact Hbe]. }
      lra.
  - left. split; [exact Hr|]. apply Z.leb_gt in Ele. unfold emax, prec in Ele. lia.
Qed.

Lemma new_location_exact (k r : Z) : new_location k r = loc_Exact <-> r = 0.
Proof.
  unfold new_location, new_location_even, new_location_odd.
  destruct (Z.even k); destruct (Z.eqb_spec r 0); split; intros H;
    try reflexivity; try assumption; try discriminate; try contradiction.
  all: destruct (2 * r + 1 ?= k); discriminate.
Qed.

Lemma SFdiv_core_binary_int (p q : Z) :
  0 < p ->
  let s := - Z.min (fexp prec emax (Zdigits2 p - Zdigits2 q)) 0 in
  SFdiv_core_binary prec emax p 0 q 0
  = ((p * 2 ^ s) / q, - s, new_location q ((p * 2 ^ s) mod q)).
Proof.
  intros Hp s. unfold SFdiv_core_binary.
  rewrite !Z.add_0_r, Z.sub_0_r, Z.sub_0_l. fold s.
  set (m' := match s with Z.pos _ => Z.shiftl p s | 0 => p | Z.neg _ => 0 end).
  assert (Hm : m' = p * 2 ^ s).
  { unfold m'. destruct s as [|k|k] eqn:Es.
    - change (2 ^ 0) with 1. lia.
    - apply Z.shiftl_mul_pow2. lia.
    - unfold s in Es. lia. }
  rewrite Hm. unfold Z.div, Z.modulo.
  destruct (Z.div_eucl (p * 2 ^ s) q) as [q0 r]. f_equal. f_equal. fold s. lia.
Qed.

(** Error of the correctly rounded quotient of two positive ints. *)
Lemma int_truediv_error (p q : Z) :
  0 < p -> 0 < q ->
  -1021 <= Zdigits2 p - Zdigits2 q ->
  (int_truediv p q = Raise OverflowError /\ 1022 < Zdigits2 p - Zdigits2 q) \/
  (exists f, int_truediv p q = OK f /\ finite_pos f /\
             (IZR p / IZR q * (1 - eps) <= B2R f <= IZR p / IZR q * (1 + eps))%R /\
             let q0 := p * 2 ^ div_shift p q / q in
             ((p * 2 ^ div_shift p q) mod q = 0 ->
              q0 mod 2 ^ Z.max 0 (Zdigits2 q0 - 53) = 0 ->
              B2R f = (IZR p / IZR q)%R)).
Proof.
  intros Hp Hq Hn. unfold int_truediv.
  destruct (Z.eqb_spec q 0) as [|_]; [lia|].
  rewrite !Z.abs_eq by lia.
  replace (p <? 0) with false by (symmetry; apply Z.ltb_ge; lia).
  replace (q <? 0) with false by (symmetry; apply Z.ltb_ge; lia).
  cbn [xorb].
  rewrite SFdiv_core_binary_int by lia. unfold div_shift. rewrite fexp_eq.
  set (d1 := Zdigits2 p) in *. set (d2 := Zdigits2 q) in *.
  set (s := - Z.min (Z.max (d1 - d2 - 53) (-1074)) 0).
  assert (Hs : 0 <= s) by (unfold s; lia).
  assert (Hs' : 53 + d2 - d1 <= s) by (unfold s; lia).
  set (q0 := p * 2 ^ s / q). set (r := (p * 2 ^ s) mod q).
  pose proof (Zdigits2_bounds p Hp) as [Hplo Hphi]. fold d1 in Hplo, Hphi.
  pose proof (Zdigits2_bounds q Hq) as [Hqlo Hqhi]. fold d2 in Hqlo, Hqhi.
  pose proof (Zdigits2_nonneg p) as Hd1. fold d1 in Hd1.
  assert (Hd2 : 1 <= d2).
  { destruct (Z_lt_le_dec d2 1); [|lia]. pose proof (Zdigits2_nonneg q).
    fold d2 in H. replace d2 with 0 in Hqhi by lia. simpl in Hqhi. lia. }
  assert (Hd1' : 1 <= d1).
  { destruct (Z_lt_le_dec d1 1); [|lia].
    replace d1 with 0 in Hphi by lia. simpl in Hphi. lia. }
  assert (Hps : 0 < 2 ^ s) by (apply Z.pow_pos_nonneg; lia).
  assert (Hq0lo : 2 ^ (d1 - 1 + s - d2) <= q0).
  { unfold q0. apply Z.div_le_lower_bound; [lia|].
    apply Z.le_trans with (2 ^ d2 * 2 ^ (d1 - 1 + s - d2)).
    - apply Z.mul_le_mono_nonneg_r; [apply Z.pow_nonneg|]; lia.
    - rewrite <- Z.pow_add_r by lia. replace (d2 + (d1 - 1 + s - d2)) with (d1 - 1 + s) by lia.
      rewrite Z.pow_add_r by lia. apply Z.mul_le_mono_nonneg_r; lia. }
  assert (Hq0hi : q0 < 2 ^ (d1 + s - d2 + 1)).
  { unfold q0. apply Z.div_lt_upper_bound; [lia|].
    apply Z.lt_le_trans with (2 ^ d1 * 2 ^ s).
    - apply Z.mul_lt_mono_pos_r; lia.
    - rewrite <- Z.pow_add_r by lia.
      apply Z.le_trans with (2 ^ (d2 - 1) * 2 ^ (d1 + s - d2 + 1)).
      + rewrite <- Z.pow_add_r by lia. apply Z.pow_le_mono_r; lia.
      + apply Z.mul_le_mono_nonneg_r; [apply Z.pow_nonneg|]; lia. }
  assert (Hq0pos : 0 < q0).
  { assert (0 < 2 ^ (d1 - 1 + s - d2)) by (apply Z.pow_pos_nonneg; lia). lia. }
  pose proof (Zdigits2_bounds q0 Hq0pos) as [Hdlo Hdhi].
  pose proof (Zdigits2_nonneg q0) as Hdq0.
  set (dq := Zdigits2 q0) in *.
  assert (Hdq1 : d1 + s - d2 <= dq).
  { assert (2 ^ (d1 - 1 + s - d2) < 2 ^ dq) by lia.
    apply Z.pow_lt_mono_r_iff in H; lia. }
  assert (Hdq2 : dq <= d1 + s - d2 + 1).
  { assert (2 ^ (dq - 1) < 2 ^ (d1 + s - d2 + 1)) by lia.
    apply Z.pow_lt_mono_r_iff in H; lia. }
  (* the quotient as a real number *)
  assert (HqR : (0 < IZR q)%R) by (apply IZR_lt; lia).
  assert (HpR : (0 < IZR p)%R) by (apply IZR_lt; lia).
  assert (Hb : (bpow (- s) * IZR (2 ^ s) = 1)%R).
  { rewrite <- bpow_IZR, <- bpow_add by lia. replace (- s + s) with 0 by lia. reflexivity. }
  pose proof (bpow_pos (- s)) as Hbp.
  assert (Hdm : q0 * q <= p * 2 ^ s < (q0 + 1) * q).
  { unfold q0. pose proof (Z.mul_div_le (p * 2 ^ s) q Hq).
    pose proof (Z.mul_succ_div_gt (p * 2 ^ s) q Hq). lia. }
  assert (Hx1 : (IZR q0 * bpow (- s) <= IZR p / IZR q)%R).
  { destruct Hdm as [H1 _]. apply IZR_le in H1. rewrite !mult_IZR in H1.
    apply Rmult_le_reg_r with (IZR q); [exact HqR|].
    unfold Rdiv. rewrite (Rmult_assoc (IZR p)), Rinv_l, Rmult_1_r by lra.
    apply Rmult_le_reg_r with (IZR (2 ^ s)); [apply IZR_lt; lia|].
    replace (IZR q0 * bpow (- s) * IZR q * IZR (2 ^ s))%R
      with (IZR q0 * IZR q * (bpow (- s) * IZR (2 ^ s)))%R by ring.
    rewrite Hb. lra. }
  assert (Hx2 : (IZR p / IZR q < IZR (q0 + 1) * bpow (- s))%R).
  { destruct Hdm as [_ H1]. apply IZR_lt in H1. rewrite !mult_IZR in H1.
    apply Rmult_lt_reg_r with (IZR q); [exact HqR|].
    unfold Rdiv. rewrite (Rmult_assoc (IZR p)), Rinv_l, Rmult_1_r by lra.
    apply Rmult_lt_reg_r with (IZR (2 ^ s)); [apply IZR_lt; lia|].
    replace (IZR (q0 + 1) * bpow (- s) * IZR q * IZR (2 ^ s))%R
      with (IZR (q0 + 1) * IZR q * (bpow (- s) * IZR (2 ^ s)))%R by ring.
    rewrite Hb. lra. }
  assert (Hxe : new_location q r = loc_Exact -> (IZR p / IZR q = IZR q0 * bpow (- s))%R).
  { intros Hl. apply new_location_exact in Hl.
    assert (Hpq : p * 2 ^ s = q0 * q).
    { unfold q0. unfold r in Hl. pose proof (Z.div_mod (p * 2 ^ s) q ltac:(lia)). lia. }
    apply (f_equal IZR) in Hpq. rewrite !mult_IZR in Hpq.
    apply Rmult_eq_reg_r with (IZR q); [|lra].
    unfold Rdiv. rewrite (Rmult_assoc (IZR p)), Rinv_l, Rmult_1_r by lra.
    apply Rmult_eq_reg_r with (IZR (2 ^ s)); [|apply Rgt_not_eq, IZR_lt; lia].
    replace (IZR q0 * bpow (- s) * IZR q * IZR (2 ^ s))%R
      with (IZR q0 * IZR q * (bpow (- s) * IZR (2 ^ s)))%R by ring.
    rewrite Hb. lra. }
  assert (H53 : 53 <= dq) by lia.
  assert (Hnorm : -1074 <= dq + - s - 53) by lia.
  destruct (binary_round_aux_error q0 (- s) (new_location q r) (IZR p / IZR q)%R
              Hq0pos (conj Hx1 Hx2) Hxe (or_introl H53) Hnorm)
    as [[Hr Hov]|[Hfin [Hbd Hex]]].
  - left. rewrite Hr. split; [reflexivity|]. fold dq in Hov. lia.
  - right. destruct (binary_round_aux prec emax false q0 (- s) (new_location q r)) as [| | |sg mf ef];
      try contradiction.
    destruct sg; [contradiction|].
    eexists. split; [reflexivity|]. split; [exact I|]. split; [exact Hbd|].
    intros Hr0 Hq0. apply Hex; [|exact Hq0].
    apply new_location_exact. exact Hr0.
Qed.

Lemma Zdigits2_mul_pow2 (m j : Z) :
  0 < m -> 0 <= j -> Zdigits2 (m * 2 ^ j) = Zdigits2 m + j.
Proof.
  intros Hm Hj. pose proof (Zdigits2_bounds m Hm) as [Hlo Hhi].
  pose proof (Zdigits2_nonneg m).
  assert (1 <= Zdigits2 m).
  { destruct (Z_lt_le_dec (Zdigits2 m) 1); [|lia].
    replace (Zdigits2 m) with 0 in Hhi by lia. simpl in Hhi. lia. }
  assert (0 < 2 ^ j) by (apply Z.pow_pos_nonneg; lia).
  apply Zdigits2_unique; [|lia].
  replace (Zdigits2 m + j - 1) with (Zdigits2 m - 1 + j) by lia.
  rewrite !Z.pow_add_r by lia. split.
  - apply Z.mul_le_mono_nonneg_r; lia.
  - apply Z.mul_lt_mono_pos_r; lia.
Qed.

Lemma Zdigits2_ge_1 (m : Z) : 0 < m -> 1 <= Zdigits2 m.
Proof. destruct m; simpl; lia. Qed.

Lemma Zdigits2_le (m k : Z) : 0 <= k -> 0 < m -> m < 2 ^ k -> Zdigits2 m <= k.
Proof.
  intros Hk Hm H. pose proof (Zdigits2_bounds m Hm) as [Hlo _].
  pose proof (Zdigits2_ge_1 m Hm).
  assert (Hlt : 2 ^ (Zdigits2 m - 1) < 2 ^ k) by lia.
  apply Z.pow_lt_mono_r_iff in Hlt; lia.
Qed.

Lemma Zdigits2_gt (m k : Z) : 0 <= k -> 2 ^ k <= m -> k < Zdigits2 m.
Proof.
  intros Hk H.
  assert (0 < 2 ^ k) by (apply Z.pow_pos_nonneg; lia).
  pose proof (Zdigits2_bounds m ltac:(lia)) as [_ Hhi].
  pose proof (Zdigits2_nonneg m).
  assert (Hlt : 2 ^ k < 2 ^ Zdigits2 m) by lia.
  apply Z.pow_lt_mono_r_iff in Hlt; lia.
Qed.

(** Dividing an int below [2^53] by a power of two is exact. *)
Lemma int_truediv_pow2 (p c : Z) :
  0 < p < 2 ^ 53 -> 0 <= c <= 1000 ->
  exists f, int_truediv p (2 ^ c) = OK f /\ finite_pos f /\
            B2R f = (IZR p / IZR (2 ^ c))%R.
Proof.
  intros [Hp Hp53] Hc.
  assert (Hq : 0 < 2 ^ c) by (apply Z.pow_pos_nonneg; lia).
  assert (Hd2 : Zdigits2 (2 ^ c) = c + 1).
  { apply Zdigits2_unique; [|lia]. replace (c + 1 - 1) with c by lia.
    split; [lia|]. apply Z.pow_lt_mono_r; lia. }
  pose proof (Zdigits2_ge_1 p Hp) as Hd1.
  pose proof (Zdigits2_le p 53 ltac:(lia) Hp Hp53) as Hd1'.
  assert (Hs : div_shift p (2 ^ c) = c + (54 - Zdigits2 p)).
  { unfold div_shift. rewrite fexp_eq, Hd2. lia. }
  destruct (int_truediv_error p (2 ^ c) Hp Hq) as [[_ Hov]|(f & Hf & Hfin & _ & Hex)];
    [lia|lia|].
  exists f. split; [exact Hf|]. split; [exact Hfin|].
  rewrite Hs in Hex. cbv zeta in Hex.
  assert (Hq0 : p * 2 ^ (c + (54 - Zdigits2 p)) / 2 ^ c = p * 2 ^ (54 - Zdigits2 p)).
  { rewrite Z.pow_add_r by lia.
    replace (p * (2 ^ c * 2 ^ (54 - Zdigits2 p))) with (p * 2 ^ (54 - Zdigits2 p) * 2 ^ c) by ring.
    apply Z.div_mul. lia. }
  rewrite Hq0 in Hex. apply Hex.
  - rewrite Z.pow_add_r by lia.
    replace (p * (2 ^ c * 2 ^ (54 - Zdigits2 p))) with (p * 2 ^ (54 - Zdigits2 p) * 2 ^ c) by ring.
    apply Z.mod_mul. lia.
  - rewrite Zdigits2_mul_pow2 by lia.
    replace (Z.max 0 (Zdigits2 p + (54 - Zdigits2 p) - 53)) with 1 by lia.
    replace (54 - Zdigits2 p) with (54 - Zdigits2 p - 1 + 1) by lia.
    rewrite Z.pow_add_r by lia. rewrite Z.mul_assoc. apply Z.mod_mul. discriminate.
Qed.

Lemma shl_align_spec (mx : positive) (ex ex' : Z) :
  snd (shl_align mx ex ex') = Z.min ex ex' /\
  Zpos (fst (shl_align mx ex ex')) = Zpos mx * 2 ^ (ex - Z.min ex ex').
Proof.
  unfold shl_align. destruct (ex' - ex) as [|d|d] eqn:E; cbn [fst snd].
  - rewrite Z.min_l by lia. rewrite Z.sub_diag. change (2 ^ 0) with 1. lia.
  - rewrite Z.min_l by lia. rewrite Z.sub_diag. change (2 ^ 0) with 1. lia.
  - rewrite Z.min_r by lia. split; [reflexivity|].
    fold (Zpower.shift_pos d mx). rewrite Zpower.shift_pos_correct.
    replace (ex - ex') with (Z.pos d) by lia. change (Z.pow_pos 2 d) with (2 ^ Z.pos d). lia.
Qed.

(** Conversion of a positive int to float. *)
Lemma float_of_int_error (z : Z) :
  0 < z ->
  (float_of_int z = Raise OverflowError /\ 1023 < Zdigits2 z) \/
  (exists f, float_of_int z = OK f /\ finite_pos f /\
             (IZR z * (1 - eps) <= B2R f <= IZR z * (1 + eps))%R /\
             (Zdigits2 z <= 53 -> B2R f = IZR z)).
Proof.
  intros Hz. destruct z as [|p|p]; try lia.
  unfold float_of_int, binary_normalize, binary_round.
  set (d := Zdigits2 (Z.pos p)).
  change (Z.pos (digits2_pos p)) with d. rewrite Z.add_0_r, fexp_eq.
  pose proof (Zdigits2_ge_1 (Z.pos p) Hz) as Hd. fold d in Hd.
  replace (Z.max (d - 53) (-1074)) with (d - 53) by lia.
  destruct (shl_align_spec p 0 (d - 53)) as [He Hm].
  destruct (shl_align p 0 (d - 53)) as [mz ez]. cbn [fst snd] in He, Hm.
  rewrite <- He in Hm.
  assert (Hmz : Zdigits2 (Z.pos mz) = d - ez).
  { rewrite Hm. rewrite Zdigits2_mul_pow2 by lia. fold d. lia. }
  assert (Hx : (IZR (Z.pos mz) * bpow ez = IZR (Z.pos p))%R).
  { rewrite Hm, mult_IZR, <- bpow_IZR by lia. rewrite Rmult_assoc, <- bpow_add.
    replace (0 - ez + ez) with 0 by lia. change (bpow 0) with 1%R. ring. }
  pose proof (bpow_pos ez) as Hb.
  assert (Hbr : (IZR (Z.pos mz) * bpow ez <= IZR (Z.pos p) < IZR (Z.pos mz + 1) * bpow ez)%R).
  { rewrite <- Hx. split; [lra|]. rewrite plus_IZR. nra. }
  destruct (binary_round_aux_error (Z.pos mz) ez loc_Exact (IZR (Z.pos p))
              ltac:(lia) Hbr (fun _ => eq_sym Hx) (or_intror eq_refl) ltac:(lia))
    as [[Hr Hov]|[Hfin [Hbd Hex]]].
  - left. rewrite Hr. split; [reflexivity|]. lia.
  - right. destruct (binary_round_aux prec emax false (Z.pos mz) ez loc_Exact) as [| | |sg mf ef];
      try contradiction.
    destruct sg; [contradiction|].
    eexists. split; [reflexivity|]. split; [exact I|]. split; [exact Hbd|].
    intros Hd53. apply Hex; [reflexivity|].
    replace (Z.max 0 (Zdigits2 (Z.pos mz) - 53)) with 0 by lia. apply Z.mod_1_r.
Qed.

Lemma float_of_int_overflow (z : Z) :
  2 ^ 1024 <= z -> float_of_int z = Raise OverflowError.
Proof.
  intros Hz.
  assert (Hz0 : 0 < z) by (assert (0 < 2 ^ 1024) by (apply Z.pow_pos_nonneg; lia); lia).
  pose proof (Zdigits2_gt z 1024 ltac:(lia) Hz) as Hd.
  destruct z as [|p|p]; try lia.
  unfold float_of_int, binary_normalize, binary_round.
  set (d := Zdigits2 (Z.pos p)) in *.
  change (Z.pos (digits2_pos p)) with d. rewrite Z.add_0_r, fexp_eq.
  replace (Z.max (d - 53) (-1074)) with (d - 53) by lia.
  destruct (shl_align_spec p 0 (d - 53)) as [He Hm].
  destruct (shl_align p 0 (d - 53)) as [mz ez]. cbn [fst snd] in He, Hm.
  replace (Z.min 0 (d - 53)) with 0 in He, Hm by lia. subst ez.
  assert (Hmz : Z.pos mz = Z.pos p).
  { rewrite Hm. change (2 ^ (0 - 0)) with 1. lia. }
  rewrite Hmz.
  destruct (binary_round_aux_spec false (Z.pos p) 0 loc_Exact ltac:(lia))
    as (m1 & Hm1 & _ & Hr).
  fold d in Hr, Hm1. rewrite fexp_eq in Hr, Hm1.
  replace (Z.max 0 (Z.max (d + 0 - 53) (-1074) - 0)) with (d - 53) in * by lia.
  assert (Hq : 0 < Z.pos p / 2 ^ (d - 53)).
  { apply Z.div_str_pos. split; [apply Z.pow_pos_nonneg; lia|].
    pose proof (Zdigits2_bounds (Z.pos p) Hz0) as [Hlo _]. fold d in Hlo.
    apply Z.le_trans with (2 ^ (d - 1)); [|exact Hlo].
    apply Z.pow_le_mono_r; lia. }
  destruct Hr as [[Hz1 _]|(m2 & e2 & He2 & _ & Hr)]; [lia|].
  rewrite Hr. destruct (Z.leb_spec e2 (emax - prec)) as [Hle|_]; [|reflexivity].
  unfold emax, prec in Hle. lia.
Qed.

Lemma finite_pos_B2R (x : float) : finite_pos x -> (0 < B2R x)%R.
Proof.
  destruct x as [| | |[] m e]; try contradiction. intros _.
  cbn [B2R cond_Zopp]. apply Rmult_lt_0_compat; [apply IZR_lt; lia|apply bpow_pos].
Qed.

Lemma SFmul_error (x y : float) :
  finite_pos x -> finite_pos y ->
  (bpow (-1021) <= B2R x * B2R y)%R ->
  (SFmul prec emax x y = S754_infinity false /\ 970 < mul_exp x y) \/
  (finite_pos (SFmul prec emax x y) /\
   (B2R x * B2R y * (1 - eps) <= B2R (SFmul prec emax x y) <= B2R x * B2R y * (1 + eps))%R).
Proof.
  destruct x as [| | |[] mx ex]; try contradiction.
  destruct y as [| | |[] my ey]; try contradiction.
  intros _ _ Hn. cbn [SFmul xorb mul_exp B2R cond_Zopp] in *.
  assert (Hx : (IZR (Z.pos mx) * bpow ex * (IZR (Z.pos my) * bpow ey)
                = IZR (Z.pos (mx * my)) * bpow (ex + ey))%R).
  { rewrite Pos2Z.inj_mul, mult_IZR, bpow_add. ring. }
  rewrite Hx in *.
  pose proof (bpow_pos (ex + ey)) as Hb.
  set (M := Z.pos (mx * my)) in *.
  assert (HM : 0 < M) by (unfold M; lia).
  assert (Hnorm : -1074 <= Zdigits2 M + (ex + ey) - 53).
  { pose proof (Zdigits2_bounds M HM) as [_ Hhi].
    pose proof (Zdigits2_nonneg M) as Hd0.
    apply IZR_lt in Hhi. rewrite <- bpow_IZR in Hhi by lia.
    assert (Hlt : (bpow (-1021) < bpow (Zdigits2 M + (ex + ey)))%R).
    { rewrite bpow_add. nra. }
    apply bpow_lt_inv in Hlt. lia. }
  assert (Hbr : (IZR M * bpow (ex + ey) <= IZR M * bpow (ex + ey)
                 < IZR (M + 1) * bpow (ex + ey))%R).
  { split; [lra|]. rewrite plus_IZR. nra. }
  destruct (binary_round_aux_error M (ex + ey) loc_Exact _ HM Hbr (fun _ => eq_refl)
              (or_intror eq_refl) Hnorm) as [[Hr Hov]|[Hfin [Hbd _]]].
  - left. split; [exact Hr|lia].
  - right. split; assumption.
Qed.

Lemma pow2_inv (k : Z) : 0 <= k -> (bpow (- k) * IZR (2 ^ k) = 1)%R.
Proof.
  intros Hk. rewrite <- bpow_IZR, <- bpow_add by lia.
  replace (- k + k) with 0 by lia. reflexivity.
Qed.

(** [int(x)] is the integer part of a positive float. *)
Lemma int_of_float_spec (x : float) :
  finite_pos x ->
  exists z, int_of_float x = OK z /\ (IZR z <= B2R x < IZR z + 1)%R.
Proof.
  destruct x as [| | |[] m e]; try contradiction. intros _.
  cbn [int_of_float cond_Zopp B2R]. eexists. split; [reflexivity|].
  destruct (Z_le_gt_dec 0 e) as [He|He].
  - rewrite Z.shiftl_mul_pow2 by lia. rewrite mult_IZR, <- bpow_IZR by lia. lra.
  - rewrite Z.shiftl_div_pow2 by lia.
    set (k := - e). assert (Hk : 0 <= k) by (unfold k; lia).
    assert (Hp : 0 < 2 ^ k) by (apply Z.pow_pos_nonneg; lia).
    pose proof (Z.mul_div_le (Z.pos m) (2 ^ k) Hp) as H1.
    pose proof (Z.mul_succ_div_gt (Z.pos m) (2 ^ k) Hp) as H2.
    set (z := Z.pos m / 2 ^ k) in *.
    assert (H3 : Z.pos m + 1 <= 2 ^ k * (z + 1)) by lia.
    apply IZR_le in H1, H3. rewrite mult_IZR in H1, H3. rewrite !plus_IZR in H3.
    pose proof (pow2_inv k Hk) as Hi. replace (- k) with e in Hi by (unfold k; lia).
    pose proof (bpow_pos e) as Hb.
    assert (HT : (0 < IZR (2 ^ k))%R) by (apply IZR_lt; lia).
    split.
    + apply Rmult_le_reg_r with (IZR (2 ^ k)); [exact HT|].
      rewrite Rmult_assoc, Hi. lra.
    + apply Rmult_lt_reg_r with (IZR (2 ^ k)); [exact HT|].
      rewrite Rmult_assoc, Hi. lra.
Qed.

(** [math.ceil(x)] on a positive float. *)
Lemma math_ceil_spec (x : float) :
  finite_pos x ->
  exists t, math_ceil x = OK t /\ (IZR t - 1 < B2R x <= IZR t)%R.
Proof.
  destruct x as [| | |[] m e]; try contradiction. intros _.
  cbn [math_ceil cond_Zopp B2R]. eexists. split; [reflexivity|].
  destruct (Z_le_gt_dec 0 e) as [He|He].
  - rewrite Z.shiftl_mul_pow2 by lia. rewrite opp_IZR, mult_IZR, <- bpow_IZR by lia.
    change (Z.neg m) with (- Z.pos m). rewrite opp_IZR. lra.
  - rewrite Z.shiftl_div_pow2 by lia.
    set (k := - e). assert (Hk : 0 <= k) by (unfold k; lia).
    assert (Hp : 0 < 2 ^ k) by (apply Z.pow_pos_nonneg; lia).
    pose proof (Z.mul_div_le (Z.neg m) (2 ^ k) Hp) as H1.
    pose proof (Z.mul_succ_div_gt (Z.neg m) (2 ^ k) Hp) as H2.
    set (y := Z.neg m / 2 ^ k) in *.
    assert (H3 : Z.pos m <= 2 ^ k * (- y)) by lia.
    assert (H4 : 2 ^ k * (- y - 1) + 1 <= Z.pos m) by lia.
    apply IZR_le in H3, H4. rewrite mult_IZR in H3.
    rewrite plus_IZR, mult_IZR, minus_IZR in H4.
    pose proof (pow2_inv k Hk) as Hi. replace (- k) with e in Hi by (unfold k; lia).
    pose proof (bpow_pos e) as Hb.
    assert (HT : (0 < IZR (2 ^ k))%R) by (apply IZR_lt; lia).
    split.
    + apply Rmult_lt_reg_r with (IZR (2 ^ k)); [exact HT|].
      rewrite Rmult_assoc, Hi. lra.
    + apply Rmult_le_reg_r with (IZR (2 ^ k)); [exact HT|].
      rewrite Rmult_assoc, Hi. lra.
Qed.

Lemma finite_pos_nonneg (x : float) : finite_pos x -> nonneg x.
Proof. destruct x as [[]|[]| |[] m e]; simpl; auto. Qed.

Lemma binary_round_aux_nonneg (m e : Z) (l : location) :
  0 <= m -> nonneg (binary_round_aux prec emax false m e l).
Proof.
  intros Hm. destruct (binary_round_aux_spec false m e l Hm) as (m1 & _ & _ & Hr).
  destruct Hr as [[_ ->]|(m2 & e2 & _ & _ & ->)]; [exact I|].
  destruct (e2 <=? emax - prec); exact I.
Qed.

Lemma int_truediv_nonneg (p q : Z) (f : float) :
  0 < p -> 0 < q -> int_truediv p q = OK f -> nonneg f.
Proof.
  intros Hp Hq. unfold int_truediv.
  destruct (Z.eqb_spec q 0) as [|_]; [lia|].
  rewrite !Z.abs_eq by lia.
  replace (p <? 0) with false by (symmetry; apply Z.ltb_ge; lia).
  replace (q <? 0) with false by (symmetry; apply Z.ltb_ge; lia).
  cbn [xorb]. rewrite SFdiv_core_binary_int by lia.
  set (s := - Z.min _ 0).
  assert (H0 : 0 <= p * 2 ^ s / q).
  { apply Z.div_pos; [|lia]. apply Z.mul_nonneg_nonneg; [lia|apply Z.pow_nonneg; lia]. }
  pose proof (binary_round_aux_nonneg (p * 2 ^ s / q) (- s)
                (new_location q ((p * 2 ^ s) mod q)) H0) as Hnn.
  destruct (binary_round_aux prec emax false (p * 2 ^ s / q) (- s) _) as [sg|sg| |sg mf ef];
    intros H; inversion H; subst; exact Hnn.
Qed.

Lemma SFmul_nonneg (x y : float) :
  finite_pos x -> nonneg y -> nonneg (SFmul prec emax x y).
Proof.
  destruct x as [| | |[] mx ex]; try contradiction. intros _.
  destruct y as [[]|[]| |[] my ey]; try contradiction; intros _; try exact I.
  cbn [SFmul xorb]. apply binary_round_aux_nonneg. lia.
Qed.

Lemma int_of_float_nonneg (x : float) (z : Z) :
  nonneg x -> int_of_float x = OK z -> 0 <= z.
Proof.
  destruct x as [[]|[]| |[] m e]; try contradiction; intros _ H;
    cbn [int_of_float cond_Zopp] in H; inversion H; subst; try lia.
  apply Z.shiftl_nonneg. lia.
Qed.

(** A dimension scaled by a positive factor stays non-negative. *)
Lemma scaled_nonneg (d p q z : Z) (s : float) :
  0 < d -> 0 < p -> 0 < q ->
  int_truediv p q = OK s ->
  (x <- int_mul_float d s ;; int_of_float x) = OK z ->
  0 <= z.
Proof.
  intros Hd Hp Hq Hs. unfold int_mul_float.
  destruct (float_of_int_error d Hd) as [[-> _]|(fd & -> & Hfd & _)]; [discriminate|].
  cbn [bind]. apply int_of_float_nonneg, SFmul_nonneg; [exact Hfd|].
  exact (int_truediv_nonneg p q s Hp Hq Hs).
Qed.

(** Step 2 brings every side to at least 767 pixels. *)
Lemma rescale_lower (a d z : Z) (s : float) :
  1 <= a <= d ->
  int_truediv 768 a = OK s ->
  (x <- int_mul_float d s ;; int_of_float x) = OK z ->
  767 <= z.
Proof.
  intros [Ha Had] Hs. unfold int_mul_float.
  destruct (Z_lt_le_dec d (2 ^ 1024)) as [Hd|Hd];
    [|rewrite float_of_int_overflow by exact Hd; discriminate].
  assert (Hda : Zdigits2 a <= 1024) by (apply Zdigits2_le; lia).
  destruct (int_truediv_error 768 a) as [[Hr _]|(f & Hf & Hfin & Hbd & _)];
    [lia|lia|change (Zdigits2 768) with 10; lia|congruence|].
  rewrite Hs in Hf. inversion Hf; subst f. clear Hf.
  destruct (float_of_int_error d ltac:(lia)) as [[-> _]|(fd & -> & Hfd & Hbd' & _)];
    [discriminate|].
  cbn [bind].
  assert (HA : (1 <= IZR a)%R) by (apply IZR_le; lia).
  assert (HD : (IZR a <= IZR d)%R) by (apply IZR_le; lia).
  set (K := (768 / IZR a)%R) in *.
  assert (HK : (K * IZR a = 768)%R) by (unfold K; field; lra).
  assert (HK0 : (0 < K)%R) by (unfold K; apply Rdiv_lt_0_compat; lra).
  assert (HDK : (768 <= IZR d * K)%R) by nra.
  unfold eps in *.
  pose proof (finite_pos_B2R fd Hfd) as Hfd0.
  pose proof (finite_pos_B2R s Hfin) as Hs0.
  assert (Hprod : (767.9 <= B2R fd * B2R s)%R).
  { assert (H1 : (IZR d * (1 - / 4503599627370496) * (K * (1 - / 4503599627370496))
                  <= B2R fd * B2R s)%R).
    { apply Rmult_le_compat; try lra; apply Rmult_le_pos; lra. }
    assert (H2 : (IZR d * (1 - / 4503599627370496) * (K * (1 - / 4503599627370496))
                  = IZR d * K * ((1 - / 4503599627370496) * (1 - / 4503599627370496)))%R) by ring.
    rewrite H2 in H1.
    assert (H3 : (0.9999 <= (1 - / 4503599627370496) * (1 - / 4503599627370496))%R) by lra.
    nra. }
  assert (Hsmall : (bpow (-1021) <= 1)%R).
  { change 1%R with (bpow 0). apply bpow_le. lia. }
  destruct (SFmul_error fd s Hfd Hfin ltac:(lra)) as [[-> _]|[Hp [Hpb _]]];
    [discriminate|].
  destruct (int_of_float_spec _ Hp) as (z' & Hz' & Hzb). rewrite Hz'.
  intros H; inversion H; subst z'. clear H.
  unfold eps in Hpb.
  assert (Hz : (766 < IZR z)%R) by lra.
  apply lt_IZR in Hz. lia.
Qed.

(** A side of at least 767 pixels needs at least two tiles. *)
Lemma tiles_lower (z t : Z) :
  767 <= z ->
  (q <- int_truediv z 512 ;; math_ceil q) = OK t ->
  2 <= t.
Proof.
  intros Hz.
  pose proof (Zdigits2_nonneg z) as Hdz.
  destruct (int_truediv_error z 512) as [[-> _]|(f & -> & Hfin & Hbd & _)];
    [lia|lia|change (Zdigits2 512) with 10; lia|discriminate|].
  cbn [bind]. destruct (math_ceil_spec f Hfin) as (t' & -> & Ht).
  intros H; inversion H; subst t'. clear H.
  assert (HZ : (767 <= IZR z)%R) by (apply IZR_le; lia).
  unfold eps in Hbd.
  assert (H1 : (1 < B2R f)%R) by lra.
  assert (H2 : (1 < IZR t)%R) by lra.
  apply lt_IZR in H2. lia.
Qed.

(** C10.  Whenever [token_count_for_image] returns on positive dimensions,
    the cost is 170 * tiles + 85 with at least four tiles, hence at least
    765: step 2 brings both sides to at least 767 pixels ([rescale_lower]),
    and such a side needs two tiles ([tiles_lower]). *)
Theorem token_count_at_least_four_tiles (width height cost : Z) :
  1 <= width -> 1 <= height ->
  token_count_for_image width height = OK cost ->
  exists tiles, 4 <= tiles /\ cost = 170 * tiles + 85 /\ 765 <= cost.
Proof.
  intros Hw Hh. unfold token_count_for_image.
  set (m := Z.max width height).
  assert (Hstep1 : forall w1 h1,
            (if 2048 <? m
             then scale_factor <- int_truediv 2048 m ;;
                  width' <- (p <- int_mul_float width scale_factor ;; int_of_float p) ;;
                  height' <- (p <- int_mul_float height scale_factor ;; int_of_float p) ;;
                  OK (width', height')
             else OK (width, height)) = OK (w1, h1) ->
            0 <= w1 /\ 0 <= h1).
  { intros w1 h1. destruct (2048 <? m).
    - destruct (int_truediv 2048 m) as [s|] eqn:Es; [|discriminate]. cbn [bind].
      destruct (p <- int_mul_float width s ;; int_of_float p) as [w'|] eqn:Ew; [|discriminate].
      destruct (p <- int_mul_float height s ;; int_of_float p) as [h'|] eqn:Eh; [|discriminate].
      cbn [bind]. intros H; inversion H; subst.
      split; eapply scaled_nonneg; try eassumption; unfold m; lia.
    - intros H; inversion H; subst. lia. }
  destruct (if 2048 <? m then _ else _) as [[w1 h1]|] eqn:E1; [|discriminate].
  destruct (Hstep1 w1 h1 eq_refl) as [Hw1 Hh1]. clear Hstep1 E1.
  cbn [bind].
  set (a := Z.min w1 h1).
  destruct (int_truediv 768 a) as [s|] eqn:Es; [|discriminate]. cbn [bind].
  assert (Ha : 1 <= a).
  { destruct (Z_lt_le_dec a 1); [|assumption].
    assert (a = 0) by (unfold a in *; lia).
    rewrite H in Es. discriminate. }
  destruct (p <- int_mul_float w1 s ;; int_of_float p) as [w2|] eqn:Ew2; [|discriminate].
  destruct (p <- int_mul_float h1 s ;; int_of_float p) as [h2|] eqn:Eh2; [|discriminate].
  cbn [bind].
  pose proof (rescale_lower a w1 w2 s ltac:(unfold a in *; lia) Es Ew2) as Hw2.
  pose proof (rescale_lower a h1 h2 s ltac:(unfold a in *; lia) Es Eh2) as Hh2.
  destruct (q <- int_truediv w2 512 ;; math_ceil q) as [tw|] eqn:Etw; [|discriminate].
  destruct (q <- int_truediv h2 512 ;; math_ceil q) as [th|] eqn:Eth; [|discriminate].
  cbn [bind].
  pose proof (tiles_lower w2 tw Hw2 Etw) as Htw.
  pose proof (tiles_lower h2 th Hh2 Eth) as Hth.
  intros H; inversion H; subst cost. clear H.
  exists (tw * th). nia.
Qed.

Lemma In_Zupto (n : nat) : forall lo x, lo <= x < lo + Z.of_nat n -> In x (Zupto lo n).
Proof.
  induction n as [|n IH]; intros lo x H; [lia|].
  cbn [Zupto]. destruct (Z.eq_dec lo x) as [->|Hne]; [left; reflexivity|].
  right. apply IH. lia.
Qed.

Lemma In_Zrange (lo hi x : Z) : lo <= x <= hi -> In x (Zrange lo hi).
Proof. intros H. apply In_Zupto. rewrite Z2Nat.id; lia. Qed.

Lemma forallb_Zrange (f : Z -> bool) (lo hi : Z) :
  forallb f (Zrange lo hi) = true -> forall x, lo <= x <= hi -> f x = true.
Proof.
  intros H x Hx. rewrite forallb_forall in H. apply H, In_Zrange, Hx.
Qed.

Lemma critical_table (i d : Z) :
  1 <= i <= 8 -> 1 <= d <= 2048 -> critical_exact (256 * i) d = true.
Proof.
  intros Hi Hd.
  assert (HT : forallb (fun i => forallb (critical_exact (256 * i)) (Zrange 1 2048))
                       (Zrange 1 8) = true) by (vm_compute; reflexivity).
  exact (forallb_Zrange _ 1 2048 (forallb_Zrange _ 1 8 HT i Hi) d Hd).
Qed.

Lemma critical_is_exact (a d : Z) :
  1 <= a <= 2048 -> 1 <= d <= 2048 ->
  (768 * d) mod a = 0 -> (768 * d / a) mod 512 = 1 ->
  rescale a d = OK (768 * d / a).
Proof.
  intros Ha Hd Hr Hk.
  set (k := 768 * d / a) in *.
  assert (Hak : 768 * d = a * k).
  { unfold k. pose proof (Z.div_mod (768 * d) a ltac:(lia)). lia. }
  pose proof (Z.div_mod k 512 ltac:(lia)) as Hj. rewrite Hk in Hj.
  set (j := k / 512) in *.
  assert (Hi : a = 256 * (3 * d - 2 * a * j)) by nia.
  pose proof (critical_table (3 * d - 2 * a * j) d ltac:(lia) Hd) as HT.
  rewrite <- Hi in HT. unfold critical_exact, critical in HT.
  fold k in HT. rewrite Hr, Hk in HT.
  change ((0 =? 0) && (1 =? 1)) with true in HT. cbv iota in HT.
  destruct (rescale a d) as [z|]; [|discriminate].
  apply Z.eqb_eq in HT. congruence.
Qed.

Lemma finite_pos_exp_bound (x : float) (k : Z) :
  finite_pos x -> (B2R x < bpow k)%R ->
  match x with
  | S754_finite _ m e => Zdigits2 (Zpos m) + e <= k
  | _ => True
  end.
Proof.
  destruct x as [| | |[] m e]; try contradiction. intros _ H.
  cbn [B2R cond_Zopp] in H.
  pose proof (Zdigits2_bounds (Z.pos m) ltac:(lia)) as [Hlo _].
  pose proof (Zdigits2_ge_1 (Z.pos m) ltac:(lia)) as Hd.
  apply IZR_le in Hlo. rewrite <- bpow_IZR in Hlo by lia.
  pose proof (bpow_pos e) as Hb.
  assert (Hlt : (bpow (Zdigits2 (Z.pos m) - 1 + e) < bpow k)%R).
  { rewrite bpow_add. nra. }
  apply bpow_lt_inv in Hlt. lia.
Qed.

Lemma mul_exp_bound (x y : float) (kx ky : Z) :
  finite_pos x -> finite_pos y ->
  (B2R x < bpow kx)%R -> (B2R y < bpow ky)%R ->
  mul_exp x y <= kx + ky.
Proof.
  intros Hx Hy Bx By.
  pose proof (finite_pos_exp_bound x kx Hx Bx) as Ex.
  pose proof (finite_pos_exp_bound y ky Hy By) as Ey.
  destruct x as [| | |[] mx ex]; try contradiction.
  destruct y as [| | |[] my ey]; try contradiction.
  cbn [mul_exp].
  pose proof (Zdigits2_ge_1 (Z.pos mx) ltac:(lia)) as Hdx.
  pose proof (Zdigits2_ge_1 (Z.pos my) ltac:(lia)) as Hdy.
  pose proof (Zdigits2_bounds (Z.pos mx) ltac:(lia)) as [_ Hhx].
  pose proof (Zdigits2_bounds (Z.pos my) ltac:(lia)) as [_ Hhy].
  assert (Hd : Zdigits2 (Z.pos (mx * my)) <= Zdigits2 (Z.pos mx) + Zdigits2 (Z.pos my)).
  { apply Zdigits2_le; [lia|lia|]. rewrite Z.pow_add_r by lia.
    rewrite Pos2Z.inj_mul. apply Z.mul_lt_mono_nonneg; lia. }
  lia.
Qed.

(** [int(d * (p / q))] is the exact integer quotient, or one less when the
    quotient is exact and the rounded product fell just below it. *)
Lemma scale_near (p q d : Z) :
  1 <= p <= 2048 -> 1 <= q < 2 ^ 31 -> 1 <= d < 2 ^ 31 ->
  exists z, scale_side p q d = OK z /\ 0 <= z /\
            (z = p * d / q \/ ((p * d) mod q = 0 /\ z = p * d / q - 1)).
Proof.
  intros Hp Hq Hd. unfold scale_side, int_mul_float.
  assert (Hdp : 1 <= Zdigits2 p <= 12).
  { split; [apply Zdigits2_ge_1; lia|apply Zdigits2_le; lia]. }
  assert (Hdq : 1 <= Zdigits2 q <= 31).
  { split; [apply Zdigits2_ge_1; lia|apply Zdigits2_le; lia]. }
  assert (Hdd : 1 <= Zdigits2 d <= 31).
  { split; [apply Zdigits2_ge_1; lia|apply Zdigits2_le; lia]. }
  destruct (int_truediv_error p q) as [[_ Hov]|(s & Hs & Hfs & Hsb & _)];
    [lia|lia|lia|lia|].
  pose proof (int_truediv_nonneg p q s ltac:(lia) ltac:(lia) Hs) as Hsn.
  rewrite Hs. cbn [bind].
  destruct (float_of_int_error d ltac:(lia)) as [[_ Hov]|(fd & -> & Hfd & _ & Hfe)]; [lia|].
  specialize (Hfe ltac:(lia)). cbn [bind].
  (* the exact quotient, as a real number *)
  assert (H31 : 2 ^ 31 = 2147483648) by reflexivity.
  assert (HQ : (1 <= IZR q <= 2147483648)%R) by (split; apply IZR_le; lia).
  assert (HD : (1 <= IZR d <= 2147483648)%R) by (split; apply IZR_le; lia).
  assert (HP : (1 <= IZR p <= 2048)%R) by (split; apply IZR_le; lia).
  set (K := (IZR p / IZR q)%R) in *.
  assert (HK : (K * IZR q = IZR p)%R) by (unfold K; field; lra).
  assert (HK0 : (0 < K)%R) by (unfold K; apply Rdiv_lt_0_compat; lra).
  assert (HK1 : (K <= 2048)%R) by nra.
  assert (HK2 : (/ 2147483648 <= K)%R).
  { apply Rmult_le_reg_r with (IZR q); [lra|]. rewrite HK.
    apply Rle_trans with (/ 2147483648 * 2147483648)%R; [|lra].
    apply Rmult_le_compat_l; lra. }
  set (y := (IZR d * K)%R).
  assert (Hy0 : (/ 2147483648 <= y)%R) by (unfold y; nra).
  assert (HyQ : (y * IZR q = IZR (p * d))%R).
  { unfold y. rewrite Rmult_assoc, HK, mult_IZR. ring. }
  assert (HN : (IZR (p * d) <= 4398046511104)%R).
  { apply IZR_le. nia. }
  pose proof (finite_pos_B2R s Hfs) as Hs0.
  unfold eps in *.
  set (u := (1 + / 4503599627370496)%R) in *.
  set (l := (1 - / 4503599627370496)%R) in *.
  assert (Hu : (1 < u /\ u * u <= 1 + / 1000000000000000)%R) by (unfold u; split; lra).
  assert (Hl : (0 < l < 1 /\ 1 - / 1000000000000000 <= l * l)%R) by (unfold l; split; lra).
  assert (HX : (y * l <= B2R fd * B2R s <= y * u)%R).
  { rewrite Hfe. unfold y. split.
    - rewrite Rmult_assoc. apply Rmult_le_compat_l; lra.
    - rewrite Rmult_assoc. apply Rmult_le_compat_l; lra. }
  assert (Hsmall : (bpow (-1021) <= / 4294967296)%R).
  { apply Rle_trans with (bpow (-32)); [apply bpow_le; lia|].
    replace (-32) with (- (32)) by reflexivity.
    pose proof (pow2_inv 32 ltac:(lia)) as Hi. change (2 ^ 32) with 4294967296 in Hi.
    pose proof (bpow_pos (- (32))) as Hb.
    apply Rmult_le_reg_r with 4294967296%R; [lra|]. rewrite Hi. lra. }
  assert (HXlo : (/ 4294967296 <= B2R fd * B2R s)%R) by nra.
  destruct (SFmul_error fd s Hfd Hfs ltac:(lra)) as [[_ Hov]|[Hpf Hpb]].
  { exfalso.
    assert (B1 : (B2R fd < bpow 31)%R).
    { rewrite Hfe, bpow_IZR by lia. apply IZR_lt. lia. }
    assert (B2 : (B2R s < bpow 12)%R).
    { rewrite bpow_IZR by lia. change (2 ^ 12) with 4096. nra. }
    pose proof (mul_exp_bound fd s 31 12 Hfd Hfs B1 B2). lia. }
  unfold eps in Hpb. fold u l in Hpb.
  destruct (int_of_float_spec _ Hpf) as (z & Hz & Hzb).
  pose proof (int_of_float_nonneg _ z (finite_pos_nonneg _ Hpf) Hz) as Hz0.
  rewrite Hz. exists z. split; [reflexivity|]. split; [exact Hz0|].
  set (P := B2R (SFmul prec emax fd s)) in *.
  assert (HPy : (y * (l * l) <= P <= y * (u * u))%R).
  { split.
    - apply Rle_trans with (B2R fd * B2R s * l)%R; [|lra].
      rewrite <- Rmult_assoc. apply Rmult_le_compat_r; lra.
    - apply Rle_trans with (B2R fd * B2R s * u)%R; [lra|].
      rewrite <- Rmult_assoc. apply Rmult_le_compat_r; lra. }
  (* scaled by q the error stays below 1 *)
  assert (HPQ : (IZR (p * d) - / 2 < P * IZR q < IZR (p * d) + / 2)%R).
  { assert (H1 : (y * (l * l) * IZR q <= P * IZR q)%R)
      by (apply Rmult_le_compat_r; lra).
    assert (H2 : (P * IZR q <= y * (u * u) * IZR q)%R)
      by (apply Rmult_le_compat_r; lra).
    replace (y * (l * l) * IZR q)%R with (IZR (p * d) * (l * l))%R in H1
      by (rewrite <- HyQ; ring).
    replace (y * (u * u) * IZR q)%R with (IZR (p * d) * (u * u))%R in H2
      by (rewrite <- HyQ; ring).
    assert (HN0 : (0 <= IZR (p * d))%R) by (apply IZR_le; nia).
    split; nra. }
  (* the integer quotient and remainder *)
  pose proof (Z.div_mod (p * d) q ltac:(lia)) as Hdm.
  pose proof (Z.mod_pos_bound (p * d) q ltac:(lia)) as Hr.
  set (k := p * d / q) in *. set (r := (p * d) mod q) in *.
  assert (HNk : (IZR (p * d) = IZR q * IZR k + IZR r)%R).
  { rewrite Hdm, plus_IZR, mult_IZR. reflexivity. }
  assert (Hup : (P < IZR (k + 1))%R).
  { rewrite plus_IZR. apply Rmult_lt_reg_r with (IZR q); [lra|].
    assert (IZR r <= IZR q - 1)%R by (rewrite <- minus_IZR; apply IZR_le; lia).
    lra. }
  assert (H1 : (IZR z < IZR (k + 1))%R) by lra.
  apply lt_IZR in H1.
  destruct (Z.eq_dec r 0) as [Hr0|Hr0].
  - assert (Hlo : (IZR (k - 1) < P)%R).
    { rewrite minus_IZR. apply Rmult_lt_reg_r with (IZR q); [lra|].
      rewrite Hr0 in HNk. lra. }
    assert (H2 : (IZR (k - 2) < IZR z)%R) by (rewrite minus_IZR in *; lra).
    apply lt_IZR in H2.
    destruct (Z.eq_dec z k); [left; assumption|right; split; [assumption|lia]].
  - left.
    assert (Hlo : (IZR k < P)%R).
    { apply Rmult_lt_reg_r with (IZR q); [lra|].
      assert (1 <= IZR r)%R by (apply IZR_le; lia). lra. }
    assert (H2 : (IZR (k - 1) < IZR z)%R) by (rewrite minus_IZR; lra).
    apply lt_IZR in H2. lia.
Qed.

Lemma rescale_near (a d : Z) :
  1 <= a <= 2048 -> 1 <= d <= 2048 ->
  exists z, rescale a d = OK z /\
            (z = 768 * d / a \/ ((768 * d) mod a = 0 /\ z = 768 * d / a - 1)).
Proof.
  intros Ha Hd.
  destruct (scale_near 768 a d) as (z & Hz & _ & Hn);
    try (change (2 ^ 31) with 2147483648); try lia.
  exists z. split; assumption.
Qed.

Lemma ceil_div_unique (n t : Z) : 512 * (t - 1) < n <= 512 * t -> ceil_div n 512 = t.
Proof.
  intros H. unfold ceil_div.
  rewrite <- (Z.div_unique (- n) 512 (- t) (512 * t - n)); lia.
Qed.

Lemma ceil_div_pred (k : Z) : k mod 512 <> 1 -> ceil_div (k - 1) 512 = ceil_div k 512.
Proof.
  intros Hk. pose proof (Z.div_mod k 512 ltac:(lia)) as Hdm.
  pose proof (Z.mod_pos_bound k 512 ltac:(lia)) as Hr.
  destruct (Z.eq_dec (k mod 512) 0) as [H0|H0].
  - rewrite (ceil_div_unique (k - 1) (k / 512)), (ceil_div_unique k (k / 512)); lia.
  - rewrite (ceil_div_unique (k - 1) (k / 512 + 1)), (ceil_div_unique k (k / 512 + 1)); lia.
Qed.

(** Counting the tiles of a side is exact. *)
Lemma tiles_exact (z : Z) :
  0 < z < 2 ^ 53 ->
  (q <- int_truediv z 512 ;; math_ceil q) = OK (ceil_div z 512).
Proof.
  intros Hz.
  destruct (int_truediv_pow2 z 9 Hz ltac:(lia)) as (f & Hf & Hfin & Hv).
  change (2 ^ 9) with 512 in Hf, Hv. rewrite Hf. cbn [bind].
  destruct (math_ceil_spec f Hfin) as (t & -> & Ht).
  rewrite Hv in Ht. f_equal. symmetry. apply ceil_div_unique.
  assert (H1 : (IZR (512 * (t - 1)) < IZR z)%R).
  { rewrite mult_IZR, minus_IZR. lra. }
  assert (H2 : (IZR z <= IZR (512 * t))%R).
  { rewrite mult_IZR. lra. }
  apply lt_IZR in H1. apply le_IZR in H2. lia.
Qed.

(** One side of an image whose sides are at most 2048: the tile count
    of the rescaled side is the exact one. *)
Lemma side_tiles (a d : Z) (s : float) :
  1 <= a <= d -> d <= 2048 ->
  int_truediv 768 a = OK s ->
  exists z, (p <- int_mul_float d s ;; int_of_float p) = OK z /\
            (q <- int_truediv z 512 ;; math_ceil q) = OK (ceil_div (d * 768 / a) 512).
Proof.
  intros Ha Hd Hs.
  destruct (rescale_near a d ltac:(lia) ltac:(lia)) as (z & Hz & Hcases).
  pose proof Hz as Hz'. unfold rescale, scale_side in Hz'. rewrite Hs in Hz'.
  cbn [bind] in Hz'.
  exists z. split; [exact Hz'|].
  rewrite (Z.mul_comm d 768).
  assert (Hk : 768 <= 768 * d / a <= 1572864).
  { split.
    - apply Z.div_le_lower_bound; nia.
    - apply Z.div_le_upper_bound; nia. }
  rewrite tiles_exact by (change (2 ^ 53) with 9007199254740992; lia).
  f_equal. destruct Hcases as [->|[Hr ->]]; [reflexivity|].
  apply ceil_div_pred. intros Hc.
  rewrite (critical_is_exact a d ltac:(lia) ltac:(lia) Hr Hc) in Hz.
  inversion Hz. lia.
Qed.

(** On sides of at most 2048 the cost is the exact four-step formula. *)
Lemma token_count_within_2048 (width height : Z) :
  1 <= width <= 2048 -> 1 <= height <= 2048 ->
  exists cost, image_token_cost width height = Some cost /\
               token_count_for_image width height = OK cost.
Proof.
  intros Hw Hh. unfold image_token_cost, token_count_for_image.
  replace (2048 <? Z.max width height) with false by (symmetry; apply Z.ltb_ge; lia).
  cbn [bind].
  set (a := Z.min width height).
  replace (a =? 0) with false by (symmetry; apply Z.eqb_neq; unfold a; lia).
  eexists. split; [reflexivity|].
  destruct (int_truediv_error 768 a) as [[_ Hov]|(s & Hs & _)];
    [lia|unfold a; lia| | |].
  { pose proof (Zdigits2_le a 12 ltac:(lia) ltac:(unfold a; lia) ltac:(unfold a; lia)).
    change (Zdigits2 768) with 10. lia. }
  { pose proof (Zdigits2_ge_1 a ltac:(unfold a; lia)).
    change (Zdigits2 768) with 10 in Hov. lia. }
  rewrite Hs. cbn [bind].
  destruct (side_tiles a width s ltac:(unfold a; lia) ltac:(lia) Hs) as (zw & -> & Htw).
  destruct (side_tiles a height s ltac:(unfold a; lia) ltac:(lia) Hs) as (zh & -> & Hth).
  cbn [bind]. rewrite Htw, Hth. reflexivity.
Qed.

Lemma token_count_zero_side (width height : Z) :
  0 <= width <= 2048 -> 0 <= height <= 2048 -> Z.min width height = 0 ->
  token_count_for_image width height = Raise ZeroDivisionError /\
  image_token_cost width height = None.
Proof.
  intros Hw Hh Hm. unfold token_count_for_image, image_token_cost.
  replace (2048 <? Z.max width height) with false by (symmetry; apply Z.ltb_ge; lia).
  cbn [bind]. rewrite Hm. split; reflexivity.
Qed.

(** Steps 2 to 4 follow the exact formula on any sides of at most 2048. *)
Lemma token_count_upto_2048 (width height : Z) :
  0 <= width <= 2048 -> 0 <= height <= 2048 ->
  token_count_for_image width height = formula_result width height.
Proof.
  intros Hw Hh. unfold formula_result.
  destruct (Z.eq_dec (Z.min width height) 0) as [Hm|Hm].
  - destruct (token_count_zero_side width height Hw Hh Hm) as [-> ->]. reflexivity.
  - destruct (token_count_within_2048 width height ltac:(lia) ltac:(lia))
      as (cost & -> & ->). reflexivity.
Qed.

(** Step 1 on an image with a side above 2048: both sides come out within
    [0, 2048], each the exact quotient or one less, and the rest of the
    computation is that of the downscaled image. *)
Lemma token_count_downscaled (width height : Z) :
  1 <= width < 2 ^ 31 -> 1 <= height < 2 ^ 31 ->
  2048 < Z.max width height ->
  exists w1 h1,
    near_quotient w1 (2048 * width) (Z.max width height) /\
    near_quotient h1 (2048 * height) (Z.max width height) /\
    0 <= w1 <= 2048 /\ 0 <= h1 <= 2048 /\
    token_count_for_image width height = token_count_for_image w1 h1.
Proof.
  intros Hw Hh Hm. set (m := Z.max width height) in *.
  assert (Hmb : 1 <= m < 2 ^ 31) by (unfold m; lia).
  destruct (scale_near 2048 m width ltac:(lia) Hmb Hw) as (w1 & Hw1 & Hw0 & Hwn).
  destruct (scale_near 2048 m height ltac:(lia) Hmb Hh) as (h1 & Hh1 & Hh0 & Hhn).
  assert (Hq : forall d, 1 <= d <= m -> 2048 * d / m <= 2048).
  { intros d Hd. apply Z.div_le_upper_bound; nia. }
  assert (Hw2 : w1 <= 2048).
  { pose proof (Hq width ltac:(unfold m; lia)). destruct Hwn as [->|[_ ->]]; lia. }
  assert (Hh2 : h1 <= 2048).
  { pose proof (Hq height ltac:(unfold m; lia)). destruct Hhn as [->|[_ ->]]; lia. }
  exists w1, h1. repeat split; try assumption.
  unfold token_count_for_image at 1. fold m.
  replace (2048 <? m) with true by (symmetry; apply Z.ltb_lt; lia).
  unfold scale_side in Hw1, Hh1.
  destruct (int_truediv 2048 m) as [s|]; [|discriminate]. cbn [bind] in *.
  rewrite Hw1, Hh1. cbn [bind].
  unfold token_count_for_image.
  replace (2048 <? Z.max w1 h1) with false by (symmetry; apply Z.ltb_ge; lia).
  reflexivity.
Qed.

(** X7.  On images of decoder size the only failure is the division by a
    side that step 1 truncated to zero. *)
Lemma token_count_fails_by_zero_side (width height : Z) (e : exn) :
  1 <= width < 2 ^ 31 -> 1 <= height < 2 ^ 31 ->
  token_count_for_image width height = Raise e ->
  e = ZeroDivisionError /\ 2048 < Z.max width height.
Proof.
  intros Hw Hh H.
  destruct (Z_lt_le_dec 2048 (Z.max width height)) as [Hm|Hm].
  - split; [|exact Hm].
    destruct (token_count_downscaled width height Hw Hh Hm)
      as (w1 & h1 & _ & _ & Hw1 & Hh1 & E).
    rewrite E, (token_count_upto_2048 w1 h1 Hw1 Hh1) in H. unfold formula_result in H.
    destruct (image_token_cost w1 h1); [discriminate|]. congruence.
  - destruct (token_count_within_2048 width height ltac:(lia) ltac:(lia))
      as (cost & _ & E).
    congruence.
Qed.

Example cost_2048_2048 : token_count_for_image 2048 2048 = OK 765.
Proof. vm_compute. reflexivity. Qed.

Example cost_4096_2048 : token_count_for_image 4096 2048 = OK 1105.
Proof. vm_compute. reflexivity. Qed.

Example cost_3136_2350 : token_count_for_image 3136 2350 = OK 765.
Proof. vm_compute. reflexivity. Qed.

Example formula_3136_2350 : image_token_cost 3136 2350 = Some 1105.
Proof. vm_compute. reflexivity. Qed.

(** C1.  The code misses the four-step formula at 3136 x 2350: the formula
    gives 1105, the code 765.  Step 1 is to bring the width to
    2048 * 3136 / 3136 = 2048, but the quotient 2048 / 3136 is rounded to a
    double, its product with 3136 falls just below 2048 and truncates to
    2047, and step 2 then yields a width of 1024 where the exact one is
    1025. *)
Lemma image_cost_formula_3136_2350 :
  2048 * 3136 / Z.max 3136 2350 = 2048 /\
  scale_side 2048 (Z.max 3136 2350) 3136 = OK 2047 /\
  image_token_cost 3136 2350 = Some 1105 /\
  token_count_for_image 3136 2350 = OK 765 /\
  token_count_for_image 3136 2350 <> OK 1105.
Proof.
  split; [reflexivity|]. split; [vm_compute; reflexivity|].
  split; [exact formula_3136_2350|]. rewrite cost_3136_2350.
  split; [reflexivity|discriminate].
Qed.

(** X25.  How far the four-step formula holds.  On dimensions of at most
    2048 (step 1 is skipped) the cost is that of the formula in exact
    arithmetic.  On larger images, of sides below 2^31, it is that of the
    formula applied to the sides that step 1 leaves: each the exact quotient
    2048 * side / max, or one less when the division is exact.  The results
    for (2048, 2048) and (4096, 2048) are 765 and 1105. *)
Theorem image_cost_formula_rounded :
  (forall width height : Z,
      1 <= width <= 2048 -> 1 <= height <= 2048 ->
      exists cost, image_token_cost width height = Some cost /\
                   token_count_for_image width height = OK cost) /\
  (forall width height : Z,
      1 <= width < 2 ^ 31 -> 1 <= height < 2 ^ 31 ->
      2048 < Z.max width height ->
      exists w1 h1,
        near_quotient w1 (2048 * width) (Z.max width height) /\
        near_quotient h1 (2048 * height) (Z.max width height) /\
        token_count_for_image width height = formula_result w1 h1) /\
  token_count_for_image 2048 2048 = OK 765 /\
  token_count_for_image 4096 2048 = OK 1105.
Proof.
  split; [exact token_count_within_2048|]. split.
  - intros width height Hw Hh Hm.
    destruct (token_count_downscaled width height Hw Hh Hm)
      as (w1 & h1 & Nw & Nh & Hw1 & Hh1 & E).
    exists w1, h1. rewrite E, (token_count_upto_2048 w1 h1 Hw1 Hh1). auto.
  - split; [exact cost_2048_2048|exact cost_4096_2048].
Qed.

Lemma image_cost_formula_rounded_witness :
  (exists cost, image_token_cost 1024 768 = Some cost /\
                token_count_for_image 1024 768 = OK cost) /\
  (exists w1 h1,
      near_quotient w1 (2048 * 3136) (Z.max 3136 2350) /\
      near_quotient h1 (2048 * 2350) (Z.max 3136 2350) /\
      token_count_for_image 3136 2350 = formula_result w1 h1).
Proof.
  split.
  - apply (proj1 image_cost_formula_rounded 1024 768); lia.
  - apply (proj1 (proj2 image_cost_formula_rounded) 3136 2350);
      [split; [lia|reflexivity]|split; [lia|reflexivity]|reflexivity].
Defined.

(** C2.  A 1 x 4096 image: step 1 halves the width to 0.5, which truncates
    to 0, and step 2 divides by that zero. *)
Theorem token_count_for_image_1_4096 :
  token_count_for_image 1 4096 = Raise ZeroDivisionError.
Proof. vm_compute. reflexivity. Qed.

Lemma token_count_at_least_four_tiles_witness :
  exists tiles, 4 <= tiles /\ 1105 = 170 * tiles + 85 /\ 765 <= 1105.
Proof.
  apply (token_count_at_least_four_tiles 4096 2048 1105);
    [lia|lia|vm_compute; reflexivity].
Defined.

Local Open Scope string_scope.

(** ** Settings resolution and construction *)

Lemma io_bind_OK {A B : Type} (c : io A) (k : A -> io B) (out : list string) (b : B) :
  io_bind c k = (out, OK b) ->
  exists o1 a o2, c = (o1, OK a) /\ k a = (o2, OK b) /\ out = (o1 ++ o2)%list.
Proof.
  unfold io_bind. destruct c as [o1 [a|e]]; [|discriminate].
  destruct (k a) as [o2 r] eqn:E. intros H. inversion H; subst.
  exists o1, a, o2. auto.
Qed.

Lemma io_bind_Raise {A B : Type} (c : io A) (k : A -> io B) (e : exn) :
  snd (io_bind c k) = Raise e ->
  snd c = Raise e \/ exists o1 a, c = (o1, OK a) /\ snd (k a) = Raise e.
Proof.
  unfold io_bind. destruct c as [o1 [a|e']]; cbn [snd].
  - destruct (k a) as [o2 r] eqn:E. cbn [snd]. intros ->.
    right. exists o1, a. rewrite E. auto.
  - intros H. left. inversion H. reflexivity.
Qed.

Lemma find_registry_none (model : string) :
  existsb (fun ms => model =? ms_name ms) MODEL_SETTINGS = false ->
  find (fun ms => model =? ms_name ms) MODEL_SETTINGS = None.
Proof.
  intros H. destruct (find _ MODEL_SETTINGS) as [ms|] eqn:E; [|reflexivity].
  apply find_some in E. destruct E as [Hin Heq].
  assert (existsb (fun ms => model =? ms_name ms) MODEL_SETTINGS = true).
  { apply existsb_exists. exists ms. auto. }
  congruence.
Qed.

(** Every registry name fails the patterns of rules 2 and 3 together. *)
Lemma registry_names_not_both (ms : ModelSettings) :
  In ms MODEL_SETTINGS ->
  (contains "llama3" (ms_name ms) && contains "70b" (ms_name ms))
  && (contains "gpt-4-turbo" (ms_name ms)
      || (contains "gpt-4-" (ms_name ms) && contains "-preview" (ms_name ms))) = false.
Proof.
  intros H. cbn [MODEL_SETTINGS In] in H.
  repeat (destruct H as [<-|H]; [vm_compute; reflexivity|]). contradiction.
Qed.

(** C3.  Settings resolution is a first-match cascade: an exact registry
    name takes all five preset fields of its entry, whatever the later
    substring rules would say; and a name that matches both the pattern of
    rule 2 ("llama3" and "70b") and that of rule 3 ("gpt-4-turbo", or
    "gpt-4-" and "-preview") gets the outcome of rule 2, edit format diff. *)
Theorem settings_first_match_wins :
  (forall (self : Model) (ms : ModelSettings),
      In ms MODEL_SETTINGS ->
      let r := configure_model_settings self (ms_name ms) in
      edit_format r = ms_edit_format ms /\
      weak_model_name r = ms_weak_model_name ms /\
      use_repo_map r = ms_use_repo_map ms /\
      send_undo_reply r = ms_send_undo_reply ms /\
      accepts_images r = ms_accepts_images ms) /\
  (forall (self : Model) (model : string),
      contains "llama3" model = true ->
      contains "70b" model = true ->
      contains "gpt-4-turbo" model = true \/
      (contains "gpt-4-" model = true /\ contains "-preview" model = true) ->
      configure_model_settings self model = set_rule self "diff" /\
      edit_format (configure_model_settings self model) = "diff").
Proof.
  split.
  - intros self ms H. cbn [MODEL_SETTINGS In] in H.
    repeat (destruct H as [<-|H]; [repeat split|]). contradiction.
  - intros self model H1 H2 H3.
    assert (Hfind : find (fun ms => model =? ms_name ms) MODEL_SETTINGS = None).
    { destruct (find _ MODEL_SETTINGS) as [ms|] eqn:E; [|reflexivity].
      apply find_some in E. destruct E as [Hin Heq].
      apply String.eqb_eq in Heq. subst model.
      pose proof (registry_names_not_both ms Hin) as Hno.
      rewrite H1, H2 in Hno. cbn [andb] in Hno.
      destruct H3 as [H3|[H3 H4]]; [rewrite H3 in Hno|rewrite H3, H4, orb_true_r in Hno];
        discriminate. }
    unfold configure_model_settings. rewrite Hfind, H1, H2. cbn [andb].
    split; reflexivity.
Qed.

Lemma settings_first_match_wins_witness :
  edit_format (configure_model_settings (new_instance "llama3-70b-gpt-4-turbo")
                 "llama3-70b-gpt-4-turbo") = "diff".
Proof.
  apply (proj2 settings_first_match_wins (new_instance "llama3-70b-gpt-4-turbo")
           "llama3-70b-gpt-4-turbo"); [reflexivity|reflexivity|left; reflexivity].
Defined.

Lemma configure_defaults (self : Model) (model : string) :
  reaches_defaults model = true ->
  configure_model_settings self model =
    if edit_format self =? "diff" then set_use_repo_map self else self.
Proof.
  unfold reaches_defaults. intros H.
  apply andb_prop in H. destruct H as [H H4].
  apply andb_prop in H. destruct H as [H H3].
  apply andb_prop in H. destruct H as [H1 H2].
  apply negb_true_iff in H1, H2, H3, H4.
  unfold configure_model_settings.
  rewrite (find_registry_none model H1), H2, H3, H4. reflexivity.
Qed.

Lemma configure_weak_model (self : Model) (model : string) :
  weak_model (configure_model_settings self model) = weak_model self.
Proof.
  unfold configure_model_settings.
  destruct (find _ MODEL_SETTINGS); [reflexivity|].
  repeat match goal with |- context [if ?b then _ else _] => destruct b end; reflexivity.
Qed.

Lemma configure_info (self : Model) (model : string) :
  info (configure_model_settings self model) = info self /\
  max_chat_history_tokens (configure_model_settings self model) = max_chat_history_tokens self.
Proof.
  unfold configure_model_settings.
  destruct (find _ MODEL_SETTINGS); [split; reflexivity|].
  repeat match goal with |- context [if ?b then _ else _] => destruct b end; split; reflexivity.
Qed.

Lemma configure_name (self : Model) (model : string) :
  name self = model -> name (configure_model_settings self model) = model.
Proof.
  intros Hn. unfold configure_model_settings.
  destruct (find _ MODEL_SETTINGS) as [ms|] eqn:E.
  - apply find_some in E. destruct E as [_ E]. apply String.eqb_eq in E.
    cbn [copy_settings name]. congruence.
  - repeat match goal with |- context [if ?b then _ else _] => destruct b end; exact Hn.
Qed.

(** The weak-model name the cascade assigns depends on the name alone. *)
Lemma configure_weak_model_name (self : Model) (model : string) :
  weak_model_name self = None ->
  weak_model_name (configure_model_settings self model)
  = weak_model_name (configure_model_settings (new_instance model) model).
Proof.
  intros Hn. unfold configure_model_settings.
  destruct (find _ MODEL_SETTINGS); [reflexivity|].
  repeat match goal with |- context [if ?b then _ else _] => destruct b end;
    cbn; try exact Hn; reflexivity.
Qed.

Lemma io_bind_ext {A B : Type} (c : io A) (k k' : A -> io B) :
  (forall a, k a = k' a) -> io_bind c k = io_bind c k'.
Proof. intros H. unfold io_bind. destruct c as [o [a|e]]; [rewrite H|]; reflexivity. Qed.

Lemma append_assoc (a b c : string) : (a ++ b) ++ c = a ++ (b ++ c).
Proof. induction a as [|x a IH]; cbn; [reflexivity|rewrite IH; reflexivity]. Qed.

Lemma fold_left_keys (keys : list string) (acc : string) :
  fold_left (fun res key => res ++ "- " ++ key) keys acc
  = acc ++ concat "" (map (fun key => "- " ++ key) keys).
Proof.
  revert acc. induction keys as [|k keys IH]; intros acc.
  - cbn. induction acc as [|x acc IHa]; cbn; [reflexivity|rewrite <- IHa; reflexivity].
  - cbn [fold_left map]. rewrite IH.
    destruct keys as [|k' keys].
    + cbn [map concat].
      assert (E : forall s, s ++ "" = s)
        by (induction s as [|x s IHs]; cbn; [reflexivity|rewrite IHs; reflexivity]).
      rewrite E. reflexivity.
    + cbn [map concat]. rewrite !append_assoc. reflexivity.
Qed.

(** The effective weak-model name is the one [get_weak_model] computes. *)
Lemma effective_weak_name_provided (model : string) (wa : weak_arg) :
  effective_weak_name model wa =
  match provided_name wa with
  | Some n => Some n
  | None => weak_model_name (configure_model_settings (new_instance model) model)
  end.
Proof.
  destruct wa as [| |supplied]; try reflexivity.
  cbn [effective_weak_name provided_name]. destruct (supplied =? ""); reflexivity.
Qed.

Section ResolverFacts.

Variable litellm_validate_environment : string -> env_report.
Variable get_model_info : string -> option model_info.
Variable model_cost : list string.
Variable get_close_matches : string -> list string -> nat -> Q -> list string.

Local Abbreviation init :=
  (Model_init litellm_validate_environment get_model_info model_cost get_close_matches).
Local Abbreviation check_env := (check_environment litellm_validate_environment).
Local Abbreviation fetch :=
  (fetch_info get_model_info model_cost get_close_matches).
Local Abbreviation unknown :=
  (check_model_name model_cost get_close_matches).

Lemma init_unfold (depth : nat) (model : string) (wa : weak_arg) (rmi ve : bool) :
  init (S depth) model wa rmi ve =
  (_ <-- check_env model ve ;;
   i <-- fetch model rmi ;;
   _ <-- check_budget i ;;
   match wa with
   | ArgFalse => io_ret (set_weak_model_name (after_configure model i) None)
   | _ => get_weak_model (init depth) (after_configure model i) wa rmi
   end).
Proof.
  cbn [Model_init]. apply io_bind_ext. intros _. apply io_bind_ext. intros i.
  unfold check_budget, after_configure, before_configure, history_tokens, io_lift.
  destruct (value_lt_int (max_input_tokens i) (32 * 1024)) as [[]|e] eqn:E;
    unfold max_input_tokens in E; rewrite E; reflexivity.
Qed.

(** The comparison with [32 * 1024] raises [TypeError] exactly on a
    [max_input_tokens] that is not a number. *)
Lemma budget_cases (i : model_info) :
  (number (max_input_tokens i) = true /\ check_budget i = ([], OK tt))
  \/ (number (max_input_tokens i) = false /\ check_budget i = ([], Raise TypeError)).
Proof.
  unfold check_budget, io_lift, value_lt_int.
  destruct (max_input_tokens i); cbn; auto.
Qed.

Lemma budget_empty : check_budget [] = ([], OK tt).
Proof. reflexivity. Qed.

Lemma check_env_cases (model : string) (ve : bool) :
  (ve = true /\ missing_keys (litellm_validate_environment model) <> [] /\
   check_env model ve =
     ([], Raise (ModelEnvironmentError
                   (environment_message model (missing_keys (litellm_validate_environment model))))))
  \/ ((ve = false \/ missing_keys (litellm_validate_environment model) = []) /\
      exists out, check_env model ve = (out, OK tt)).
Proof.
  unfold check_environment, environment_message.
  destruct (missing_keys (litellm_validate_environment model)) as [|k ks] eqn:E.
  - right. split; [auto|].
    destruct (negb (keys_in_environment (litellm_validate_environment model))); eexists; reflexivity.
  - destruct ve.
    + left. split; [reflexivity|]. split; [discriminate|].
      unfold io_raise. rewrite fold_left_keys, !append_assoc. reflexivity.
    + right. split; [auto|]. eexists; reflexivity.
Qed.

Lemma fetch_cases (model : string) (rmi : bool) :
  (exists i, get_model_info model = Some i /\ fetch model rmi = ([], OK i))
  \/ (get_model_info model = None /\ rmi = true /\
      fetch model rmi = ([], Raise (NoModelInfo (unknown model))))
  \/ (get_model_info model = None /\ rmi = false /\ fetch model rmi = ([], OK [])).
Proof.
  unfold fetch_info. destruct (get_model_info model) as [i|].
  - left. exists i. auto.
  - right. destruct rmi; [left|right]; auto.
Qed.

(** With [weak_model=False] the constructor does not call itself. *)
Lemma init_ArgFalse (depth : nat) (model : string) (rmi ve : bool) :
  init (S depth) model ArgFalse rmi ve = init 1 model ArgFalse rmi ve.
Proof. reflexivity. Qed.

Lemma get_weak_model_ext
    (f g : string -> weak_arg -> bool -> bool -> io Model)
    (self : Model) (wa : weak_arg) (rmi : bool) :
  (forall n r v, f n ArgFalse r v = g n ArgFalse r v) ->
  get_weak_model f self wa rmi = get_weak_model g self wa rmi.
Proof.
  intros H. unfold get_weak_model.
  destruct (weak_model_name _) as [wname|]; [|reflexivity].
  destruct (wname =? ""); [reflexivity|].
  destruct (wname =? name _); [reflexivity|].
  rewrite H. reflexivity.
Qed.

Lemma init_depth (depth : nat) (model : string) (wa : weak_arg) (rmi ve : bool) :
  init (S (S depth)) model wa rmi ve = init 2 model wa rmi ve.
Proof.
  rewrite (init_unfold (S depth)), (init_unfold 1).
  apply io_bind_ext. intros _. apply io_bind_ext. intros i.
  destruct wa; try reflexivity; apply get_weak_model_ext; intros; apply init_ArgFalse.
Qed.

(** What a successful construction went through. *)
Lemma init_OK (depth : nat) (model : string) (wa : weak_arg) (rmi ve : bool)
    (out : list string) (m : Model) :
  init (S depth) model wa rmi ve = (out, OK m) ->
  exists i out',
    (get_model_info model = Some i \/ (get_model_info model = None /\ rmi = false /\ i = [])) /\
    match wa with
    | ArgFalse => io_ret (set_weak_model_name (after_configure model i) None)
    | _ => get_weak_model (init depth) (after_configure model i) wa rmi
    end = (out', OK m).
Proof.
  rewrite init_unfold. intros H.
  apply io_bind_OK in H. destruct H as (o1 & [] & o2 & _ & H & _).
  apply io_bind_OK in H. destruct H as (o3 & i & o4' & Hf & H & _).
  apply io_bind_OK in H. destruct H as (o5 & [] & o4 & _ & H & _).
  exists i, o4. split; [|exact H].
  destruct (fetch_cases model rmi) as [(i' & Hg & Hf')|[(Hg & _ & Hf')|(Hg & Hr & Hf')]];
    rewrite Hf' in Hf; inversion Hf; subst; auto.
Qed.

(** The outcomes of [get_weak_model]. *)
Lemma get_weak_model_OK
    (f : string -> weak_arg -> bool -> bool -> io Model)
    (self : Model) (wa : weak_arg) (rmi : bool) (out : list string) (m : Model) :
  get_weak_model f self wa rmi = (out, OK m) ->
  let wmn := match provided_name wa with
             | Some n => Some n
             | None => weak_model_name self
             end in
  weak_model_name m = wmn /\
  edit_format m = edit_format self /\ use_repo_map m = use_repo_map self /\
  info m = info self /\ max_chat_history_tokens m = max_chat_history_tokens self /\
  match wmn with
  | None => weak_model m = WeakSelf
  | Some wname =>
      if (wname =? "") || (wname =? name self) then weak_model m = WeakSelf
      else exists B, f wname ArgFalse rmi true = (out, OK B) /\ weak_model m = WeakModel B
  end.
Proof.
  unfold get_weak_model. intros H.
  set (wmn := match provided_name wa with
              | Some n => Some n
              | None => weak_model_name self
              end).
  set (self' := match provided_name wa with
                | Some n => set_weak_model_name self (Some n)
                | None => self
                end) in *.
  assert (Hw : weak_model_name self' = wmn)
    by (unfold self', wmn; destruct (provided_name wa); reflexivity).
  assert (Hn : name self' = name self)
    by (unfold self'; destruct (provided_name wa); reflexivity).
  assert (Hrest : edit_format self' = edit_format self /\
                  use_repo_map self' = use_repo_map self /\
                  info self' = info self /\
                  max_chat_history_tokens self' = max_chat_history_tokens self)
    by (unfold self'; destruct (provided_name wa); repeat split; reflexivity).
  destruct Hrest as (R1 & R2 & R3 & R4).
  clearbody self' wmn. rewrite Hw in H.
  destruct wmn as [wname|].
  - rewrite Hn in H. destruct (wname =? "") eqn:E1; cbn [orb].
    + inversion H; subst. cbn. auto 10.
    + destruct (wname =? name self) eqn:E2.
      * inversion H; subst. cbn. auto 10.
      * apply io_bind_OK in H. destruct H as (o1 & B & o2 & HB & H & Ho).
        inversion H; subst. rewrite app_nil_r. cbn.
        repeat split; auto. exists B. auto.
  - inversion H; subst. cbn. auto 10.
Qed.

(** The weak model of a constructed profile. *)
Lemma init_weak_model
    (depth : nat) (model : string) (wa : weak_arg) (rmi ve : bool)
    (out : list string) (m : Model) :
  init (S depth) model wa rmi ve = (out, OK m) ->
  match wa with
  | ArgFalse => weak_model_name m = None /\ weak_model m = WeakNone
  | _ =>
      weak_model_name m = effective_weak_name model wa /\
      match effective_weak_name model wa with
      | None => weak_model m = WeakSelf
      | Some wname =>
          if (wname =? "") || (wname =? model) then weak_model m = WeakSelf
          else exists outB B,
              init depth wname ArgFalse rmi true = (outB, OK B) /\
              weak_model m = WeakModel B
      end
  end.
Proof.
  intros H. apply init_OK in H. destruct H as (i & out' & _ & H).
  assert (Hname : name (after_configure model i) = model)
    by (apply configure_name; reflexivity).
  assert (Hwn : weak_model_name (after_configure model i)
                = weak_model_name (configure_model_settings (new_instance model) model))
    by (apply configure_weak_model_name; reflexivity).
  assert (Hgen : wa <> ArgFalse ->
                 get_weak_model (init depth) (after_configure model i) wa rmi = (out', OK m) ->
                 weak_model_name m = effective_weak_name model wa /\
                 match effective_weak_name model wa with
                 | None => weak_model m = WeakSelf
                 | Some wname =>
                     if (wname =? "") || (wname =? model) then weak_model m = WeakSelf
                     else exists outB B,
                         init depth wname ArgFalse rmi true = (outB, OK B) /\
                         weak_model m = WeakModel B
                 end).
  { intros _ Hg. apply get_weak_model_OK in Hg. cbv zeta in Hg.
    rewrite Hwn, Hname in Hg. rewrite <- effective_weak_name_provided in Hg.
    destruct Hg as (Hw & _ & _ & _ & _ & Hg). split; [exact Hw|].
    destruct (effective_weak_name model wa) as [wname|]; [|exact Hg].
    destruct ((wname =? "") || (wname =? model)); [exact Hg|].
    destruct Hg as (B & HB & Hm). exists out', B. auto. }
  destruct wa as [| |provided].
  - apply Hgen; [discriminate|exact H].
  - inversion H; subst. cbn. split; [reflexivity|].
    apply configure_weak_model.
  - apply Hgen; [discriminate|exact H].
Qed.

(** C4 (as amended).  Weak-model resolution.  With [weak_model=False] the
    profile has no weak-model name (and no weak model).  With no name
    supplied, or with the empty name supplied, the name the settings
    configured is the one resolved; a supplied name that is not empty
    overrides it.  The resolved name, when it is none, empty or the model's
    own name, makes the profile its own weak model; otherwise the weak model
    is a profile constructed for that name with [weak_model=False] and the
    same [require_model_info]. *)
Theorem weak_model_resolution
    (depth : nat) (model : string) (wa : weak_arg) (rmi ve : bool)
    (out : list string) (m : Model) :
  init (S depth) model wa rmi ve = (out, OK m) ->
  match wa with
  | ArgFalse => weak_model_name m = None /\ weak_model m = WeakNone
  | ArgNone =>
      weak_model_resolved (init depth) model rmi m
        (weak_model_name (configure_model_settings (new_instance model) model))
  | ArgName supplied =>
      if supplied =? ""
      then weak_model_resolved (init depth) model rmi m
             (weak_model_name (configure_model_settings (new_instance model) model))
      else weak_model_resolved (init depth) model rmi m (Some supplied)
  end.
Proof.
  intros H. apply init_weak_model in H. unfold weak_model_resolved.
  destruct wa as [| |supplied]; [exact H|exact H|].
  cbn [effective_weak_name] in H. unfold configured_weak_name in H.
  destruct (supplied =? "") eqn:E; [exact H|].
  destruct H as [H1 H2]. split; [exact H1|]. cbn [orb]. rewrite E in H2. exact H2.
Qed.


(** Where an exception of the constructor comes from: its own environment
    check, its own metadata lookup, or the constructor of the weak model. *)
Lemma init_Raise (depth : nat) (model : string) (wa : weak_arg) (rmi ve : bool) (e : exn) :
  snd (init (S depth) model wa rmi ve) = Raise e ->
  (ve = true /\ missing_keys (litellm_validate_environment model) <> [] /\
   e = ModelEnvironmentError
         (environment_message model (missing_keys (litellm_validate_environment model))))
  \/ (rmi = true /\ get_model_info model = None /\ e = NoModelInfo (unknown model))
  \/ (e = TypeError /\
      exists i, get_model_info model = Some i /\ number (max_input_tokens i) = false)
  \/ (wa <> ArgFalse /\
      exists wname, wname <> model /\ snd (init depth wname ArgFalse rmi true) = Raise e).
Proof.
  rewrite init_unfold. intros H.
  apply io_bind_Raise in H. destruct H as [H|(o1 & [] & _ & H)].
  { left. destruct (check_env_cases model ve)
      as [(Hv & Hm & Hc)|(_ & out & Hc)]; rewrite Hc in H; cbn [snd] in H.
    - inversion H. auto.
    - discriminate. }
  apply io_bind_Raise in H. destruct H as [H|(o2 & i & Hf & H)].
  { right. left.
    destruct (fetch_cases model rmi)
      as [(i & _ & Hf)|[(Hg & Hr & Hf)|(_ & _ & Hf)]]; rewrite Hf in H; cbn [snd] in H;
      try discriminate.
    inversion H. auto. }
  apply io_bind_Raise in H. destruct H as [H|(o2' & [] & _ & H)].
  { right. right. left.
    destruct (budget_cases i) as [(_ & Hb)|(Hn & Hb)]; rewrite Hb in H; cbn [snd] in H;
      [discriminate|].
    split; [congruence|].
    destruct (fetch_cases model rmi)
      as [(i' & Hg & Hf')|[(_ & _ & Hf')|(_ & _ & Hf')]]; rewrite Hf' in Hf;
      inversion Hf; subst.
    - exists i. auto.
    - discriminate. }
  right. right. right.
  assert (Hname : name (after_configure model i) = model)
    by (apply configure_name; reflexivity).
  assert (Hgen : snd (get_weak_model (init depth) (after_configure model i) wa rmi) = Raise e ->
                 exists wname, wname <> model /\
                               snd (init depth wname ArgFalse rmi true) = Raise e).
  { unfold get_weak_model.
    set (self' := match provided_name wa with
                  | Some n => set_weak_model_name (after_configure model i) (Some n)
                  | None => after_configure model i
                  end).
    assert (Hn : name self' = model)
      by (unfold self'; destruct (provided_name wa); exact Hname).
    clearbody self'.
    destruct (weak_model_name self') as [wname|]; [|discriminate].
    destruct (wname =? "") eqn:E1; [discriminate|].
    rewrite Hn. destruct (wname =? model) eqn:E2; [discriminate|].
    intros Hr. apply io_bind_Raise in Hr. destruct Hr as [Hr|(o3 & B & _ & Hr)];
      [|discriminate].
    exists wname. split; [|exact Hr]. apply String.eqb_neq. exact E2. }
  destruct wa as [| |provided].
  - split; [discriminate|]. apply Hgen, H.
  - discriminate.
  - split; [discriminate|]. apply Hgen, H.
Qed.

(** C5.  Weak-model construction is one level deep: two nested constructor
    calls are all a construction ever makes (more depth changes nothing
    and the depth bound is never hit), and the weak model of a profile,
    when it is a profile of its own, carries no weak model and no
    weak-model name. *)
Theorem weak_model_depth_one :
  let Model_new :=
    Model_init litellm_validate_environment get_model_info model_cost get_close_matches in
  (forall depth model wa rmi ve,
      Model_new (S (S depth)) model wa rmi ve = Model_new 2%nat model wa rmi ve) /\
  (forall model wa rmi ve,
      snd (Model_new 2%nat model wa rmi ve) <> Raise RecursionError) /\
  (forall depth model wa rmi ve out A B,
      Model_new depth model wa rmi ve = (out, OK A) ->
      weak_model A = WeakModel B ->
      weak_model B = WeakNone /\ weak_model_name B = None).
Proof.
  cbv zeta. split; [exact init_depth|]. split.
  - intros model wa rmi ve H.
    apply init_Raise in H.
    destruct H as [(_ & _ & H)|[(_ & _ & H)|[(H & _)|(_ & wname & _ & H)]]];
      try discriminate.
    apply init_Raise in H.
    destruct H as [(_ & _ & H)|[(_ & _ & H)|[(H & _)|(H & _)]]];
      try discriminate.
    apply H. reflexivity.
  - intros depth model wa rmi ve out A B H HB.
    destruct depth as [|depth]; [discriminate|].
    pose proof (init_weak_model _ _ _ _ _ _ _ H) as Hres.
    destruct wa as [| |provided].
    2: { destruct Hres as [_ Hres]. congruence. }
    all: destruct Hres as [_ Hres];
      destruct (effective_weak_name model _) as [wname|]; [|congruence];
      destruct ((wname =? "") || (wname =? model)); [congruence|];
      destruct Hres as (outB & B' & HB' & Hw);
      assert (B' = B) by congruence; subst B';
      destruct depth as [|depth]; [discriminate|];
      apply (init_weak_model _ _ ArgFalse) in HB';
      destruct HB' as [H1 H2]; auto.
Qed.

(** C9.  The defensive default rule never fires: the instance that
    [__init__] hands to the cascade has the class default edit format
    "whole", so on a name that reaches rule 5 the guard
    [edit_format == "diff"] is false, the cascade leaves the instance as it
    is, and the constructed profile keeps "whole" with [use_repo_map] false. *)
Theorem default_rule_never_fires :
  (forall model i,
      edit_format (before_configure model i) = "whole" /\
      (edit_format (before_configure model i) =? "diff") = false) /\
  (forall model i,
      reaches_defaults model = true ->
      after_configure model i = before_configure model i) /\
  (forall depth model wa rmi ve out m,
      reaches_defaults model = true ->
      init depth model wa rmi ve = (out, OK m) ->
      edit_format m = "whole" /\ use_repo_map m = false).
Proof.
  split; [intros; split; reflexivity|]. split.
  - intros model i H. unfold after_configure. rewrite configure_defaults by exact H.
    reflexivity.
  - intros depth model wa rmi ve out m Hd H.
    destruct depth as [|depth]; [discriminate|].
    apply init_OK in H. destruct H as (i & out' & _ & H).
    unfold after_configure in H. rewrite configure_defaults in H by exact Hd.
    change (edit_format (before_configure model i) =? "diff") with false in H.
    cbv iota in H.
    destruct wa as [| |provided].
    2: { inversion H; subst. split; reflexivity. }
    all: apply get_weak_model_OK in H; destruct H as (_ & H1 & H2 & _);
      rewrite H1, H2; split; reflexivity.
Qed.

(** C7.  A failing metadata lookup never escapes as it is.  Once the
    environment check has passed: with [require_model_info] the
    construction fails with [NoModelInfo]; without it no [NoModelInfo] is
    raised at all, a constructed profile has the empty metadata bag (and
    the 1024-token history budget), and with [weak_model=False] the
    construction does complete. *)
Theorem model_info_failure_translated
    (depth : nat) (model : string) (wa : weak_arg) (ve : bool) :
  get_model_info model = None ->
  ve = false \/ missing_keys (litellm_validate_environment model) = [] ->
  snd (init (S depth) model wa true ve) = Raise (NoModelInfo (unknown model)) /\
  (forall msg, snd (init (S depth) model wa false ve) <> Raise (NoModelInfo msg)) /\
  (forall out m, init (S depth) model wa false ve = (out, OK m) ->
                 info m = [] /\ max_chat_history_tokens m = 1024) /\
  (exists out, init (S depth) model ArgFalse false ve =
               (out, OK (set_weak_model_name (after_configure model []) None))).
Proof.
  intros Hg Henv.
  destruct (check_env_cases model ve)
    as [(Hv & Hm & _)|(_ & o1 & Hc)].
  { destruct Henv; congruence. }
  assert (Hf : forall rmi, fetch model rmi =
                           if rmi then ([], Raise (NoModelInfo (unknown model)))
                           else ([], OK [])).
  { intros rmi. unfold fetch_info. rewrite Hg. destruct rmi; reflexivity. }
  repeat split.
  - rewrite init_unfold, Hc, Hf. reflexivity.
  - intros msg H. apply init_Raise in H.
    destruct H as [(_ & _ & H)|[(H & _)|[(H & _)|(_ & wname & _ & H)]]];
      try discriminate.
    destruct depth as [|depth]; [discriminate|].
    apply init_Raise in H.
    destruct H as [(_ & _ & H)|[(H & _)|[(H & _)|(H & _)]]]; try discriminate.
    apply H. reflexivity.
  - apply init_OK in H. destruct H as (i & out' & Hi & H).
    assert (i = []) by (destruct Hi as [Hi|(_ & _ & Hi)]; congruence). subst i.
    pose proof (configure_info (before_configure model []) model) as [Hinfo _].
    destruct wa as [| |provided].
    2: { inversion H; subst. exact Hinfo. }
    all: apply get_weak_model_OK in H; destruct H as (_ & _ & _ & H & _);
      rewrite H; exact Hinfo.
  - apply init_OK in H. destruct H as (i & out' & Hi & H).
    assert (i = []) by (destruct Hi as [Hi|(_ & _ & Hi)]; congruence). subst i.
    pose proof (configure_info (before_configure model []) model) as [_ Htok].
    destruct wa as [| |provided].
    2: { inversion H; subst. exact Htok. }
    all: apply get_weak_model_OK in H; destruct H as (_ & _ & _ & _ & H & _);
      rewrite H; exact Htok.
  - rewrite init_unfold, Hc, Hf. eexists. cbn. reflexivity.
Qed.


(** The constructor's own environment check raises exactly when
    validation is requested and a key is missing, and the message lists
    every missing key in order. *)
Lemma environment_check_raises (model : string) (ve : bool) (e : exn) :
  snd (check_environment litellm_validate_environment model ve) = Raise e <->
  ve = true /\ missing_keys (litellm_validate_environment model) <> [] /\
  e = ModelEnvironmentError
        (environment_message model (missing_keys (litellm_validate_environment model))).
Proof.
  destruct (check_env_cases model ve)
    as [(Hv & Hm & Hc)|([Hv|Hm] & out & Hc)]; rewrite Hc; cbn [snd]; split.
  - intros H. inversion H. auto.
  - intros (_ & _ & ->). reflexivity.
  - discriminate.
  - intros (H & _). congruence.
  - discriminate.
  - intros (_ & H & _). congruence.
Qed.

(** Without a weak model to construct, [ModelEnvironmentError] comes from
    that check alone. *)
Lemma environment_error_without_weak_model (depth : nat) (model : string) (rmi ve : bool) :
  (exists msg, snd (init (S depth) model ArgFalse rmi ve)
               = Raise (ModelEnvironmentError msg)) <->
  ve = true /\ missing_keys (litellm_validate_environment model) <> [].
Proof.
  split.
  - intros (msg & H). apply init_Raise in H.
    destruct H as [(H1 & H2 & _)|[(_ & _ & H)|[(H & _)|(H & _)]]];
      [auto|discriminate|discriminate|].
    exfalso. apply H. reflexivity.
  - intros (Hv & Hm).
    destruct (check_env_cases model ve)
      as [(_ & _ & Hc)|([Hv'|Hm'] & _)]; try congruence.
    eexists. rewrite init_unfold, Hc. reflexivity.
Qed.

End ResolverFacts.

Lemma weak_model_resolution_witness :
  weak_model_name gpt4_0613_turbo_profile = Some "gpt-4-turbo" /\
  exists outB B,
    Model_init keys_present any_model_info [] no_close_matches
      1 "gpt-4-turbo" ArgFalse true true = (outB, OK B) /\
    weak_model gpt4_0613_turbo_profile = WeakModel B.
Proof.
  exact (weak_model_resolution keys_present any_model_info [] no_close_matches
           1 "gpt-4-0613" (ArgName "gpt-4-turbo") true true [] gpt4_0613_turbo_profile
           eq_refl).
Defined.

(** C4, the claim as it stands: "gpt-4-0613" constructed with the empty
    string as weak-model name.  The empty name does not override the
    configured "gpt-3.5-turbo", and the weak model is a profile of its own,
    not the profile itself. *)
Lemma empty_weak_model_name_kept :
  Model_init keys_present any_model_info [] no_close_matches
    2 "gpt-4-0613" (ArgName "") true true = ([], OK gpt4_0613_profile) /\
  weak_model_name gpt4_0613_profile = Some "gpt-3.5-turbo" /\
  weak_model_name gpt4_0613_profile <> Some "" /\
  weak_model gpt4_0613_profile = WeakModel gpt35_profile /\
  weak_model gpt4_0613_profile <> WeakSelf.
Proof.
  split; [vm_compute; reflexivity|]. split; [reflexivity|].
  split; [discriminate|]. split; [reflexivity|discriminate].
Qed.

Lemma weak_model_depth_one_witness :
  weak_model gpt35_profile = WeakNone /\ weak_model_name gpt35_profile = None.
Proof.
  exact (proj2 (proj2 (weak_model_depth_one keys_present any_model_info []
                         no_close_matches))
           2%nat "gpt-4-0613" ArgNone true true [] gpt4_0613_profile gpt35_profile
           eq_refl eq_refl).
Defined.

Lemma default_rule_never_fires_witness :
  edit_format mistral_profile = "whole" /\ use_repo_map mistral_profile = false.
Proof.
  exact (proj2 (proj2 (default_rule_never_fires keys_present any_model_info []
                         no_close_matches))
           2%nat "mistral-7b" ArgNone true true [] mistral_profile eq_refl eq_refl).
Defined.

Lemma model_info_failure_translated_witness :
  snd (Model_init keys_present no_model_info [] no_close_matches
         1 "no-such-model" ArgNone true true)
  = Raise (NoModelInfo "Unknown model no-such-model").
Proof.
  exact (proj1 (model_info_failure_translated keys_present no_model_info []
                  no_close_matches 0 "no-such-model" ArgNone true
                  eq_refl (or_intror eq_refl))).
Defined.

(** C6.  With no key in the environment and [litellm_validate_environment=False],
    constructing "gpt-4-0613" still raises [ModelEnvironmentError]: the weak
    model "gpt-3.5-turbo" is constructed with validation on. *)
Theorem environment_error_from_weak_model :
  snd (Model_init no_keys_environment any_model_info [] no_close_matches
         2 "gpt-4-0613" ArgNone true false)
  = Raise (ModelEnvironmentError
             "To use model gpt-3.5-turbo, please set these environment variables:- OPENAI_API_KEY").
Proof. vm_compute. reflexivity. Qed.

Lemma filter_none {A : Type} (f : A -> bool) (l : list A) :
  (forall x, In x l -> f x = false) -> filter f l = [].
Proof.
  induction l as [|k l IH]; intros H; [reflexivity|].
  cbn [filter]. rewrite (H k (or_introl eq_refl)). apply IH.
  intros x Hx. apply H. right. exact Hx.
Qed.

Section Suggestions.

Variable model_cost : list string.
Variable get_close_matches : string -> list string -> nat -> Q -> list string.
(** The similarity ratio of [difflib.SequenceMatcher]. *)
Variable ratio : string -> string -> Q.

(** What [difflib.get_close_matches] promises: at most [n] of the
    possibilities, each at least [cutoff]-similar to the word, best first. *)
Hypothesis get_close_matches_spec :
  forall word possibilities n cutoff,
    let r := get_close_matches word possibilities n cutoff in
    (List.length r <= n)%nat /\
    (forall x, In x r -> In x possibilities /\ (cutoff <= ratio x word)%Q) /\
    StronglySorted (fun x y => (ratio y word <= ratio x word)%Q) r.

Local Abbreviation fuzzy := (fuzzy_match_models model_cost get_close_matches).

Lemma exact_key_iff (name : string) :
  existsb (String.eqb name) model_cost = true <-> In name model_cost.
Proof.
  rewrite existsb_exists. split.
  - intros (x & Hin & He). apply String.eqb_eq in He. subst. exact Hin.
  - intros H. exists name. split; [exact H|apply String.eqb_refl].
Qed.

(** C8.  [fuzzy_match_models]: an exact catalog key gives exactly that
    name; otherwise the keys that contain the name, in catalog order;
    otherwise at most three keys of similarity at least 0.8, best first.
    "gpt4", when no catalog key contains it, takes the last branch. *)
Theorem fuzzy_match_models_spec :
  (forall name, In name model_cost -> fuzzy name = [name]) /\
  (forall name, ~ In name model_cost ->
                filter (contains name) model_cost <> [] ->
                fuzzy name = filter (contains name) model_cost) /\
  (forall name, ~ In name model_cost ->
                filter (contains name) model_cost = [] ->
                fuzzy name = get_close_matches name model_cost 3%nat (8 # 10)%Q /\
                (List.length (fuzzy name) <= 3)%nat /\
                (forall x, In x (fuzzy name) ->
                           In x model_cost /\ (8 # 10 <= ratio x name)%Q) /\
                StronglySorted (fun x y => (ratio y name <= ratio x name)%Q) (fuzzy name)) /\
  ((forall key, In key model_cost -> contains "gpt4" key = false) ->
   fuzzy "gpt4" = get_close_matches "gpt4" model_cost 3%nat (8 # 10)%Q /\
   (List.length (fuzzy "gpt4") <= 3)%nat).
Proof.
  assert (Hexact : forall name, ~ In name model_cost ->
                                existsb (String.eqb name) model_cost = false).
  { intros name H. destruct (existsb _ model_cost) eqn:E; [|reflexivity].
    apply exact_key_iff in E. contradiction. }
  assert (Hunf : forall name,
             fuzzy name =
             if existsb (String.eqb name) model_cost then [name]
             else match filter (contains name) model_cost with
                  | [] => get_close_matches name model_cost 3%nat (8 # 10)%Q
                  | _ :: _ => filter (contains name) model_cost
                  end) by reflexivity.
  assert (H3 : forall name, ~ In name model_cost ->
                filter (contains name) model_cost = [] ->
                fuzzy name = get_close_matches name model_cost 3%nat (8 # 10)%Q).
  { intros name Hn Hf. rewrite Hunf, (Hexact name Hn), Hf. reflexivity. }
  assert (Hnone : (forall key, In key model_cost -> contains "gpt4" key = false) ->
                  ~ In "gpt4" model_cost /\ filter (contains "gpt4") model_cost = []).
  { intros H. split.
    - intros Hin. apply H in Hin. vm_compute in Hin. discriminate.
    - apply filter_none. exact H. }
  split; [|split; [|split]].
  - intros name Hin. rewrite Hunf.
    apply exact_key_iff in Hin. rewrite Hin. reflexivity.
  - intros name Hn Hf. rewrite Hunf, (Hexact name Hn).
    destruct (filter (contains name) model_cost); [contradiction|reflexivity].
  - intros name Hn Hf. rewrite (H3 name Hn Hf).
    split; [reflexivity|].
    destruct (get_close_matches_spec name model_cost 3%nat (8 # 10)%Q) as (L & I & S).
    auto.
  - intros H. destruct (Hnone H) as [Hn Hf]. rewrite (H3 "gpt4" Hn Hf).
    split; [reflexivity|].
    apply (get_close_matches_spec "gpt4" model_cost 3%nat (8 # 10)%Q).
Qed.

End Suggestions.

(** The flat matcher keeps the promise of [get_close_matches]. *)
Lemma flat_close_matches_spec :
  forall word possibilities n cutoff,
    let r := flat_close_matches word possibilities n cutoff in
    (List.length r <= n)%nat /\
    (forall x, In x r -> In x possibilities /\ (cutoff <= flat_ratio x word)%Q) /\
    StronglySorted (fun x y => (flat_ratio y word <= flat_ratio x word)%Q) r.
Proof.
  intros word possibilities n cutoff. unfold flat_close_matches, flat_ratio. cbv zeta.
  assert (Hs : forall l : list string,
             StronglySorted (fun _ _ : string => (1 <= 1)%Q) l).
  { induction l as [|x l IH]; constructor; [exact IH|].
    apply Forall_forall. intros y _. apply Qle_refl. }
  destruct (Qle_bool cutoff 1) eqn:E.
  - split; [apply firstn_le_length|]. split; [|apply Hs].
    intros x Hx. split.
    + rewrite <- (firstn_skipn n possibilities). apply in_or_app. left. exact Hx.
    + apply Qle_bool_iff. exact E.
  - split; [cbn; lia|]. split; [intros x []|constructor].
Qed.

Lemma fuzzy_match_models_spec_witness :
  fuzzy_match_models small_catalog flat_close_matches "gpt4"
  = flat_close_matches "gpt4" small_catalog 3%nat (8 # 10)%Q /\
  (List.length (fuzzy_match_models small_catalog flat_close_matches "gpt4") <= 3)%nat.
Proof.
  apply (proj2 (proj2 (proj2 (fuzzy_match_models_spec small_catalog flat_close_matches
                                flat_ratio flat_close_matches_spec)))).
  intros key [<-|[<-|[]]]; reflexivity.
Defined.

(** "gpt4" against a catalog that has the key "gpt-4" and no key "gpt4", but
    keys that contain "gpt4": the substring branch answers, with four names. *)
Lemma fuzzy_gpt4_substring_counterexample :
  In "gpt-4" gpt4_catalog /\
  ~ In "gpt4" gpt4_catalog /\
  fuzzy_match_models gpt4_catalog flat_close_matches "gpt4"
  = ["gpt4-a"; "gpt4-b"; "gpt4-c"; "gpt4-d"] /\
  fuzzy_match_models gpt4_catalog flat_close_matches "gpt4"
  <> flat_close_matches "gpt4" gpt4_catalog 3%nat (8 # 10)%Q /\
  ~ (List.length (fuzzy_match_models gpt4_catalog flat_close_matches "gpt4") <= 3)%nat.
Proof.
  split; [left; reflexivity|]. split.
  { intros H. cbn in H. repeat destruct H as [H|H]; try discriminate. exact H. }
  split; [reflexivity|]. split; [discriminate|].
  cbn. lia.
Qed.

Local Close Scope string_scope.

(** ** Further properties of the image cost *)

(** Rounding a non-negative mantissa never gives NaN. *)
Lemma binary_round_aux_cases (sx : bool) (m e : Z) (l : location) :
  0 <= m ->
  match binary_round_aux prec emax sx m e l with
  | S754_nan => False
  | _ => True
  end.
Proof.
  intros Hm. destruct (binary_round_aux_spec sx m e l Hm) as (m1 & _ & _ & Hr).
  destruct Hr as [[_ ->]|(m2 & e2 & _ & _ & ->)]; [exact I|].
  destruct (e2 <=? emax - prec); exact I.
Qed.

Lemma int_truediv_regular (a b : Z) (f : float) : int_truediv a b = OK f -> regular f.
Proof.
  unfold int_truediv. destruct (Z.eqb_spec b 0) as [|Hb]; [discriminate|].
  destruct (SFdiv_core_binary prec emax (Z.abs a) 0 (Z.abs b) 0) as [[mz ez] lz] eqn:E.
  assert (Hmz : 0 <= mz).
  { unfold SFdiv_core_binary in E.
    set (s := 0 - 0 - _) in E.
    set (m' := match s with
               | Z0 => Z.abs a
               | Zpos _ => Z.shiftl (Z.abs a) s
               | Zneg _ => 0
               end) in E.
    assert (Hm' : 0 <= m').
    { unfold m'. destruct s; try lia. apply Z.shiftl_nonneg. lia. }
    assert (Hq : 0 <= m' / Z.abs b) by (apply Z.div_pos; lia).
    unfold Z.div in Hq.
    destruct (Z.div_eucl m' (Z.abs b)) as [q r]. inversion E; subst. exact Hq. }
  pose proof (binary_round_aux_cases (xorb (a <? 0) (b <? 0)) mz ez lz Hmz) as Hc.
  destruct (binary_round_aux _ _ _ _ _ _) as [sg|sg| |sg mf ef];
    intros H; inversion H; subst; try exact I. contradiction.
Qed.

Lemma int_truediv_raises (a b : Z) (e : exn) :
  b <> 0 -> int_truediv a b = Raise e -> e = OverflowError.
Proof.
  intros Hb. unfold int_truediv. destruct (Z.eqb_spec b 0) as [|_]; [contradiction|].
  destruct (SFdiv_core_binary prec emax (Z.abs a) 0 (Z.abs b) 0) as [[mz ez] lz].
  destruct (binary_round_aux _ _ _ _ _ _); intros H; inversion H; reflexivity.
Qed.

Lemma float_of_int_regular (z : Z) (f : float) : float_of_int z = OK f -> regular f.
Proof.
  unfold float_of_int, binary_normalize.
  assert (H : forall sx m, match binary_round prec emax sx m 0 with
                           | S754_nan => False
                           | _ => True
                           end).
  { intros sx m. unfold binary_round.
    destruct (shl_align m 0 _) as [mz ez].
    apply binary_round_aux_cases. lia. }
  destruct z as [|p|p].
  - intros E. inversion E. exact I.
  - specialize (H false p). destruct (binary_round prec emax false p 0);
      intros E; inversion E; subst; try exact I. contradiction.
  - specialize (H true p). destruct (binary_round prec emax true p 0);
      intros E; inversion E; subst; try exact I. contradiction.
Qed.

Lemma float_of_int_raises (z : Z) (e : exn) : float_of_int z = Raise e -> e = OverflowError.
Proof.
  unfold float_of_int. destruct (binary_normalize _ _ _ _ _); intros H; inversion H; reflexivity.
Qed.

Lemma SFmul_cases (x y : float) :
  regular x -> regular y ->
  match SFmul prec emax x y with
  | S754_nan => False
  | _ => True
  end.
Proof.
  destruct x as [sx|sx| |sx mx ex]; try contradiction; intros _;
    destruct y as [sy|sy| |sy my ey]; try contradiction; intros _; try exact I.
  cbn [SFmul]. apply binary_round_aux_cases. lia.
Qed.

(** Scaling a side fails with [OverflowError] only. *)
Lemma scaled_side_raises (d : Z) (s : float) (e : exn) :
  regular s ->
  (p <- int_mul_float d s ;; int_of_float p) = Raise e -> e = OverflowError.
Proof.
  intros Hs. unfold int_mul_float.
  destruct (float_of_int d) as [fd|e'] eqn:E; cbn [bind].
  - pose proof (SFmul_cases fd s (float_of_int_regular d fd E) Hs) as Hc.
    destruct (SFmul prec emax fd s); cbn [int_of_float]; intros H; inversion H;
      try reflexivity. contradiction.
  - intros H. inversion H; subst. exact (float_of_int_raises d e E).
Qed.

(** Counting the tiles of a side fails with [OverflowError] only. *)
Lemma tiles_raises (z : Z) (e : exn) :
  (q <- int_truediv z 512 ;; math_ceil q) = Raise e -> e = OverflowError.
Proof.
  destruct (int_truediv z 512) as [q|e'] eqn:E; cbn [bind].
  - pose proof (int_truediv_regular z 512 q E) as Hq.
    destruct q as [sg|sg| |[] m ex]; try contradiction; cbn [math_ceil]; discriminate.
  - intros H. inversion H; subst. apply (int_truediv_raises z 512); [lia|exact E].
Qed.

(** Two computations that can only fail alike may be run in either order. *)
Lemma bind_swap {A B C : Type} (a : result A) (b : result B) (k : A -> B -> result C) :
  (forall e1 e2, a = Raise e1 -> b = Raise e2 -> e1 = e2) ->
  (x <- a ;; y <- b ;; k x y) = (y <- b ;; x <- a ;; k x y).
Proof.
  intros H. destruct a as [x|e1], b as [y|e2]; cbn [bind]; try reflexivity.
  rewrite (H e1 e2); reflexivity.
Qed.

Lemma token_count_unfold (width height : Z) :
  token_count_for_image width height =
  (wh <- (if 2048 <? Z.max width height then
            scale_factor <- int_truediv 2048 (Z.max width height) ;;
            width' <- (p <- int_mul_float width scale_factor ;; int_of_float p) ;;
            height' <- (p <- int_mul_float height scale_factor ;; int_of_float p) ;;
            OK (width', height')
          else OK (width, height)) ;;
   tile_cost (fst wh) (snd wh)).
Proof.
  unfold token_count_for_image.
  destruct (if 2048 <? Z.max width height then _ else _) as [[w1 h1]|e]; reflexivity.
Qed.

Lemma tile_cost_symmetric (width height : Z) :
  tile_cost width height = tile_cost height width.
Proof.
  unfold tile_cost. rewrite (Z.min_comm height width).
  destruct (int_truediv 768 (Z.min width height)) as [s|e] eqn:Es; [|reflexivity].
  cbn [bind]. pose proof (int_truediv_regular _ _ _ Es) as Hs.
  rewrite bind_swap.
  2: { intros e1 e2 H1 H2. apply scaled_side_raises in H1, H2; congruence. }
  destruct (p <- int_mul_float height s;; int_of_float p) as [h2|e]; [|reflexivity].
  destruct (p <- int_mul_float width s;; int_of_float p) as [w2|e]; [|reflexivity].
  cbn [bind]. rewrite bind_swap.
  2: { intros e1 e2 H1 H2. apply tiles_raises in H1, H2; congruence. }
  destruct (q <- int_truediv h2 512;; math_ceil q) as [th|e]; [|reflexivity].
  destruct (q <- int_truediv w2 512;; math_ceil q) as [tw|e]; [|reflexivity].
  cbn [bind]. f_equal. ring.
Qed.

(** X1.  The cost does not depend on the orientation of the image: for all
    integers, swapping width and height gives the same result, the same
    exception included. *)
Theorem token_count_symmetric (width height : Z) :
  token_count_for_image width height = token_count_for_image height width.
Proof.
  rewrite !token_count_unfold. rewrite (Z.max_comm height width).
  destruct (2048 <? Z.max width height).
  - destruct (int_truediv 2048 (Z.max width height)) as [s|e] eqn:Es; [|reflexivity].
    cbn [bind]. pose proof (int_truediv_regular _ _ _ Es) as Hs.
    destruct (p <- int_mul_float width s;; int_of_float p) as [w1|e1] eqn:Ew;
      destruct (p <- int_mul_float height s;; int_of_float p) as [h1|e2] eqn:Eh;
      cbn [bind fst snd]; try reflexivity.
    + apply tile_cost_symmetric.
    + apply scaled_side_raises in Ew, Eh; congruence.
  - cbn [bind fst snd]. apply tile_cost_symmetric.
Qed.

(** The exact formula on sides of at most 2048: the short side takes two
    tiles, the long side as many as the aspect ratio asks for. *)
Lemma image_token_cost_closed (width height : Z) :
  1 <= width -> 1 <= height -> Z.max width height <= 2048 ->
  image_token_cost width height =
  Some (340 * ceil_div (768 * Z.max width height / Z.min width height) 512 + 85).
Proof.
  intros Hw Hh Hm. unfold image_token_cost.
  replace (2048 <? Z.max width height) with false by (symmetry; apply Z.ltb_ge; lia).
  cbv zeta iota beta.
  replace (Z.min width height =? 0) with false by (symmetry; apply Z.eqb_neq; lia).
  f_equal.
  assert (E2 : forall a, 1 <= a -> ceil_div (a * 768 / a) 512 = 2).
  { intros a Ha. rewrite Z.mul_comm, Z.div_mul by lia. reflexivity. }
  destruct (Z_le_gt_dec width height) as [Hle|Hgt].
  - rewrite Z.min_l, Z.max_r by lia. rewrite (E2 width Hw), (Z.mul_comm 768 height). ring.
  - rewrite Z.min_r, Z.max_l by lia. rewrite (E2 height Hh), (Z.mul_comm 768 width). ring.
Qed.

Lemma token_count_closed (width height : Z) :
  1 <= width -> 1 <= height -> Z.max width height <= 2048 ->
  token_count_for_image width height =
  OK (340 * ceil_div (768 * Z.max width height / Z.min width height) 512 + 85).
Proof.
  intros Hw Hh Hm.
  destruct (token_count_within_2048 width height ltac:(lia) ltac:(lia)) as (c & Hc & ->).
  rewrite image_token_cost_closed in Hc by assumption. congruence.
Qed.

(** X2.  Within 2048 x 2048 the cost depends on the aspect ratio alone:
    enlarging both sides by the same integer factor leaves it unchanged. *)
Theorem token_count_scale_invariant (k width height : Z) :
  1 <= k -> 1 <= width -> 1 <= height ->
  k * width <= 2048 -> k * height <= 2048 ->
  token_count_for_image (k * width) (k * height) = token_count_for_image width height.
Proof.
  intros Hk Hw Hh Hkw Hkh.
  rewrite (token_count_closed (k * width) (k * height)) by nia.
  rewrite (token_count_closed width height) by nia.
  rewrite Z.mul_max_distr_nonneg_l, Z.mul_min_distr_nonneg_l by lia.
  rewrite (Z.mul_comm 768 (k * _)), <- Z.mul_assoc, Z.div_mul_cancel_l by lia.
  rewrite (Z.mul_comm _ 768). reflexivity.
Qed.

(** X3.  A square image of any decoder size costs 765 tokens. *)
Theorem token_count_square (n : Z) :
  1 <= n < 2 ^ 31 -> token_count_for_image n n = OK 765.
Proof.
  intros Hn. destruct (Z_le_gt_dec n 2048) as [Hle|Hgt].
  - rewrite token_count_closed by lia.
    rewrite Z.max_id, Z.min_id, Z.div_mul by lia. reflexivity.
  - destruct (token_count_downscaled n n Hn Hn ltac:(lia))
      as (w1 & h1 & Hw1 & Hh1 & _ & _ & ->).
    rewrite Z.max_id in Hw1, Hh1. unfold near_quotient in Hw1, Hh1.
    rewrite Z.div_mul in Hw1, Hh1 by lia.
    destruct Hw1 as [->|[_ ->]], Hh1 as [->|[_ ->]]; vm_compute; reflexivity.
Qed.

Lemma ceil_div_bounds (z : Z) : 768 <= z <= 1572864 -> 2 <= ceil_div z 512 <= 3072.
Proof.
  intros Hz. unfold ceil_div.
  assert (- 3072 <= - z / 512) by (apply Z.div_le_lower_bound; lia).
  assert (- z / 512 < -1) by (apply Z.div_lt_upper_bound; lia).
  lia.
Qed.

(** The sides steps 2 to 4 work on. *)
Lemma token_count_reduced (width height : Z) :
  1 <= width < 2 ^ 31 -> 1 <= height < 2 ^ 31 ->
  exists w1 h1,
    0 <= w1 <= 2048 /\ 0 <= h1 <= 2048 /\
    (Z.max width height <= 2048 -> w1 = width /\ h1 = height) /\
    (2048 < Z.max width height ->
     near_quotient w1 (2048 * width) (Z.max width height) /\
     near_quotient h1 (2048 * height) (Z.max width height)) /\
    token_count_for_image width height = token_count_for_image w1 h1.
Proof.
  intros Hw Hh. destruct (Z_le_gt_dec (Z.max width height) 2048) as [Hle|Hgt].
  - exists width, height. repeat split; try lia.
  - destruct (token_count_downscaled width height Hw Hh ltac:(lia))
      as (w1 & h1 & Hw1 & Hh1 & Bw & Bh & E).
    exists w1, h1. repeat split; try lia; assumption.
Qed.

(** X4.  The short side always takes exactly two tiles: every cost is
    [340 * k + 85] with [k] between 2 and 3072, so at most 1044565. *)
Theorem token_count_two_rows (width height cost : Z) :
  1 <= width < 2 ^ 31 -> 1 <= height < 2 ^ 31 ->
  token_count_for_image width height = OK cost ->
  exists k, 2 <= k <= 3072 /\ cost = 340 * k + 85.
Proof.
  intros Hw Hh H.
  destruct (token_count_reduced width height Hw Hh) as (w1 & h1 & Bw & Bh & _ & _ & E).
  rewrite E in H.
  destruct (Z.eq_dec (Z.min w1 h1) 0) as [H0|H0].
  { destruct (token_count_zero_side w1 h1 Bw Bh H0) as [E0 _]. congruence. }
  clear Hw Hh E.
  assert (A1 : 1 <= w1) by lia. assert (A2 : 1 <= h1) by lia.
  assert (A3 : Z.max w1 h1 <= 2048) by lia.
  rewrite (token_count_closed w1 h1 A1 A2 A3) in H.
  exists (ceil_div (768 * Z.max w1 h1 / Z.min w1 h1) 512). split; [|congruence].
  assert (B : 1 <= Z.min w1 h1 <= Z.max w1 h1 /\ Z.max w1 h1 <= 2048) by lia.
  destruct B as [B1 B2]. apply ceil_div_bounds. split.
  - apply Z.div_le_lower_bound; lia.
  - apply Z.div_le_upper_bound; nia.
Qed.

(** X5.  An image more than 2048 times as long as it is wide (or the other
    way round) has no cost: the call raises [ZeroDivisionError]. *)
Theorem token_count_thin_image (width height : Z) :
  1 <= width < 2 ^ 31 -> 1 <= height < 2 ^ 31 ->
  2048 * Z.min width height < Z.max width height ->
  token_count_for_image width height = Raise ZeroDivisionError.
Proof.
  intros Hw Hh Hr.
  destruct (token_count_downscaled width height Hw Hh ltac:(lia))
    as (w1 & h1 & Hw1 & Hh1 & Bw & Bh & ->).
  apply token_count_zero_side; try assumption.
  assert (Hz : forall d z, 1 <= d -> 2048 * d < Z.max width height ->
                           near_quotient z (2048 * d) (Z.max width height) -> z = 0).
  { intros d z Hd Hlt [->|[Hmod _]].
    - apply Z.div_small. lia.
    - rewrite Z.mod_small in Hmod by lia. lia. }
  destruct (Z_le_gt_dec width height) as [Hle|Hgt].
  - rewrite Z.min_l in Hr by lia. rewrite (Hz width w1 ltac:(lia) Hr Hw1). lia.
  - rewrite Z.min_r in Hr by lia. rewrite (Hz height h1 ltac:(lia) Hr Hh1). lia.
Qed.

(** X6.  An image whose long side is at most 1024 times its short side
    always gets a cost. *)
Theorem token_count_returns (width height : Z) :
  1 <= width < 2 ^ 31 -> 1 <= height < 2 ^ 31 ->
  Z.max width height <= 1024 * Z.min width height ->
  exists cost, token_count_for_image width height = OK cost.
Proof.
  intros Hw Hh Hr.
  destruct (token_count_reduced width height Hw Hh) as (w1 & h1 & Bw & Bh & Hs & Hb & E).
  rewrite E.
  assert (H1 : 1 <= w1 /\ 1 <= h1).
  { destruct (Z_le_gt_dec (Z.max width height) 2048) as [Hle|Hgt]; [specialize (Hs Hle); lia|].
    destruct (Hb ltac:(lia)) as [Nw Nh].
    assert (Hq : forall d z, Z.min width height <= d ->
                             near_quotient z (2048 * d) (Z.max width height) -> 1 <= z).
    { intros d z Hd Hn.
      assert (2 <= 2048 * d / Z.max width height) by (apply Z.div_le_lower_bound; lia).
      destruct Hn as [->|[_ ->]]; lia. }
    split; [apply (Hq width)|apply (Hq height)]; try assumption; lia. }
  destruct (token_count_within_2048 w1 h1 ltac:(lia) ltac:(lia)) as (c & _ & Hc).
  exists c. exact Hc.
Qed.

(** X8.  A side of [2 ^ 1024] or more cannot be converted to a float: the
    call raises [OverflowError]. *)
Theorem token_count_overflow (width height : Z) :
  2 ^ 1024 <= Z.max width height ->
  token_count_for_image width height = Raise OverflowError.
Proof.
  intros Hm. rewrite token_count_unfold.
  assert (H2 : 2048 < 2 ^ 1024) by (vm_compute; reflexivity).
  replace (2048 <? Z.max width height) with true by (symmetry; apply Z.ltb_lt; lia).
  destruct (int_truediv 2048 (Z.max width height)) as [s|e] eqn:Es.
  2: { apply int_truediv_raises in Es; [subst; reflexivity|lia]. }
  cbn [bind]. pose proof (int_truediv_regular _ _ _ Es) as Hs.
  destruct (p <- int_mul_float width s;; int_of_float p) as [w1|e] eqn:Ew.
  2: { apply scaled_side_raises in Ew; [subst; reflexivity|exact Hs]. }
  destruct (p <- int_mul_float height s;; int_of_float p) as [h1|e] eqn:Eh.
  2: { apply scaled_side_raises in Eh; [subst; reflexivity|exact Hs]. }
  exfalso. unfold int_mul_float in Ew, Eh.
  destruct (Z_le_gt_dec width height) as [Hle|Hgt].
  - rewrite (float_of_int_overflow height) in Eh by lia. discriminate.
  - rewrite (float_of_int_overflow width) in Ew by lia. discriminate.
Qed.

Lemma token_count_scale_invariant_witness :
  token_count_for_image (2 * 320) (2 * 240) = token_count_for_image 320 240.
Proof. apply (token_count_scale_invariant 2 320 240); lia. Defined.

Lemma token_count_square_witness : token_count_for_image 4096 4096 = OK 765.
Proof. apply (token_count_square 4096). split; [lia|reflexivity]. Defined.

Lemma token_count_two_rows_witness :
  exists k, 2 <= k <= 3072 /\ 1044565 = 340 * k + 85.
Proof.
  apply (token_count_two_rows 1 2048 1044565);
    [split; [lia|reflexivity]|split; [lia|reflexivity]|vm_compute; reflexivity].
Defined.

Lemma token_count_thin_image_witness :
  token_count_for_image 3 10000 = Raise ZeroDivisionError.
Proof.
  apply (token_count_thin_image 3 10000);
    [split; [lia|reflexivity]|split; [lia|reflexivity]|reflexivity].
Defined.

Lemma token_count_returns_witness :
  exists cost, token_count_for_image 4000 3000 = OK cost.
Proof.
  apply (token_count_returns 4000 3000);
    [split; [lia|reflexivity]|split; [lia|reflexivity]|lia].
Defined.

Lemma token_count_fails_by_zero_side_witness :
  ZeroDivisionError = ZeroDivisionError /\ 2048 < Z.max 3 10000.
Proof.
  apply (token_count_fails_by_zero_side 3 10000 ZeroDivisionError);
    [split; [lia|reflexivity]|split; [lia|reflexivity]|vm_compute; reflexivity].
Defined.

Lemma token_count_overflow_witness :
  token_count_for_image (2 ^ 1024) 1 = Raise OverflowError.
Proof. apply (token_count_overflow (2 ^ 1024) 1). vm_compute. discriminate. Defined.

Local Open Scope string_scope.

(** ** Further properties of construction *)


Lemma get_weak_model_shape
    (f : string -> weak_arg -> bool -> bool -> io Model)
    (self : Model) (wa : weak_arg) (rmi : bool) (out : list string) (m : Model) :
  get_weak_model f self wa rmi = (out, OK m) ->
  exists n w,
    m = set_weak_model (set_weak_model_name self n) w /\
    match w with
    | WeakNone => False
    | WeakSelf => out = []
    | WeakModel B =>
        exists wname, n = Some wname /\ wname <> name self /\
                      f wname ArgFalse rmi true = (out, OK B)
    end.
Proof.
  unfold get_weak_model.
  assert (Hgen : forall self' : Model,
             name self' = name self ->
             self' = set_weak_model_name self (weak_model_name self') ->
             match weak_model_name self' with
             | Some wname =>
                 if wname =? "" then io_ret (set_weak_model self' WeakSelf)
                 else if wname =? name self' then io_ret (set_weak_model self' WeakSelf)
                 else weak <-- f wname ArgFalse rmi true ;;
                      io_ret (set_weak_model self' (WeakModel weak))
             | None => io_ret (set_weak_model self' WeakSelf)
             end = (out, OK m) ->
             exists n w,
               m = set_weak_model (set_weak_model_name self n) w /\
               match w with
               | WeakNone => False
               | WeakSelf => out = []
               | WeakModel B =>
                   exists wname, n = Some wname /\ wname <> name self /\
                                 f wname ArgFalse rmi true = (out, OK B)
               end).
  { intros self' Hn Hs H. rewrite Hn in H.
    assert (Hret : forall w, io_ret (set_weak_model self' w) = (out, OK m) ->
                             out = [] /\ m = set_weak_model self' w)
      by (intros w Hw; inversion Hw; auto).
    destruct (weak_model_name self') as [wname|].
    - destruct (wname =? "") eqn:E1.
      + apply Hret in H. destruct H as [-> ->].
        exists (Some wname), WeakSelf. rewrite Hs at 1. auto.
      + destruct (wname =? name self) eqn:E2.
        * apply Hret in H. destruct H as [-> ->].
          exists (Some wname), WeakSelf. rewrite Hs at 1. auto.
        * apply io_bind_OK in H. destruct H as (o1 & B & o2 & HB & H & ->).
          assert (o2 = [] /\ m = set_weak_model self' (WeakModel B)) as [-> ->]
            by (inversion H; auto).
          rewrite app_nil_r.
          exists (Some wname), (WeakModel B). rewrite Hs at 1. split; [reflexivity|].
          exists wname. apply String.eqb_neq in E2. auto.
    - apply Hret in H. destruct H as [-> ->].
      exists None, WeakSelf. rewrite Hs at 1. auto. }
  destruct (provided_name wa) as [p|].
  - apply Hgen; reflexivity.
  - apply Hgen; [reflexivity|]. destruct self; reflexivity.
Qed.

Lemma before_configure_fields (model : string) (i : model_info) :
  before_configure model i =
  {| name := model; edit_format := "whole"; use_repo_map := false;
     send_undo_reply := false; accepts_images := false; weak_model_name := None;
     max_chat_history_tokens := history_tokens i;
     info := i; weak_model := WeakNone |}.
Proof. reflexivity. Qed.

Lemma after_configure_defaults (model : string) (i : model_info) :
  reaches_defaults model = true -> after_configure model i = before_configure model i.
Proof.
  intros H. unfold after_configure. rewrite configure_defaults by exact H. reflexivity.
Qed.

(** The settings every configured instance satisfies. *)
Lemma after_configure_settings (model : string) (i : model_info) :
  let c := after_configure model i in
  (edit_format c = "whole" \/ edit_format c = "diff" \/ edit_format c = "udiff") /\
  send_undo_reply c = use_repo_map c /\
  (edit_format c <> "whole" -> use_repo_map c = true) /\
  (accepts_images c = true -> use_repo_map c = true /\ edit_format c <> "whole").
Proof.
  cbv zeta. unfold after_configure, configure_model_settings.
  rewrite before_configure_fields.
  destruct (find _ MODEL_SETTINGS) as [ms|] eqn:E.
  - apply find_some in E. destruct E as [Hin _].
    cbn [copy_settings edit_format use_repo_map send_undo_reply accepts_images].
    cbn [MODEL_SETTINGS In] in Hin.
    repeat (destruct Hin as [<-|Hin];
            [cbn; repeat split; auto; try discriminate; try congruence|]).
    contradiction.
  - cbn [edit_format]. change ("whole" =? "diff") with false. cbv iota.
    repeat match goal with |- context [if ?b then _ else _] => destruct b end;
      cbn; repeat split; auto; try discriminate; try congruence.
Qed.

Lemma registry_weak_names (ms : ModelSettings) :
  In ms MODEL_SETTINGS ->
  match ms_weak_model_name ms with
  | Some w => w = ms_name ms \/ reaches_defaults w = true
  | None => True
  end.
Proof.
  intros H. cbn [MODEL_SETTINGS In] in H.
  repeat (destruct H as [<-|H];
          [cbn [ms_weak_model_name ms_name];
           first [left; reflexivity|right; vm_compute; reflexivity]|]).
  contradiction.
Qed.

Lemma unregistered_weak_model_name (model : string) :
  find (fun ms => model =? ms_name ms) MODEL_SETTINGS = None ->
  effective_weak_name model ArgNone = None.
Proof.
  intros H. unfold effective_weak_name, configured_weak_name, configure_model_settings.
  rewrite H.
  repeat match goal with |- context [if ?b then _ else _] => destruct b end; reflexivity.
Qed.

Lemma check_env_OK (report : string -> env_report) (model : string) (ve : bool)
    (out : list string) :
  check_environment report model ve = (out, OK tt) ->
  out = environment_warning (report model) model /\
  (ve = false \/ missing_keys (report model) = []).
Proof.
  unfold check_environment, environment_warning.
  destruct (missing_keys (report model)) as [|k ks].
  - destruct (keys_in_environment (report model)); cbn; intros H; inversion H; auto.
  - destruct ve; cbn; intros H; inversion H; auto.
Qed.

Lemma io_bind_snd {A B : Type} (c : io A) (k : A -> io B) (out : list string) (a : A) :
  c = (out, OK a) -> snd (io_bind c k) = snd (k a).
Proof. intros ->. unfold io_bind. destruct (k a) as [o r]. reflexivity. Qed.

(** When [get_weak_model] fails: the constructor of a weak model by another
    name did. *)
Lemma get_weak_model_Raise
    (f : string -> weak_arg -> bool -> bool -> io Model)
    (model : string) (i : model_info) (wa : weak_arg) (rmi : bool) (e : exn) :
  snd (get_weak_model f (after_configure model i) wa rmi) = Raise e <->
  exists wname, effective_weak_name model wa = Some wname /\ wname <> "" /\
                wname <> model /\ snd (f wname ArgFalse rmi true) = Raise e.
Proof.
  assert (Hname : name (after_configure model i) = model)
    by (apply configure_name; reflexivity).
  assert (Hwn : weak_model_name (after_configure model i)
                = weak_model_name (configure_model_settings (new_instance model) model))
    by (apply configure_weak_model_name; reflexivity).
  rewrite effective_weak_name_provided. unfold get_weak_model. rewrite <- Hwn.
  set (self' := match provided_name wa with
                | Some n => set_weak_model_name (after_configure model i) (Some n)
                | None => after_configure model i
                end).
  assert (Hn : name self' = model)
    by (unfold self'; destruct (provided_name wa); exact Hname).
  assert (Hw : weak_model_name self' =
               match provided_name wa with
               | Some n => Some n
               | None => weak_model_name (after_configure model i)
               end)
    by (unfold self'; destruct (provided_name wa); reflexivity).
  rewrite <- Hw. clearbody self'.
  destruct (weak_model_name self') as [wname|].
  2: { split; [discriminate|intros (w & H & _); discriminate]. }
  destruct (wname =? "") eqn:E1.
  { split; [discriminate|]. intros (w & H & H1 & _). inversion H; subst w.
    apply String.eqb_eq in E1. contradiction. }
  rewrite Hn. destruct (wname =? model) eqn:E2.
  { split; [discriminate|]. intros (w & H & _ & H1 & _). inversion H; subst w.
    apply String.eqb_eq in E2. contradiction. }
  apply String.eqb_neq in E1, E2. split.
  - intros Hr. apply io_bind_Raise in Hr. destruct Hr as [Hr|(o & B & _ & Hr)];
      [|discriminate].
    exists wname. auto.
  - intros (w & H & _ & _ & Hr). inversion H; subst w.
    destruct (f wname ArgFalse rmi true) as [o [B|e']]; cbn in *; [discriminate|exact Hr].
Qed.

Section ConstructionFacts.

Variable litellm_validate_environment : string -> env_report.
Variable get_model_info : string -> option model_info.
Variable model_cost : list string.
Variable get_close_matches : string -> list string -> nat -> Q -> list string.

Local Abbreviation init :=
  (Model_init litellm_validate_environment get_model_info model_cost get_close_matches).
Local Abbreviation unknown :=
  (check_model_name model_cost get_close_matches).
Local Abbreviation missing model :=
  (missing_keys (litellm_validate_environment model)).
Local Abbreviation warning model :=
  (environment_warning (litellm_validate_environment model) model).

(** The profile a successful construction returns, and what it printed. *)
Lemma init_profile (depth : nat) (model : string) (wa : weak_arg) (rmi ve : bool)
    (out : list string) (m : Model) :
  init (S depth) model wa rmi ve = (out, OK m) ->
  exists i n w out',
    (get_model_info model = Some i \/
     (get_model_info model = None /\ rmi = false /\ i = [])) /\
    number (max_input_tokens i) = true /\
    (ve = false \/ missing model = []) /\
    m = set_weak_model (set_weak_model_name (after_configure model i) n) w /\
    out = (warning model ++ out')%list /\
    match w with
    | WeakNone => wa = ArgFalse /\ out' = []
    | WeakSelf => wa <> ArgFalse /\ out' = []
    | WeakModel B =>
        wa <> ArgFalse /\
        exists wname, n = Some wname /\ wname <> model /\
                      init depth wname ArgFalse rmi true = (out', OK B)
    end.
Proof.
  rewrite init_unfold. intros H.
  apply io_bind_OK in H. destruct H as (o1 & [] & o2 & Hc & H & ->).
  apply check_env_OK in Hc. destruct Hc as [-> Hve].
  apply io_bind_OK in H. destruct H as (o3 & i & o4' & Hf & H & ->).
  assert (Hi : (get_model_info model = Some i \/
                (get_model_info model = None /\ rmi = false /\ i = [])) /\ o3 = []).
  { destruct (fetch_cases get_model_info model_cost get_close_matches model rmi)
      as [(i' & Hg & Hf')|[(Hg & _ & Hf')|(Hg & Hr & Hf')]];
      rewrite Hf' in Hf; inversion Hf; subst; auto. }
  destruct Hi as [Hi ->]. cbn [app].
  apply io_bind_OK in H. destruct H as (o5 & [] & o4 & Hb & H & ->).
  assert (Hnum : number (max_input_tokens i) = true /\ o5 = []).
  { destruct (budget_cases i) as [(Hn & Hb')|(_ & Hb')]; rewrite Hb' in Hb;
      inversion Hb; auto. }
  destruct Hnum as [Hnum ->]. cbn [app].
  assert (Hname : name (after_configure model i) = model)
    by (apply configure_name; reflexivity).
  assert (Hwm : weak_model (after_configure model i) = WeakNone)
    by (unfold after_configure; rewrite configure_weak_model; reflexivity).
  assert (Hgen : wa <> ArgFalse ->
                 get_weak_model (init depth) (after_configure model i) wa rmi = (o4, OK m) ->
                 exists n w,
                   m = set_weak_model (set_weak_model_name (after_configure model i) n) w /\
                   match w with
                   | WeakNone => wa = ArgFalse /\ o4 = []
                   | WeakSelf => wa <> ArgFalse /\ o4 = []
                   | WeakModel B =>
                       wa <> ArgFalse /\
                       exists wname, n = Some wname /\ wname <> model /\
                                     init depth wname ArgFalse rmi true = (o4, OK B)
                   end).
  { intros Hwa Hg. apply get_weak_model_shape in Hg.
    destruct Hg as (n & w & Hm & Hw). exists n, w. split; [exact Hm|].
    rewrite Hname in Hw. destruct w as [| |B]; [contradiction|auto|auto]. }
  exists i.
  destruct wa as [| |provided].
  - destruct (Hgen ltac:(discriminate) H) as (n & w & Hm & Hw).
    exists n, w, o4. auto 6.
  - inversion H; subst o4 m. exists None, WeakNone, [].
    split; [exact Hi|]. split; [exact Hnum|]. split; [exact Hve|].
    split; [|auto].
    rewrite <- Hwm. destruct (after_configure model i); reflexivity.
  - destruct (Hgen ltac:(discriminate) H) as (n & w & Hm & Hw).
    exists n, w, o4. auto 6.
Qed.

(** X9.  [str(Model(x))] is [x]: a constructed profile goes by the name it
    was asked for, also when the registry entry's fields were copied over
    it. *)
Theorem construction_keeps_name
    (depth : nat) (model : string) (wa : weak_arg) (rmi ve : bool)
    (out : list string) (m : Model) :
  init depth model wa rmi ve = (out, OK m) -> Model_str m = model.
Proof.
  intros H. destruct depth as [|depth]; [discriminate|].
  apply init_profile in H. destruct H as (i & n & w & o & _ & _ & _ & -> & _).
  unfold Model_str. cbn [name set_weak_model set_weak_model_name].
  apply configure_name. reflexivity.
Qed.

(** X10.  The metadata of a constructed profile is what the provider
    answered (or the empty bag when the lookup failed and was not
    required); its [max_input_tokens] (0 when absent) is a number, and the
    chat-history budget is 1024 tokens when that number is below 32768,
    and 2048 otherwise. *)
Theorem construction_history_budget
    (depth : nat) (model : string) (wa : weak_arg) (rmi ve : bool)
    (out : list string) (m : Model) :
  init depth model wa rmi ve = (out, OK m) ->
  (get_model_info model = Some (info m) \/
   (get_model_info model = None /\ rmi = false /\ info m = [])) /\
  exists below : bool,
    value_lt_int (assoc_get "max_input_tokens" (info m) (VInt 0)) 32768 = OK below /\
    max_chat_history_tokens m = (if below then 1024 else 2048)%Z.
Proof.
  intros H. destruct depth as [|depth]; [discriminate|].
  apply init_profile in H. destruct H as (i & n & w & o & Hi & Hnum & _ & -> & _).
  cbn [info max_chat_history_tokens set_weak_model set_weak_model_name].
  unfold after_configure.
  destruct (configure_info (before_configure model i) model) as [-> ->].
  split; [exact Hi|].
  cbn [info max_chat_history_tokens before_configure set_info].
  unfold history_tokens. change (32 * 1024)%Z with 32768%Z.
  unfold max_input_tokens in *.
  destruct (value_lt_int (assoc_get "max_input_tokens" i (VInt 0)) 32768) as [below|e] eqn:E.
  - exists below. split; [reflexivity|]. destruct below; reflexivity.
  - unfold value_lt_int in E.
    destruct (assoc_get "max_input_tokens" i (VInt 0)); discriminate.
Qed.

(** X11.  Every constructed profile has one of the edit formats "whole",
    "diff" and "udiff"; [send_undo_reply] equals [use_repo_map]; a format
    other than "whole" comes with the repo map; and only profiles with the
    repo map and a diff format accept images. *)
Theorem construction_settings
    (depth : nat) (model : string) (wa : weak_arg) (rmi ve : bool)
    (out : list string) (m : Model) :
  init depth model wa rmi ve = (out, OK m) ->
  (edit_format m = "whole" \/ edit_format m = "diff" \/ edit_format m = "udiff") /\
  send_undo_reply m = use_repo_map m /\
  (edit_format m <> "whole" -> use_repo_map m = true) /\
  (accepts_images m = true -> use_repo_map m = true /\ edit_format m <> "whole").
Proof.
  intros H. destruct depth as [|depth]; [discriminate|].
  apply init_profile in H. destruct H as (i & n & w & o & _ & _ & _ & -> & _).
  exact (after_configure_settings model i).
Qed.

Lemma default_profile_settings
    (depth : nat) (model : string) (wa : weak_arg) (rmi ve : bool)
    (out : list string) (m : Model) :
  reaches_defaults model = true ->
  init depth model wa rmi ve = (out, OK m) ->
  edit_format m = "whole" /\ use_repo_map m = false /\
  send_undo_reply m = false /\ accepts_images m = false.
Proof.
  intros Hd H. destruct depth as [|depth]; [discriminate|].
  apply init_profile in H. destruct H as (i & n & w & o & _ & _ & _ & -> & _).
  rewrite after_configure_defaults by exact Hd. repeat split.
Qed.

(** X12.  When no weak model is passed in, the weak model a profile gets
    from the registry is a plain one: edit format "whole", no repo map, no
    undo reply, no images. *)
Theorem configured_weak_model_plain
    (depth : nat) (model : string) (rmi ve : bool)
    (out : list string) (m B : Model) :
  init depth model ArgNone rmi ve = (out, OK m) ->
  weak_model m = WeakModel B ->
  edit_format B = "whole" /\ use_repo_map B = false /\
  send_undo_reply B = false /\ accepts_images B = false.
Proof.
  intros H HB. destruct depth as [|depth]; [discriminate|].
  pose proof (init_weak_model _ _ _ _ _ _ _ _ _ _ _ H) as [_ Hres].
  destruct (find (fun ms => model =? ms_name ms) MODEL_SETTINGS) as [ms|] eqn:E.
  - pose proof E as E'. apply find_some in E'. destruct E' as [Hin Hname].
    apply String.eqb_eq in Hname.
    assert (Hw : effective_weak_name model ArgNone = ms_weak_model_name ms).
    { unfold effective_weak_name, configured_weak_name, configure_model_settings.
      rewrite E. reflexivity. }
    rewrite Hw in Hres. pose proof (registry_weak_names ms Hin) as Hreg.
    destruct (ms_weak_model_name ms) as [w|]; [|congruence].
    destruct Hreg as [->|Hd].
    + rewrite Hname, String.eqb_refl, orb_true_r in Hres. congruence.
    + destruct ((w =? "") || (w =? model)); [congruence|].
      destruct Hres as (outB & B' & HB' & Hm).
      assert (B' = B) by congruence. subst B'.
      exact (default_profile_settings _ _ _ _ _ _ _ Hd HB').
  - rewrite unregistered_weak_model_name in Hres by exact E. congruence.
Qed.

(** X13.  The registry is matched by the exact name only: a model that is
    not one of its names (a "provider/model" spelling included) has no
    weak-model name, is its own weak model and does not accept images. *)
Theorem unregistered_model_own_weak_model
    (depth : nat) (model : string) (rmi ve : bool) (out : list string) (m : Model) :
  ~ In model (map ms_name MODEL_SETTINGS) ->
  init depth model ArgNone rmi ve = (out, OK m) ->
  weak_model_name m = None /\ weak_model m = WeakSelf /\ accepts_images m = false.
Proof.
  intros Hn H. destruct depth as [|depth]; [discriminate|].
  assert (E : find (fun ms => model =? ms_name ms) MODEL_SETTINGS = None).
  { destruct (find _ MODEL_SETTINGS) as [ms|] eqn:E; [|reflexivity].
    apply find_some in E. destruct E as [Hin He]. apply String.eqb_eq in He.
    exfalso. apply Hn. rewrite He. apply in_map. exact Hin. }
  pose proof (init_weak_model _ _ _ _ _ _ _ _ _ _ _ H) as [Hwn Hres].
  rewrite unregistered_weak_model_name in Hwn, Hres by exact E.
  split; [exact Hwn|]. split; [exact Hres|].
  apply init_profile in H. destruct H as (i & n & w & o & _ & _ & _ & -> & _).
  cbn [accepts_images set_weak_model set_weak_model_name].
  unfold after_configure, configure_model_settings. rewrite E.
  rewrite before_configure_fields. cbn [edit_format].
  change ("whole" =? "diff") with false. cbv iota.
  repeat match goal with |- context [if ?b then _ else _] => destruct b end; reflexivity.
Qed.

(** X14.  [commit_message_models] holds one entry: [None] for a profile
    built with [weak_model=False], and otherwise a profile (the profile
    itself or its weak model) that goes by the effective weak-model name,
    or by the model's own name when there is none. *)
Theorem commit_message_models_spec
    (depth : nat) (model : string) (wa : weak_arg) (rmi ve : bool)
    (out : list string) (m : Model) :
  init depth model wa rmi ve = (out, OK m) ->
  match wa with
  | ArgFalse => commit_message_models m = [WeakNone]
  | _ => exists w c, commit_message_models m = [w] /\ referent m w = Some c /\
                     Model_str c = commit_model_name model wa
  end.
Proof.
  intros H. destruct depth as [|depth]; [discriminate|].
  pose proof (init_weak_model _ _ _ _ _ _ _ _ _ _ _ H) as Hres.
  assert (Hname : Model_str m = model).
  { apply init_profile in H. destruct H as (i & n & w & o & _ & _ & _ & -> & _).
    apply configure_name. reflexivity. }
  unfold commit_message_models, commit_model_name.
  assert (Hgen : wa <> ArgFalse ->
             match effective_weak_name model wa with
             | Some wname =>
                 if (wname =? "") || (wname =? model)
                 then weak_model m = WeakSelf
                 else exists outB B,
                     init depth wname ArgFalse rmi true = (outB, OK B) /\
                     weak_model m = WeakModel B
             | None => weak_model m = WeakSelf
             end ->
             exists w c, [weak_model m] = [w] /\ referent m w = Some c /\
                         Model_str c = match effective_weak_name model wa with
                                       | Some n => if n =? "" then model else n
                                       | None => model
                                       end).
  { intros _ Hr. destruct (effective_weak_name model wa) as [wname|].
    - destruct (wname =? "") eqn:E1; cbn [orb] in Hr.
      + exists WeakSelf, m. rewrite Hr. auto.
      + destruct (wname =? model) eqn:E2.
        * exists WeakSelf, m. rewrite Hr. apply String.eqb_eq in E2. subst wname. auto.
        * destruct Hr as (outB & B & HB & Hm). exists (WeakModel B), B. rewrite Hm.
          split; [reflexivity|]. split; [reflexivity|].
          destruct depth as [|depth]; [discriminate|].
          apply init_profile in HB. destruct HB as (i & n & w & o & _ & _ & _ & -> & _).
          apply configure_name. reflexivity.
    - exists WeakSelf, m. rewrite Hr. auto. }
  destruct wa as [| |provided].
  - apply Hgen; [discriminate|apply Hres].
  - destruct Hres as [_ ->]. reflexivity.
  - apply Hgen; [discriminate|apply Hres].
Qed.

(** X15.  What a successful construction prints: the "Unable to check
    environment variables" notice for the model, when its keys are reported
    neither missing nor present, and then the same for its weak model;
    nothing else. *)
Theorem construction_output
    (depth : nat) (model : string) (wa : weak_arg) (rmi ve : bool)
    (out : list string) (m : Model) :
  init depth model wa rmi ve = (out, OK m) ->
  out = (warning model ++
         match weak_model m with
         | WeakModel B => warning (Model_str B)
         | _ => []
         end)%list.
Proof.
  intros H. destruct depth as [|depth]; [discriminate|].
  apply init_profile in H. destruct H as (i & n & w & o & _ & _ & _ & -> & -> & Hw).
  f_equal. cbn [weak_model set_weak_model].
  destruct w as [| |B]; try (destruct Hw as [_ ->]; reflexivity).
  destruct Hw as (_ & wname & _ & _ & HB).
  destruct depth as [|depth]; [discriminate|].
  apply init_profile in HB. destruct HB as (i' & n' & w' & o' & _ & _ & _ & -> & -> & Hw').
  unfold Model_str. cbn [name set_weak_model set_weak_model_name].
  unfold after_configure.
  rewrite (configure_name (before_configure wname i') wname eq_refl).
  destruct w' as [| |B']; [destruct Hw' as [_ ->]; apply app_nil_r| |];
    destruct Hw' as [Hw' _]; contradiction Hw'; reflexivity.
Qed.

(** X16.  With [weak_model=False] the construction succeeds exactly when
    the environment check passes (no validation asked, or no key missing)
    and the metadata is there with a [max_input_tokens] that is a number
    (or absent), or is missing and not required. *)
Theorem construction_succeeds_iff
    (depth : nat) (model : string) (rmi ve : bool) :
  (exists (out : list string) (m : Model),
      init (S depth) model ArgFalse rmi ve = (out, OK m)) <->
  (ve = false \/ missing model = []) /\
  match get_model_info model with
  | Some i => number (max_input_tokens i) = true
  | None => rmi = false
  end.
Proof.
  split.
  - intros (out & m & H). apply init_profile in H.
    destruct H as (i & n & w & o & Hi & Hnum & Hve & _). split; [exact Hve|].
    destruct Hi as [->|(-> & Hr & _)]; assumption.
  - intros [Hve Hi]. rewrite init_unfold.
    destruct (check_env_cases litellm_validate_environment model ve)
      as [(Hv & Hm & _)|(_ & o1 & ->)]; [destruct Hve; congruence|].
    destruct (fetch_cases get_model_info model_cost get_close_matches model rmi)
      as [(i' & Hg & ->)|[(Hg & Hr & _)|(Hg & _ & ->)]].
    + rewrite Hg in Hi. unfold io_bind.
      destruct (budget_cases i') as [(_ & ->)|(Hn & _)]; [|congruence].
      cbn. eexists. eexists. reflexivity.
    + rewrite Hg in Hi. congruence.
    + unfold io_bind. rewrite budget_empty. cbn. eexists. eexists. reflexivity.
Qed.

(** Where an exception of a constructor without a weak model comes from. *)
Lemma init_Raise_own (depth : nat) (model : string) (rmi ve : bool) (e : exn) :
  snd (init (S depth) model ArgFalse rmi ve) = Raise e ->
  (ve = true /\ missing model <> [] /\
   e = ModelEnvironmentError (environment_message model (missing model)))
  \/ (rmi = true /\ get_model_info model = None /\ e = NoModelInfo (unknown model))
  \/ (e = TypeError /\
      exists i, get_model_info model = Some i /\ number (max_input_tokens i) = false).
Proof.
  intros H. apply init_Raise in H.
  destruct H as [H|[H|[H|(H & _)]]]; auto.
  contradiction H; reflexivity.
Qed.

(** X17.  The constructor raises nothing but [ModelEnvironmentError],
    [NoModelInfo] and the [TypeError] of comparing a [max_input_tokens]
    that is not a number, each for the model itself or for its weak model,
    with the message naming that model; the weak model's keys are checked
    whatever [validate_environment] says. *)
Theorem construction_raises_only
    (depth : nat) (model : string) (wa : weak_arg) (rmi ve : bool) (e : exn) :
  snd (init (S (S depth)) model wa rmi ve) = Raise e ->
  (ve = true /\ missing model <> [] /\
   e = ModelEnvironmentError (environment_message model (missing model)))
  \/ (rmi = true /\ get_model_info model = None /\ e = NoModelInfo (unknown model))
  \/ (e = TypeError /\
      exists i, get_model_info model = Some i /\ number (max_input_tokens i) = false)
  \/ (exists wname,
         wa <> ArgFalse /\ effective_weak_name model wa = Some wname /\ wname <> model /\
         ((missing wname <> [] /\
           e = ModelEnvironmentError (environment_message wname (missing wname)))
          \/ (rmi = true /\ get_model_info wname = None /\
              e = NoModelInfo (unknown wname))
          \/ (e = TypeError /\
              exists i, get_model_info wname = Some i /\
                        number (max_input_tokens i) = false))).
Proof.
  rewrite init_unfold. intros H.
  apply io_bind_Raise in H. destruct H as [H|(o1 & [] & _ & H)].
  { left. destruct (check_env_cases litellm_validate_environment model ve)
      as [(Hv & Hm & Hc)|(_ & out & Hc)]; rewrite Hc in H; cbn [snd] in H.
    - inversion H. auto.
    - discriminate. }
  apply io_bind_Raise in H. destruct H as [H|(o2 & i & Hf & H)].
  { right. left.
    destruct (fetch_cases get_model_info model_cost get_close_matches model rmi)
      as [(i & _ & Hf)|[(Hg & Hr & Hf)|(_ & _ & Hf)]]; rewrite Hf in H; cbn [snd] in H;
      try discriminate.
    inversion H. auto. }
  apply io_bind_Raise in H. destruct H as [H|(o3 & [] & _ & H)].
  { right. right. left.
    destruct (budget_cases i) as [(_ & Hb)|(Hn & Hb)]; rewrite Hb in H; cbn [snd] in H;
      [discriminate|].
    split; [congruence|].
    destruct (fetch_cases get_model_info model_cost get_close_matches model rmi)
      as [(i' & Hg & Hf')|[(_ & _ & Hf')|(_ & _ & Hf')]]; rewrite Hf' in Hf;
      inversion Hf; subst.
    - exists i. auto.
    - discriminate. }
  right. right. right.
  assert (Hfin : wa <> ArgFalse ->
                 snd (get_weak_model (init (S depth)) (after_configure model i) wa rmi)
                 = Raise e ->
                 exists wname,
                   wa <> ArgFalse /\ effective_weak_name model wa = Some wname /\
                   wname <> model /\
                   ((missing wname <> [] /\
                     e = ModelEnvironmentError (environment_message wname (missing wname)))
                    \/ (rmi = true /\ get_model_info wname = None /\
                        e = NoModelInfo (unknown wname))
                    \/ (e = TypeError /\
                        exists i, get_model_info wname = Some i /\
                                  number (max_input_tokens i) = false))).
  { intros Hwa Hr. apply get_weak_model_Raise in Hr.
    destruct Hr as (wname & He & _ & Hne & Hi).
    exists wname. repeat split; auto.
    apply init_Raise_own in Hi.
    destruct Hi as [(_ & Hm & ->)|[(Hr' & Hg & ->)|(-> & Hi)]]; auto. }
  destruct wa as [| |provided].
  - apply Hfin; [discriminate|exact H].
  - discriminate.
  - apply Hfin; [discriminate|exact H].
Qed.

(** X18.  When the constructor raises [ModelEnvironmentError]: exactly when
    validation is asked for and a key of the model is missing, or when the
    model's metadata is there with a [max_input_tokens] that is a number
    (or is missing and not required) and a key is missing for a weak model
    of another name, whether validation was asked for or not. *)
Theorem environment_error_iff
    (depth : nat) (model : string) (wa : weak_arg) (rmi ve : bool) :
  (exists msg, snd (init (S (S depth)) model wa rmi ve)
               = Raise (ModelEnvironmentError msg)) <->
  (ve = true /\ missing model <> []) \/
  (match get_model_info model with
   | Some i => number (max_input_tokens i) = true
   | None => rmi = false
   end /\ wa <> ArgFalse /\
   exists wname, effective_weak_name model wa = Some wname /\ wname <> "" /\
                 wname <> model /\ missing wname <> []).
Proof.
  split.
  - intros (msg & H). rewrite init_unfold in H.
    apply io_bind_Raise in H. destruct H as [H|(o1 & [] & _ & H)].
    { left. destruct (check_env_cases litellm_validate_environment model ve)
        as [(Hv & Hm & _)|(_ & out & Hc)]; [auto|].
      rewrite Hc in H. discriminate. }
    apply io_bind_Raise in H. destruct H as [H|(o2 & i & Hf & H)].
    { destruct (fetch_cases get_model_info model_cost get_close_matches model rmi)
        as [(i & _ & Hf)|[(_ & _ & Hf)|(_ & _ & Hf)]]; rewrite Hf in H; discriminate. }
    apply io_bind_Raise in H. destruct H as [H|(o3 & [] & Hb & H)].
    { destruct (budget_cases i) as [(_ & Hb)|(_ & Hb)]; rewrite Hb in H; discriminate. }
    right. split.
    { destruct (fetch_cases get_model_info model_cost get_close_matches model rmi)
        as [(i' & Hg & Hf')|[(_ & _ & Hf')|(Hg & Hr & _)]].
      - rewrite Hf' in Hf. inversion Hf; subst i'. rewrite Hg.
        destruct (budget_cases i) as [(Hn & _)|(_ & Hb')]; [exact Hn|].
        rewrite Hb' in Hb. discriminate.
      - rewrite Hf' in Hf. discriminate.
      - rewrite Hg. exact Hr. }
    assert (Hgen : snd (get_weak_model (init (S depth)) (after_configure model i) wa rmi)
                   = Raise (ModelEnvironmentError msg) ->
                   exists wname, effective_weak_name model wa = Some wname /\
                                 wname <> "" /\ wname <> model /\ missing wname <> []).
    { intros Hr. apply get_weak_model_Raise in Hr.
      destruct Hr as (wname & He & H1 & H2 & Hr). exists wname. repeat split; auto.
      apply init_Raise_own in Hr.
      destruct Hr as [(_ & Hm & _)|[(_ & _ & Hr)|(Hr & _)]];
        [exact Hm|discriminate|discriminate]. }
    destruct wa as [| |provided].
    + split; [discriminate|]. apply Hgen, H.
    + discriminate.
    + split; [discriminate|]. apply Hgen, H.
  - assert (Hown : ve = true /\ missing model <> [] ->
                   exists msg, snd (init (S (S depth)) model wa rmi ve)
                               = Raise (ModelEnvironmentError msg)).
    { intros [Hv Hm]. rewrite init_unfold.
      destruct (check_env_cases litellm_validate_environment model ve)
        as [(_ & _ & ->)|([Hv'|Hm'] & _)]; try congruence.
      eexists. reflexivity. }
    intros [H|(Hi & Hwa & wname & He & H1 & H2 & Hm)]; [exact (Hown H)|].
    destruct (check_env_cases litellm_validate_environment model ve)
      as [(Hv & Hm' & _)|(_ & o1 & Hc)]; [apply Hown; auto|].
    rewrite init_unfold, (io_bind_snd _ _ o1 tt Hc).
    assert (Hf : exists i, fetch_info get_model_info model_cost get_close_matches model rmi
                           = ([], OK i) /\ check_budget i = ([], OK tt)).
    { destruct (fetch_cases get_model_info model_cost get_close_matches model rmi)
        as [(i & Hg & Hf)|[(Hg & Hr & _)|(_ & _ & Hf)]].
      - exists i. split; [exact Hf|]. rewrite Hg in Hi.
        destruct (budget_cases i) as [(_ & Hb)|(Hn & _)]; [exact Hb|congruence].
      - rewrite Hg in Hi. congruence.
      - exists []. split; [exact Hf|exact budget_empty]. }
    destruct Hf as (i & Hf & Hb).
    rewrite (io_bind_snd _ _ [] i Hf), (io_bind_snd _ _ [] tt Hb).
    exists (environment_message wname (missing wname)).
    assert (Hgen : snd (get_weak_model (init (S depth)) (after_configure model i) wa rmi)
                   = Raise (ModelEnvironmentError
                              (environment_message wname (missing wname)))).
    { apply get_weak_model_Raise. exists wname. repeat split; auto.
      rewrite init_unfold.
      destruct (check_env_cases litellm_validate_environment wname true)
        as [(_ & _ & ->)|([Hv'|Hm'] & _)]; [reflexivity|discriminate|contradiction]. }
    destruct wa as [| |provided]; [exact Hgen|contradiction Hwa; reflexivity|exact Hgen].
Qed.

End ConstructionFacts.

(** X19.  Configuring twice for the same name changes nothing more. *)
Theorem configure_model_settings_idempotent (self : Model) (model : string) :
  configure_model_settings (configure_model_settings self model) model
  = configure_model_settings self model.
Proof.
  unfold configure_model_settings.
  destruct (find _ MODEL_SETTINGS) as [ms|]; [reflexivity|].
  destruct (contains "llama3" model && contains "70b" model); [reflexivity|].
  destruct (contains "gpt-4-turbo" model || contains "gpt-4-" model && contains "-preview" model);
    [reflexivity|].
  destruct (contains "gpt-4" model || contains "claude-2" model || contains "claude-3-opus" model);
    [reflexivity|].
  destruct (edit_format self =? "diff") eqn:E; [|rewrite E; reflexivity].
  cbn [edit_format set_use_repo_map]. rewrite E. reflexivity.
Qed.

Lemma environment_error_iff_witness :
  exists msg, snd (Model_init no_keys_environment any_model_info [] no_close_matches
                     2 "gpt-4-0613" ArgNone false false)
              = Raise (ModelEnvironmentError msg).
Proof.
  apply (environment_error_iff no_keys_environment any_model_info [] no_close_matches
           0 "gpt-4-0613" ArgNone false false).
  right. split; [reflexivity|]. split; [discriminate|].
  exists "gpt-3.5-turbo".
  split; [reflexivity|]. split; [discriminate|]. split; discriminate.
Defined.

Lemma construction_keeps_name_witness : Model_str gpt4_0613_profile = "gpt-4-0613".
Proof.
  exact (construction_keeps_name keys_present any_model_info [] no_close_matches
           2 "gpt-4-0613" ArgNone true true [] gpt4_0613_profile eq_refl).
Defined.

Lemma construction_history_budget_witness :
  (any_model_info "gpt-4-0613" = Some (info gpt4_0613_profile) \/
   (any_model_info "gpt-4-0613" = None /\ true = false /\ info gpt4_0613_profile = [])) /\
  exists below : bool,
    value_lt_int (assoc_get "max_input_tokens" (info gpt4_0613_profile) (VInt 0)) 32768
    = OK below /\
    max_chat_history_tokens gpt4_0613_profile = (if below then 1024 else 2048)%Z.
Proof.
  exact (construction_history_budget keys_present any_model_info [] no_close_matches
           2 "gpt-4-0613" ArgNone true true [] gpt4_0613_profile eq_refl).
Defined.

Lemma construction_settings_witness :
  (edit_format gpt4_0613_profile = "whole" \/ edit_format gpt4_0613_profile = "diff"
   \/ edit_format gpt4_0613_profile = "udiff") /\
  send_undo_reply gpt4_0613_profile = use_repo_map gpt4_0613_profile /\
  (edit_format gpt4_0613_profile <> "whole" -> use_repo_map gpt4_0613_profile = true) /\
  (accepts_images gpt4_0613_profile = true ->
   use_repo_map gpt4_0613_profile = true /\ edit_format gpt4_0613_profile <> "whole").
Proof.
  exact (construction_settings keys_present any_model_info [] no_close_matches
           2 "gpt-4-0613" ArgNone true true [] gpt4_0613_profile eq_refl).
Defined.

Lemma configured_weak_model_plain_witness :
  edit_format gpt35_profile = "whole" /\ use_repo_map gpt35_profile = false /\
  send_undo_reply gpt35_profile = false /\ accepts_images gpt35_profile = false.
Proof.
  exact (configured_weak_model_plain keys_present any_model_info [] no_close_matches
           2 "gpt-4-0613" true true [] gpt4_0613_profile gpt35_profile eq_refl eq_refl).
Defined.

Lemma unregistered_model_own_weak_model_witness :
  weak_model_name mistral_profile = None /\ weak_model mistral_profile = WeakSelf /\
  accepts_images mistral_profile = false.
Proof.
  apply (unregistered_model_own_weak_model keys_present any_model_info []
           no_close_matches 2 "mistral-7b" true true [] mistral_profile);
    [|reflexivity].
  cbn. intros H. repeat (destruct H as [H|H]; [discriminate|]). exact H.
Defined.

Lemma commit_message_models_spec_witness :
  exists w c, commit_message_models gpt4_0613_profile = [w] /\
              referent gpt4_0613_profile w = Some c /\
              Model_str c = commit_model_name "gpt-4-0613" ArgNone.
Proof.
  exact (commit_message_models_spec keys_present any_model_info [] no_close_matches
           2 "gpt-4-0613" ArgNone true true [] gpt4_0613_profile eq_refl).
Defined.

Lemma construction_output_witness :
  ["Unable to check environment variables for model gpt-4-0613";
   "Unable to check environment variables for model gpt-3.5-turbo"]
  = (environment_warning (unchecked_environment "gpt-4-0613") "gpt-4-0613" ++
     match weak_model gpt4_0613_profile with
     | WeakModel B => environment_warning (unchecked_environment (Model_str B)) (Model_str B)
     | _ => []
     end)%list.
Proof.
  exact (construction_output unchecked_environment any_model_info [] no_close_matches
           2 "gpt-4-0613" ArgNone true true
           ["Unable to check environment variables for model gpt-4-0613";
            "Unable to check environment variables for model gpt-3.5-turbo"]
           gpt4_0613_profile eq_refl).
Defined.

Lemma construction_raises_only_witness :
  let e := TypeError in
  (true = true /\ missing_keys (keys_present "gpt-4-0613") <> [] /\
   e = ModelEnvironmentError
         (environment_message "gpt-4-0613" (missing_keys (keys_present "gpt-4-0613"))))
  \/ (true = true /\ gpt4_0613_tokens_only "gpt-4-0613" = None /\
      e = NoModelInfo (check_model_name [] no_close_matches "gpt-4-0613"))
  \/ (e = TypeError /\
      exists i, gpt4_0613_tokens_only "gpt-4-0613" = Some i /\
                number (max_input_tokens i) = false)
  \/ (exists wname,
         ArgNone <> ArgFalse /\ effective_weak_name "gpt-4-0613" ArgNone = Some wname /\
         wname <> "gpt-4-0613" /\
         ((missing_keys (keys_present wname) <> [] /\
           e = ModelEnvironmentError
                 (environment_message wname (missing_keys (keys_present wname))))
          \/ (true = true /\ gpt4_0613_tokens_only wname = None /\
              e = NoModelInfo (check_model_name [] no_close_matches wname))
          \/ (e = TypeError /\
              exists i, gpt4_0613_tokens_only wname = Some i /\
                        number (max_input_tokens i) = false))).
Proof.
  exact (construction_raises_only keys_present gpt4_0613_tokens_only [] no_close_matches
           0 "gpt-4-0613" ArgNone true true TypeError eq_refl).
Defined.

(** ** Suggestions, messages and the command line *)

Lemma contains_empty (hay : string) : contains "" hay = true.
Proof. destruct hay; reflexivity. Qed.

Lemma filter_all {A : Type} (f : A -> bool) (l : list A) :
  (forall x, f x = true) -> filter f l = l.
Proof.
  intros H. induction l as [|x l IH]; [reflexivity|].
  cbn [filter]. rewrite H, IH. reflexivity.
Qed.

Lemma fold_left_matches (matches : list string) (acc : string) :
  fold_left (fun res match_ => res ++ newline ++ "- " ++ match_) matches acc
  = acc ++ concat "" (map (fun match_ => newline ++ "- " ++ match_) matches).
Proof.
  assert (E : forall s, s ++ "" = s)
    by (induction s as [|x s IHs]; cbn; [reflexivity|rewrite IHs; reflexivity]).
  revert acc. induction matches as [|k matches IH]; intros acc.
  - cbn. rewrite E. reflexivity.
  - cbn [fold_left map]. rewrite IH.
    destruct matches as [|k' matches].
    + cbn [map concat]. rewrite E. reflexivity.
    + cbn [map concat]. rewrite !append_assoc. reflexivity.
Qed.

Section SuggestionFacts.

Variable model_cost : list string.
Variable get_close_matches : string -> list string -> nat -> Q -> list string.

Local Abbreviation fuzzy := (fuzzy_match_models model_cost get_close_matches).
Local Abbreviation unknown := (check_model_name model_cost get_close_matches).

Lemma fuzzy_unfold (name : string) :
  fuzzy name =
  if existsb (String.eqb name) model_cost then [name]
  else match filter (contains name) model_cost with
       | [] => get_close_matches name model_cost 3%nat (8 # 10)%Q
       | _ :: _ => filter (contains name) model_cost
       end.
Proof. reflexivity. Qed.

Lemma fuzzy_exact (name : string) : In name model_cost -> fuzzy name = [name].
Proof. intros H. rewrite fuzzy_unfold. apply exact_key_iff in H. rewrite H. reflexivity. Qed.

(** X20.  The empty name is contained in every key: unless it is a key
    itself, [fuzzy_match_models("")] returns the whole catalog. *)
Theorem fuzzy_match_empty_name :
  ~ In "" model_cost -> model_cost <> [] ->
  fuzzy_match_models model_cost get_close_matches "" = model_cost.
Proof.
  intros Hn Hc. rewrite fuzzy_unfold.
  destruct (existsb (String.eqb "") model_cost) eqn:E.
  { apply exact_key_iff in E. contradiction. }
  rewrite (filter_all (contains "") model_cost contains_empty).
  destruct model_cost; [contradiction|reflexivity].
Qed.

(** X22.  The message of [check_model_name]: "Unknown model <name>", then,
    when there are suggestions, ", did you mean one of these?" and one
    "- <suggestion>" line for each.  For a name that is a catalog key the
    one suggestion is the name itself. *)
Theorem check_model_name_message (model : string) :
  check_model_name model_cost get_close_matches model
  = "Unknown model " ++ model
    ++ suggestion_text (fuzzy_match_models model_cost get_close_matches model) /\
  (In model model_cost ->
   check_model_name model_cost get_close_matches model
   = "Unknown model " ++ model ++ ", did you mean one of these?" ++ newline ++ "- " ++ model).
Proof.
  assert (E : forall s, s ++ "" = s)
    by (induction s as [|x s IHs]; cbn; [reflexivity|rewrite IHs; reflexivity]).
  assert (H : unknown model = "Unknown model " ++ model ++ suggestion_text (fuzzy model)).
  { unfold check_model_name, suggestion_text.
    destruct (fuzzy model) as [|k l].
    - rewrite E. reflexivity.
    - rewrite fold_left_matches, !append_assoc. reflexivity. }
  split; [exact H|].
  intros Hin. rewrite H, (fuzzy_exact model Hin). unfold suggestion_text.
  cbn [map concat]. reflexivity.
Qed.

(** X23.  [main] exits with status 1 exactly when it is not given one
    argument, printing the usage line and nothing else; with one argument
    it returns normally. *)
Theorem main_exit_status (argv : list string) :
  (snd (main model_cost get_close_matches argv) = SystemExit 1
   <-> List.length argv <> 2%nat) /\
  (snd (main model_cost get_close_matches argv) = Returned
   <-> List.length argv = 2%nat) /\
  (List.length argv <> 2%nat ->
   fst (main model_cost get_close_matches argv)
   = ["Usage: python models.py <model_name>"]).
Proof.
  unfold main. destruct (Nat.eqb_spec (List.length argv) 2) as [E|E]; cbn [negb].
  - destruct (fuzzy (nth 1 argv "")); cbn [fst snd];
      repeat split; try congruence; try discriminate; intros; congruence.
  - cbn [fst snd]. repeat split; try congruence; try discriminate; intros; congruence.
Qed.

(** What [difflib.get_close_matches] returns is taken from the possibilities. *)
Hypothesis get_close_matches_sound :
  forall word possibilities n cutoff x,
    In x (get_close_matches word possibilities n cutoff) -> In x possibilities.

Lemma fuzzy_sound (name x : string) : In x (fuzzy name) -> In x model_cost.
Proof.
  rewrite fuzzy_unfold.
  destruct (existsb (String.eqb name) model_cost) eqn:E.
  - intros [<-|[]]. apply exact_key_iff. exact E.
  - destruct (filter (contains name) model_cost) as [|k l] eqn:F.
    + apply get_close_matches_sound.
    + rewrite <- F. intros H. apply filter_In in H. apply H.
Qed.

(** X21.  Every suggestion is a key of the catalog, and asking for a
    suggestion again gives back exactly that name. *)
Theorem fuzzy_suggestions_are_keys (name x : string) :
  In x (fuzzy_match_models model_cost get_close_matches name) ->
  In x model_cost /\ fuzzy_match_models model_cost get_close_matches x = [x].
Proof.
  intros H. apply fuzzy_sound in H. split; [exact H|apply fuzzy_exact; exact H].
Qed.

(** X24.  With one argument [main] prints a heading line and then catalog
    keys only: the name itself when it is a key, and no line at all
    exactly under the heading "No matching models found". *)
Theorem main_prints_catalog_names (prog name : string) :
  exists heading rest,
    main model_cost get_close_matches [prog; name] = (heading :: rest, Returned) /\
    (forall x, In x rest -> In x model_cost) /\
    (In name model_cost -> rest = [name]) /\
    (rest = [] <-> heading = "No matching models found for '" ++ name ++ "'.").
Proof.
  unfold main. cbn [List.length Nat.eqb negb nth].
  destruct (fuzzy name) as [|k l] eqn:F.
  - eexists; exists []. split; [reflexivity|]. split; [intros x []|].
    split; [|split; reflexivity].
    intros Hin. rewrite (fuzzy_exact name Hin) in F. discriminate.
  - eexists; exists (k :: l). split; [reflexivity|]. split.
    + intros x Hx. apply (fuzzy_sound name). rewrite F. exact Hx.
    + split.
      * intros Hin. rewrite (fuzzy_exact name Hin) in F. symmetry. exact F.
      * split; discriminate.
Qed.

End SuggestionFacts.

Lemma flat_close_matches_sound :
  forall word possibilities n cutoff x,
    In x (flat_close_matches word possibilities n cutoff) -> In x possibilities.
Proof.
  intros word possibilities n cutoff x H.
  exact (proj1 (proj1 (proj2 (flat_close_matches_spec word possibilities n cutoff)) x H)).
Qed.

Lemma fuzzy_match_empty_name_witness :
  fuzzy_match_models small_catalog no_close_matches "" = small_catalog.
Proof.
  apply (fuzzy_match_empty_name small_catalog no_close_matches);
    [intros [H|[H|[]]]; discriminate|discriminate].
Defined.

Lemma fuzzy_suggestions_are_keys_witness :
  In "gpt-4" small_catalog /\
  fuzzy_match_models small_catalog flat_close_matches "gpt-4" = ["gpt-4"].
Proof.
  apply (fuzzy_suggestions_are_keys small_catalog flat_close_matches
           flat_close_matches_sound "gpt" "gpt-4").
  vm_compute. left. reflexivity.
Defined.

Lemma main_prints_catalog_names_witness :
  exists heading rest,
    main small_catalog flat_close_matches ["models.py"; "gpt"]
    = (heading :: rest, Returned) /\
    (forall x, In x rest -> In x small_catalog) /\
    (In "gpt" small_catalog -> rest = ["gpt"]) /\
    (rest = [] <-> heading = "No matching models found for '" ++ "gpt" ++ "'.").
Proof.
  exact (main_prints_catalog_names small_catalog flat_close_matches
           flat_close_matches_sound "models.py" "gpt").
Defined.
